(** * LexicMap: seed store searcher, anchor cleaning and chaining

    A shallow embedding of the parts of LexicMap that the specification
    makes checkable statements about and of the code around them,
    together with the proofs of those statements and of further
    properties of the code:

    - the pair codec of [util] ([PutUint64s], [Uint64s]);
    - [kv.Searcher.Search], the range scan over a seed file;
    - [Chainer2.Chain] and [chainARegion];
    - [ClearSubstrPairs], the single-seed prefilter of [Index.Search],
      [RC], [rcTable] and [parseKmerValue];
    - [BuildIndex] and [buildAnIndex]: the batches of files, the chunks
      of masks, the sequences of a genome and the regions to skip;
    - [NewIndexSearcher] and further steps of [Index.Search]: the
      collector, the best targets and the sequence of a fragment.

    Go's fixed-width integers are integers of [Z] with the wrap-around of
    every operation written out; slices are lists; the seed file is a list
    of bytes, read through the position of its handle. *)

From Stdlib Require Import ZArith List Lia Bool.
From Stdlib Require Import Strings.Byte.
From stdpp Require Import base numbers list sorting gmap.

Open Scope Z_scope.

(** ** Fixed-width integers *)

Module Int.

(** Conversion to [uint64], [uint8], [int32] and [int64] ([int] is 64
    bits wide). *)
Definition u64 (x : Z) : Z := x mod 2 ^ 64.
Definition u8 (x : Z) : Z := x mod 2 ^ 8.
Definition i32 (x : Z) : Z := (x + 2 ^ 31) mod 2 ^ 32 - 2 ^ 31.
Definition i64 (x : Z) : Z := (x + 2 ^ 63) mod 2 ^ 64 - 2 ^ 63.

(** [x << n] and [x >> n] on [uint64]; Go gives [0] for a shift count
    of 64 or more, which is what the definitions on [Z] give too. *)
Definition shl64 (x n : Z) : Z := u64 (Z.shiftl x n).
Definition shr64 (x n : Z) : Z := Z.shiftr x n.

(** [math.MaxUint64]. *)
Definition MaxUint64 : Z := 2 ^ 64 - 1.

(** [bits.LeadingZeros64]. *)
Definition LeadingZeros64 (x : Z) : Z :=
  if x =? 0 then 64 else 63 - Z.log2 x.

(** A byte as a number, and the byte of a number. *)
Definition byte_to_Z (b : byte) : Z := Z.of_N (Byte.to_N b).

Definition byte_of_Z (z : Z) : byte :=
  match Byte.of_N (Z.to_N (z mod 256)) with
  | Some b => b
  | None => x00
  end.

(** [l[i]], with [None] for the panic of an index out of range. *)
Definition index_at {A} (l : list A) (i : Z) : option A :=
  if i <? 0 then None else l !! Z.to_nat i.

(** [+] and [-] on [int]. *)
Definition add (x y : Z) : Z := i64 (x + y).
Definition sub (x y : Z) : Z := i64 (x - y).

(** [*], [/] and [<<] on [int].  [/] truncates towards zero, and [None]
    is the run-time panic of a division by zero; a shift by 64 or more
    gives [0]. *)
Definition mul (x y : Z) : Z := i64 (x * y).

Definition div (x y : Z) : option Z :=
  if y =? 0 then None else Some (i64 (Z.quot x y)).

Definition shl (x n : Z) : Z := i64 (Z.shiftl x n).

(** [s[low:high]] on a slice that is as long as its capacity: [None] is
    the run-time panic of bounds out of range. *)
Definition slice {A} (s : list A) (low high : Z) : option (list A) :=
  if (0 <=? low) && (low <=? high) && (high <=? Z.of_nat (length s))
  then Some (take (Z.to_nat (high - low)) (drop (Z.to_nat low) s))
  else None.

End Int.

(** ** The pair codec of [util] *)

Module Varint.
Import Int.

(** Modelled from the spec: [util.PutUint64s], [util.Uint64s] and the
    table [util.CtrlByte2ByteLengths] (the file that defines them,
    varint-GB.go, is not among the sources; only its test and its callers
    are).  The specification, section 4.1: one control byte whose low 6
    bits hold [len(x)-1] and [len(y)-1] as two 3-bit fields (lengths 1..8),
    followed by [len(x)+len(y)] little-endian data bytes; a 64-entry table
    maps the low 6 bits to the two lengths; decoding reads the lengths from
    the table and zero-extends each half.  The field of [x] is taken to be
    the high one (bits 5..3). *)
Definition byteLength (x : Z) : Z :=
  if x <? 2 ^ 8 then 1
  else if x <? 2 ^ 16 then 2
  else if x <? 2 ^ 24 then 3
  else if x <? 2 ^ 32 then 4
  else if x <? 2 ^ 40 then 5
  else if x <? 2 ^ 48 then 6
  else if x <? 2 ^ 56 then 7
  else 8.

(** Modelled from the spec: the [n] low bytes of [x], least significant
    first. *)
Fixpoint le_bytes (n : nat) (x : Z) : list byte :=
  match n with
  | O => []
  | S n' => byte_of_Z (Z.land x 255) :: le_bytes n' (Z.shiftr x 8)
  end.

(** Modelled from the spec: the value of little-endian bytes. *)
Fixpoint le_value (bs : list byte) : Z :=
  match bs with
  | [] => 0
  | b :: bs' => Z.lor (byte_to_Z b) (Z.shiftl (le_value bs') 8)
  end.

(** Modelled from the spec: [PutUint64s(buf, x, y)] returns the control
    byte and writes the data bytes, which are returned here. *)
Definition PutUint64s (x y : Z) : Z * list byte :=
  let lx := byteLength x in
  let ly := byteLength y in
  (Z.lor (Z.shiftl (lx - 1) 3) (ly - 1),
   le_bytes (Z.to_nat lx) x ++ le_bytes (Z.to_nat ly) y).

(** Modelled from the spec: the 64-entry table from the low 6 bits of a
    control byte to the two lengths. *)
Definition CtrlByte2ByteLengths : list (Z * Z) :=
  (fun c : nat => (Z.shiftr (Z.of_nat c) 3 + 1, Z.land (Z.of_nat c) 7 + 1))
    <$> seq 0 64.

(** Modelled from the spec: [Uint64s(ctrl, buf)] returns the two values
    and the number of bytes decoded, which is [0] when the length of [buf]
    is not the one the control byte announces.  [None] is the run-time
    panic of an index outside the table. *)
Definition Uint64s (ctrl : Z) (buf : list byte) : option ((Z * Z) * Z) :=
  if ctrl <? 0 then None
  else
    match CtrlByte2ByteLengths !! Z.to_nat ctrl with
    | None => None
    | Some (l0, l1) =>
        if Z.of_nat (length buf) =? l0 + l1
        then Some ((le_value (take (Z.to_nat l0) buf),
                    le_value (drop (Z.to_nat l0) buf)), l0 + l1)
        else Some ((0, 0), 0)
    end.

End Varint.

(** ** The seed file searcher: [kv.Searcher] *)

Module KV.
Import Int Varint.

(** *** Results, errors and the file behind the searcher *)

(** What the code below [Search] can fail with: [io.EOF] and
    [io.ErrUnexpectedEOF] of [io.ReadFull], [ErrBrokenFile], and the
    run-time panic of an index out of range. *)
Inductive io_error : Type :=
| EOF
| ErrUnexpectedEOF
| ErrBrokenFile
| IndexOutOfRange.

(** The errors of [Search]: the invalid k-mer error, made only by the
    first statement of [Search], or an error of the code below, returned
    as it is. *)
Inductive error : Type :=
| ErrInvalidKmer (k kmer : Z)
| ErrIO (e : io_error).

(** The outcome of a computation: a value, an error, or no outcome within
    the given number of loop rounds. *)
Inductive outcome (E A : Type) : Type :=
| Ok (a : A)
| Err (e : E)
| OutOfFuel.
Arguments Ok {E A} a.
Arguments Err {E A} e.
Arguments OutOfFuel {E A}.

(** A call on the file handle [fh]. *)
Inductive FileOp : Type :=
| OpSeek (offset : Z)
| OpRead (n : Z).

(** Computations on the file handle [fh]: from the bytes of the file
    (which [Search] never writes) and the position of the handle to an
    outcome, the new position, and the calls made on the handle, in
    order. *)
Definition IO (A : Type) : Type :=
  list byte -> Z -> outcome io_error A * Z * list FileOp.

Definition ret {A} (a : A) : IO A := fun _ pos => (Ok a, pos, []).
Definition fail {A} (e : io_error) : IO A := fun _ pos => (Err e, pos, []).
Definition out_of_fuel {A} : IO A := fun _ pos => (OutOfFuel, pos, []).

Definition bind {A B} (c : IO A) (f : A -> IO B) : IO B :=
  fun data pos =>
    match c data pos with
    | (Ok a, pos', ops) =>
        let '(r, pos'', ops') := f a data pos' in (r, pos'', ops ++ ops')
    | (Err e, pos', ops) => (Err e, pos', ops)
    | (OutOfFuel, pos', ops) => (OutOfFuel, pos', ops)
    end.

Notation "'let*' x ':=' c 'in' f" := (bind c (fun x => f))
  (at level 10, x name, c at level 100, f at level 200, only parsing).

(** [r.Seek(int64(offset), 0)]; the code ignores what it returns.  A
    negative offset is refused by the system and leaves the position as it
    was. *)
Definition Seek (offset : Z) : IO unit :=
  fun _ pos =>
    let o := i64 offset in
    (Ok tt, (if o <? 0 then pos else o), [OpSeek o]).

(** [io.ReadFull(r, buf[:n])]: [n] bytes, [io.EOF] when there is none
    left, [io.ErrUnexpectedEOF] when there are fewer than [n].  For
    [n = 0] no read is made. *)
Definition ReadFull (n : Z) : IO (list byte) :=
  fun data pos =>
    if n <=? 0 then (Ok [], pos, [])
    else
      let size := Z.of_nat (length data) in
      if size <=? pos then (Err EOF, pos, [OpRead n])
      else if size <? pos + n then (Err ErrUnexpectedEOF, size, [OpRead n])
      else (Ok (take (Z.to_nat n) (drop (Z.to_nat pos) data)),
            pos + n, [OpRead n]).

(** [be.Uint64]: the value of big-endian bytes. *)
Definition be_Uint64 (bs : list byte) : Z :=
  fold_left (fun acc b => Z.lor (Z.shiftl acc 8) (byte_to_Z b)) bs 0.

(** [SearchResult]. *)
Record SearchResult : Type := mkSearchResult {
  Kmer : Z;
  LenPrefix : Z;
  Values : list Z
}.

(** [Searcher]; the buffers [buf] and [buf8] hold no state between
    reads, and the file handle [fh] is what the computations of [IO] run
    on. *)
Record Searcher : Type := mkSearcher {
  K : Z;
  ChunkIndex : Z;
  ChunkSize : Z;
  Indexes : list (list Z);
  maxKmer : Z
}.

(** The searcher that [NewSearcher] builds from what [ReadKVIndex]
    returns: [maxKmer: 1<<(k<<1) - 1], with [k] a [uint8]. *)
Definition NewSearcher (k chunkIndex : Z) (indexes : list (list Z)) : Searcher :=
  mkSearcher k chunkIndex (Z.of_nat (length indexes)) indexes
             (u64 (shl64 1 (u8 (Z.shiftl k 1)) - 1)).

(** *** [Search] *)

(** The scope to search: [(leftBound, rightBound)]. *)
Definition search_scope (k kmer m : Z) : Z * Z :=
  if m <? k then
    let suffix2 := u8 (Z.shiftl (u8 (k - m)) 1) in
    let mask := u64 (shl64 1 suffix2 - 1) in
    (Z.land kmer (u64 (MaxUint64 - mask)),
     u64 (shl64 (shr64 kmer suffix2) suffix2 + mask))
  else (kmer, kmer).

(** The binary search for the nearest anchor, from [begin] and [end];
    it returns [i]. *)
Fixpoint find_anchor (fuel : nat) (index : list Z) (leftBound : Z)
    (begin end_ : Z) : outcome io_error Z :=
  match fuel with
  | O => OutOfFuel
  | S fuel' =>
      let middle := begin + Z.shiftr (end_ - begin) 1 in
      let middle := if 0 <? Z.land middle 1 then middle - 1 else middle in
      match index_at index middle with
      | None => Err IndexOutOfRange
      | Some x =>
          let '(begin, end_) :=
            if leftBound <? x then (begin, middle) else (middle, end_) in
          if begin + 2 =? end_ then Ok begin
          else find_anchor fuel' index leftBound begin end_
      end
  end.

(** "read the control byte". *)
Definition read_ctrl : IO Z :=
  let* bs := ReadFull 1 in
  match bs with
  | b :: _ => ret (byte_to_Z b)
  | [] => fail IndexOutOfRange
  end.

(** "parse the control byte", "read encoded bytes" and the call of
    [util.Uint64s], which the code has twice. *)
Definition read_pair (ctrlByte : Z) : IO (Z * Z) :=
  match index_at CtrlByte2ByteLengths ctrlByte with
  | None => fail IndexOutOfRange
  | Some (b0, b1) =>
      let nBytes := u8 (b0 + b1) in
      let* buf := ReadFull nBytes in
      if Z.of_nat (length buf) <? nBytes then fail ErrBrokenFile
      else
        match Uint64s ctrlByte buf with
        | None => fail IndexOutOfRange
        | Some (decodedVals, nDecoded) =>
            if nDecoded =? 0 then fail ErrBrokenFile else ret decodedVals
        end
  end.

(** The loops [for j = 0; j < lenVal; j++] over the values of a k-mer:
    8 bytes are read for each value, and the value is appended when
    [keep] is set. *)
Fixpoint read_values (n : nat) (keep : bool) (values : list Z) : IO (list Z) :=
  match n with
  | O => ret values
  | S n' =>
      let* buf8 := ReadFull 8 in
      if Z.of_nat (length buf8) <? 8 then fail ErrBrokenFile
      else read_values n' keep (if keep then values ++ [be_Uint64 buf8] else values)
  end.

(** [uint8(bits.LeadingZeros64(kmer^kmer1)>>1) + k - 32], in [uint8]. *)
Definition len_prefix (k kmer kmer1 : Z) : Z :=
  u8 (u8 (u8 (Z.shiftr (LeadingZeros64 (Z.lxor kmer kmer1)) 1) + k) - 32).

(** The loop "check one by one" over the records of one mask.  Of the
    variables declared before the loops, [first], [found] and [_offset]
    carry a value from one round to the next; [index_i] is [index[i]]. *)
Fixpoint scan (fuel : nat) (k kmer leftBound rightBound index_i : Z)
    (first found : bool) (_offset : Z) (results : list SearchResult)
    : IO (list SearchResult) :=
  match fuel with
  | O => out_of_fuel
  | S fuel' =>
      let* ctrlByte := read_ctrl in
      let lastPair := 0 <? Z.land ctrlByte 128 in
      let hasKmer2 := Z.land ctrlByte 64 =? 0 in
      let ctrlByte := Z.land ctrlByte 63 in
      let* decodedVals := read_pair ctrlByte in
      let kmer1 := if first then index_i else u64 (fst decodedVals + _offset) in
      let kmer2 := u64 (kmer1 + snd decodedVals) in
      let _offset := kmer2 in
      if rightBound <? kmer1 then ret results
      else
        let found := found || (leftBound <=? kmer1) || (leftBound <=? kmer2) in
        let* ctrlByte := read_ctrl in
        let* decodedVals := read_pair ctrlByte in
        let lenVal1 := fst decodedVals in
        let lenVal2 := snd decodedVals in
        let* results :=
          (if found && (leftBound <=? kmer1) then
             let* values := read_values (Z.to_nat lenVal1) found [] in
             ret (results ++ [mkSearchResult kmer1 (len_prefix k kmer kmer1) values])
           else
             let* _ := read_values (Z.to_nat lenVal1) false [] in
             ret results) in
        if rightBound <? kmer2 then ret results
        else if lastPair && negb hasKmer2 then ret results
        else
          let* results :=
            (if found then
               let* values := read_values (Z.to_nat lenVal2) true [] in
               ret (results ++ [mkSearchResult kmer2 (len_prefix k kmer kmer2) values])
             else
               let* _ := read_values (Z.to_nat lenVal2) false [] in
               ret results) in
          if lastPair then ret results
          else scan fuel' k kmer leftBound rightBound index_i false found
                    _offset results
  end.

(** One round of [for _, index := range scr.Indexes]. *)
Definition search_index (fuel : nat) (k kmer leftBound rightBound : Z)
    (index : list Z) (results : list SearchResult) : IO (list SearchResult) :=
  let last := Z.of_nat (length index) - 2 in
  match find_anchor fuel index leftBound 0 last with
  | OutOfFuel => out_of_fuel
  | Err e => fail e
  | Ok i =>
      match index_at index (i + 1), index_at index i with
      | Some offset, Some index_i =>
          let* _ := Seek offset in
          scan fuel k kmer leftBound rightBound index_i true false 0 results
      | _, _ => fail IndexOutOfRange
      end
  end.

Fixpoint search_indexes (fuel : nat) (k kmer leftBound rightBound : Z)
    (indexes : list (list Z)) (results : list SearchResult)
    : IO (list SearchResult) :=
  match indexes with
  | [] => ret results
  | index :: indexes' =>
      let* results := search_index fuel k kmer leftBound rightBound index results in
      search_indexes fuel k kmer leftBound rightBound indexes' results
  end.

(** [Searcher.Search], on a handle at position [pos] of a file with the
    bytes [data]: the results or the error returned in their place, the
    position of the handle afterwards, and the calls made on it. *)
Definition Search (fuel : nat) (scr : Searcher) (kmer m : Z)
    (data : list byte) (pos : Z)
    : outcome error (list SearchResult) * Z * list FileOp :=
  if maxKmer scr <? kmer then (Err (ErrInvalidKmer (K scr) kmer), pos, [])
  else
    let k := K scr in
    let m := if (m <? 1) || (k <? m) then k else m in
    let '(leftBound, rightBound) := search_scope k kmer m in
    match search_indexes fuel k kmer leftBound rightBound (Indexes scr) []
                         data pos with
    | (Ok results, pos', ops) => (Ok results, pos', ops)
    | (Err e, pos', ops) => (Err (ErrIO e), pos', ops)
    | (OutOfFuel, pos', ops) => (OutOfFuel, pos', ops)
    end.

(** *** Well-formed record streams *)

(** One whole record, as the writer lays it out (specification, section
    4.2): the k-mer frame with its two flags, the frame of the two
    lengths, the values of the first k-mer, and the values of the second
    one unless the record has none. *)
Definition read_record : IO (bool * bool * (Z * Z)) :=
  let* ctrlByte := read_ctrl in
  let lastPair := 0 <? Z.land ctrlByte 128 in
  let hasKmer2 := Z.land ctrlByte 64 =? 0 in
  let* deltas := read_pair (Z.land ctrlByte 63) in
  let* ctrlByte := read_ctrl in
  let* lens := read_pair ctrlByte in
  let* _ := read_values (Z.to_nat (fst lens)) false [] in
  let* _ := (if hasKmer2 : bool
             then read_values (Z.to_nat (snd lens)) false []
             else ret []) in
  ret (lastPair, hasKmer2, deltas).

(** The records from the position of the handle up to the one flagged as
    the last pair of the mask hold strictly increasing k-mers below 2^64,
    and only the last record may lack its second k-mer.  [prev] is the
    k-mer of the anchor when [first] is set, and the last k-mer before the
    position otherwise. *)
Fixpoint stream_ok (n : nat) (first : bool) (prev : Z)
    (data : list byte) (pos : Z) : bool :=
  match n with
  | O => false
  | S n' =>
      match read_record data pos with
      | (Ok (lastPair, hasKmer2, (d1, d2)), pos', _) =>
          let kmer1 := if first then prev else d1 + prev in
          let kmer2 := kmer1 + d2 in
          (first || (prev <? kmer1)) && (0 <=? kmer1) && (kmer1 <? 2 ^ 64)
          && (if hasKmer2 then (kmer1 <? kmer2) && (kmer2 <? 2 ^ 64) else lastPair)
          && (if lastPair then true
              else stream_ok n' false kmer2 data pos')
      | _ => false
      end
  end.

(** The anchors [(k-mer, offset)] of an index. *)
Fixpoint anchors (index : list Z) : list (Z * Z) :=
  match index with
  | kmer :: offset :: index' => (kmer, offset) :: anchors index'
  | _ => []
  end.

(** Every anchor of every index points at a well-formed stream of at most
    [n] records, and lies within the file. *)
Definition anchor_ok (n : nat) (bytes : list byte) (a : Z * Z) : bool :=
  (0 <=? snd a) && (snd a <? 2 ^ 63) && stream_ok n true (fst a) bytes (snd a).

Definition indexes_ok (n : nat) (indexes : list (list Z)) (bytes : list byte)
    : bool :=
  forallb (fun index => forallb (anchor_ok n bytes) (anchors index)) indexes.

(** What the theorems say of a result: its k-mer lies within the bounds,
    and its prefix length is the one computed from the query. *)
Definition result_ok (k kmer leftBound rightBound : Z) (r : SearchResult) : Prop :=
  leftBound <= Kmer r <= rightBound /\ LenPrefix r = len_prefix k kmer (Kmer r).


(** [Search] returned the invalid k-mer error. *)
Definition returns_invalid_kmer {A}
    (r : outcome error A * Z * list FileOp) : Prop :=
  exists k kmer, fst (fst r) = Err (ErrInvalidKmer k kmer).

(** *** A small seed file *)

(** The stream of one mask with the k-mers 5, 9 and 12 ([k = 3]) and the
    values 7, 8 and 9: the record of the pair (5, 9), then the last record,
    which holds 12 alone.  Its two anchors are (5, offset 0) and
    (12, offset 22). *)
Definition sample_stream : list byte :=
  map byte_of_Z
    [ 0; 5; 4;  0; 1; 1;  0; 0; 0; 0; 0; 0; 0; 7;  0; 0; 0; 0; 0; 0; 0; 8;
      192; 3; 0;  0; 1; 0;  0; 0; 0; 0; 0; 0; 0; 9 ].

Definition sample_index (offset : Z) : list Z :=
  [5; offset; 12; offset + 22].

(** *** The k-mers that a mask holds *)

(** One whole record with the values of its k-mers. *)
Definition read_record_values : IO (bool * bool * (Z * Z) * (list Z * list Z)) :=
  let* ctrlByte := read_ctrl in
  let lastPair := 0 <? Z.land ctrlByte 128 in
  let hasKmer2 := Z.land ctrlByte 64 =? 0 in
  let* deltas := read_pair (Z.land ctrlByte 63) in
  let* ctrlByte := read_ctrl in
  let* lens := read_pair ctrlByte in
  let* values1 := read_values (Z.to_nat (fst lens)) true [] in
  let* values2 := (if hasKmer2 : bool
                   then read_values (Z.to_nat (snd lens)) true []
                   else ret []) in
  ret (lastPair, hasKmer2, deltas, (values1, values2)).

(** The k-mers with their values that the records hold, from the position
    [pos] up to the record flagged as the last pair, in the order of the
    file; [first] and [prev] are as for [stream_ok]. *)
Fixpoint mask_entries (n : nat) (first : bool) (prev : Z)
    (data : list byte) (pos : Z) : list (Z * list Z) :=
  match n with
  | O => []
  | S n' =>
      match read_record_values data pos with
      | (Ok (lastPair, hasKmer2, (d1, d2), (values1, values2)), pos', _) =>
          let kmer1 := if first then prev else d1 + prev in
          let kmer2 := kmer1 + d2 in
          (kmer1, values1)
            :: (if hasKmer2 : bool then [(kmer2, values2)] else [])
            ++ (if lastPair : bool then [] else mask_entries n' false kmer2 data pos')
      | _ => []
      end
  end.

(** The results that the entries within the bounds stand for. *)
Definition in_scope (leftBound rightBound : Z) (e : Z * list Z) : bool :=
  (leftBound <=? fst e) && (fst e <=? rightBound).

Definition to_result (k kmer : Z) (e : Z * list Z) : SearchResult :=
  mkSearchResult (fst e) (len_prefix k kmer (fst e)) (snd e).

Definition scoped_results (k kmer leftBound rightBound : Z)
    (entries : list (Z * list Z)) : list SearchResult :=
  to_result k kmer <$> List.filter (in_scope leftBound rightBound) entries.

(** The entries of the whole mask: those read from its first anchor. *)
Definition index_entries (n : nat) (data : list byte) (index : list Z)
    : list (Z * list Z) :=
  match anchors index with
  | a0 :: _ => mask_entries n true (fst a0) data (snd a0)
  | [] => []
  end.

(** An index of three anchors or more, each of which points at a
    well-formed stream of at most [n] records that holds the entries of
    the mask from the k-mer of the anchor on. *)
Definition mask_ok (n : nat) (data : list byte) (index : list Z) : bool :=
  (6 <=? Z.of_nat (length index)) && (Z.of_nat (length index) mod 2 =? 0)
  && forallb (fun a =>
                anchor_ok n data a
                && bool_decide (mask_entries n true (fst a) data (snd a)
                                = List.filter (fun e => fst a <=? fst e)
                                              (index_entries n data index)))
             (anchors index).

(** The binary search ended at the anchor at [i], the nearest one:
    it is the first anchor or its k-mer is not above [leftBound], and the
    anchor after it is the last one or has a k-mer above [leftBound]. *)
Definition nearest_anchor (index : list Z) (leftBound i : Z) : Prop :=
  let last := Z.of_nat (length index) - 2 in
  0 <= i <= last - 2 /\ i mod 2 = 0 /\
  (i = 0 \/ exists x, index_at index i = Some x /\ x <= leftBound) /\
  (i + 2 = last \/ exists y, index_at index (i + 2) = Some y /\ leftBound < y).

(** A mask with three anchors: the records of the pairs (5, 9), (12, 20)
    and (30, 40), with the values 7 to 12. *)
Definition sample_stream3 : list byte :=
  map byte_of_Z
    [ 0; 5; 4;  0; 1; 1;  0; 0; 0; 0; 0; 0; 0; 7;  0; 0; 0; 0; 0; 0; 0; 8;
      0; 3; 8;  0; 1; 1;  0; 0; 0; 0; 0; 0; 0; 9;  0; 0; 0; 0; 0; 0; 0; 10;
      128; 10; 10;  0; 1; 1;  0; 0; 0; 0; 0; 0; 0; 11;  0; 0; 0; 0; 0; 0; 0; 12 ].

Definition sample_index3 : list Z := [5; 0; 12; 22; 30; 44].

End KV.

(** ** Anchors, reverse complement and location values *)

Module Index.
Import Int.

(** [rcTable]: the complement of a byte. *)
Definition rcTable : list Z :=
  [ 0; 1; 2; 3; 4; 5; 6; 7; 8; 9; 10; 11; 12; 13; 14; 15;
    16; 17; 18; 19; 20; 21; 22; 23; 24; 25; 26; 27; 28; 29; 30; 31;
    32; 33; 34; 35; 36; 37; 38; 39; 40; 41; 42; 43; 44; 45; 46; 47;
    48; 49; 50; 51; 52; 53; 54; 55; 56; 57; 58; 59; 60; 61; 62; 63;
    64; 84; 86; 71; 72; 69; 70; 67; 68; 73; 74; 77; 76; 75; 78; 79;
    80; 81; 89; 83; 65; 85; 66; 87; 88; 82; 90; 91; 92; 93; 94; 95;
    96; 116; 118; 103; 104; 101; 102; 99; 100; 105; 106; 109; 108; 107; 110; 111;
    112; 113; 121; 115; 97; 117; 98; 119; 120; 114; 122; 123; 124; 125; 126; 127;
    128; 129; 130; 131; 132; 133; 134; 135; 136; 137; 138; 139; 140; 141; 142; 143;
    144; 145; 146; 147; 148; 149; 150; 151; 152; 153; 154; 155; 156; 157; 158; 159;
    160; 161; 162; 163; 164; 165; 166; 167; 168; 169; 170; 171; 172; 173; 174; 175;
    176; 177; 178; 179; 180; 181; 182; 183; 184; 185; 186; 187; 188; 189; 190; 191;
    192; 193; 194; 195; 196; 197; 198; 199; 200; 201; 202; 203; 204; 205; 206; 207;
    208; 209; 210; 211; 212; 213; 214; 215; 216; 217; 218; 219; 220; 221; 222; 223;
    224; 225; 226; 227; 228; 229; 230; 231; 232; 233; 234; 235; 236; 237; 238; 239;
    240; 241; 242; 243; 244; 245; 246; 247; 248; 249; 250; 251; 252; 253; 254; 255 ].

(** [rcTable[b]]. *)
Definition rcTable_at (b : byte) : byte :=
  byte_of_Z (nth (Z.to_nat (byte_to_Z b)) rcTable 0).

(** The bytes of [ACGTacgt], and the IUPAC codes that [rcTable] also
    complements: [BDHKMRVY] and [bdhkmrvy]. *)
Definition is_acgt (b : byte) : bool :=
  existsb (Z.eqb (byte_to_Z b)) [65; 67; 71; 84; 97; 99; 103; 116].

Definition is_ambiguity_pair (b : byte) : bool :=
  existsb (Z.eqb (byte_to_Z b))
    [66; 68; 72; 75; 77; 82; 86; 89; 98; 100; 104; 107; 109; 114; 118; 121].

(** [s[i], s[j] = s[j], s[i]]. *)
Definition swap (s : list byte) (i j : nat) : list byte :=
  match s !! i, s !! j with
  | Some x, Some y => <[j := x]> (<[i := y]> s)
  | _, _ => s
  end.

(** The second loop of [RC]: [for i, j := 0, len(s)-1; i < j; i, j = i+1, j-1].
    It makes at most [len(s)/2] rounds, so [n = len(s)] rounds are enough. *)
Fixpoint reverse_loop (n : nat) (i j : Z) (s : list byte) : list byte :=
  match n with
  | O => s
  | S n' =>
      if i <? j
      then reverse_loop n' (i + 1) (j - 1) (swap s (Z.to_nat i) (Z.to_nat j))
      else s
  end.

(** [RC]: complement every byte, then reverse in place. *)
Definition RC (s : list byte) : list byte :=
  let s1 := rcTable_at <$> s in
  reverse_loop (length s1) 0 (Z.of_nat (length s1) - 1) s1.

(** The value stored for a location in [buildAnIndex]:
    [uint64(batch)<<47 | ((uint64(refIdx) & 131071) << 30) | (uint64(loc) & 1073741823)]. *)
Definition kmerValue (batch refIdx loc : Z) : Z :=
  Z.lor (Z.lor (shl64 (u64 batch) 47)
               (shl64 (Z.land (u64 refIdx) 131071) 30))
        (Z.land (u64 loc) 1073741823).

(** [parseKmerValue]. *)
Definition parseKmerValue (v : Z) : Z * Z * Z * Z :=
  (shr64 v 47, shr64 (shl64 v 17) 47, shr64 (shl64 v 34) 35, Z.land v 1).


(** *** Anchors *)

(** [SubstrPair]: [QBegin], [TBegin] are [int32]; [Len], [Mismatch] are
    [uint8]. *)
Record SubstrPair : Type := mkSubstrPair {
  QBegin : Z;
  TBegin : Z;
  Len : Z;
  Mismatch : Z;
  TRC : bool;
  QRC : bool
}.

(** [a.QBegin+int32(a.Len)] and [v.TBegin + int32(v.Len)], computed in
    [int32]. *)
Definition qend32 (a : SubstrPair) : Z := i32 (QBegin a + Len a).
Definition tend32 (a : SubstrPair) : Z := i32 (TBegin a + Len a).

(** The [less] function handed to [sort.Slice] in [ClearSubstrPairs]. *)
Definition less (a b : SubstrPair) : bool :=
  if QBegin a =? QBegin b then
    if qend32 a =? qend32 b then TBegin a <=? TBegin b
    else qend32 b <? qend32 a
  else QBegin a <? QBegin b.

(** [insertionSort_func] of Go's [sort] package:
    [for i := a + 1; i < b; i++ { for j := i; j > a &&
    less(data[j], data[j-1]); j-- { swap(j, j-1) } }].  The sorted prefix
    is kept reversed, last element first; [insert_back] moves the new
    element [x] towards the front for as long as [lt x p] holds of the
    element [p] before it. *)
Fixpoint insert_back {A} (lt : A -> A -> bool) (x : A) (rp : list A) : list A :=
  match rp with
  | [] => [x]
  | p :: rp' => if lt x p then p :: insert_back lt x rp' else x :: p :: rp'
  end.

Definition insertionSort {A} (lt : A -> A -> bool) (data : list A) : list A :=
  reverse (fold_left (fun rp x => insert_back lt x rp) data []).

(** [sort.Slice]: [pdqsort_func] hands a slice of at most 12 elements
    ([maxInsertion]) to [insertionSort_func].  What it does with a longer
    slice (the choice of a pivot, the partitions, the heap sort) is not
    part of this program; it is the parameter [pdqsort_func], of which
    the theorems ask what they need through [sorts]. *)
Definition sort_Slice {A} (pdqsort_func : (A -> A -> bool) -> list A -> list A)
    (lt : A -> A -> bool) (data : list A) : list A :=
  if (length data <=? 12)%nat then insertionSort lt data
  else pdqsort_func lt data.

(** The list [sorted] is [data] rearranged, and [lt] holds from each of
    its elements to every later one. *)
Definition sorts {A} (lt : A -> A -> bool) (data sorted : list A) : Prop :=
  sorted ≡ₚ data /\ StronglySorted (fun a b => lt a b = true) sorted.

(** The inner loop [for j >= 0] of [ClearSubstrPairs] for the anchor [v]:
    [n] is [j + 1], the number of preceding anchors not yet looked at.
    The result is the marker of [v]. *)
Fixpoint check_previous (subs : list SubstrPair) (k : Z) (v : SubstrPair)
    (n : nat) : bool :=
  match n with
  | O => false
  | S j =>
      match subs !! j with
      | None => false
      | Some p =>
          let vQEnd := qend32 v in
          let upbound := i32 (vQEnd - i32 k) in
          let vTEnd := tend32 v in
          if QBegin p <? upbound then false
          else if (vQEnd <=? qend32 p) && (TBegin p <=? TBegin v)
                  && (vTEnd <=? tend32 p)
          then true
          else check_previous subs k v j
      end
  end.

(** [markers] after the marking loop: entry [0] stays [false], entry
    [i+1] is set when the scan back from [i] finds an anchor that holds
    [subs[i+1]]. *)
Definition mark_embedded (subs : list SubstrPair) (k : Z) : list bool :=
  imap (fun i v => check_previous subs k v i) subs.

(** The compaction loop [for i, embedded := range *markers], with its
    writes [subs[j] = subs[i]]; it returns the slice and [j]. *)
Fixpoint compact (markers : list bool) (i j : nat) (subs : list SubstrPair)
    : list SubstrPair * nat :=
  match markers with
  | [] => (subs, j)
  | embedded :: markers' =>
      if embedded then compact markers' (S i) j subs
      else
        match subs !! i with
        | Some v => compact markers' (S i) (S j) (<[j := v]> subs)
        | None => (subs, j)
        end
  end.

(** [ClearSubstrPairs], with the sorting function as a parameter. *)
Definition ClearSubstrPairs_by
    (sort : (SubstrPair -> SubstrPair -> bool) -> list SubstrPair -> list SubstrPair)
    (subs : list SubstrPair) (k : Z) : list SubstrPair :=
  if (length subs <? 2)%nat then subs
  else
    let sorted := sort less subs in
    let markers := mark_embedded sorted k in
    let '(subs', j) := compact markers 0 0 sorted in
    if (0 <? j)%nat then take j subs' else subs'.

(** [ClearSubstrPairs], with [sort.Slice]. *)
Definition ClearSubstrPairs
    (pdqsort_func : (SubstrPair -> SubstrPair -> bool) -> list SubstrPair
                    -> list SubstrPair)
    (subs : list SubstrPair) (k : Z) : list SubstrPair :=
  ClearSubstrPairs_by (sort_Slice pdqsort_func) subs k.

(** The anchors that the compaction keeps, in their order. *)
Fixpoint keep_unmarked (markers : list bool) (subs : list SubstrPair)
    : list SubstrPair :=
  match markers, subs with
  | embedded :: markers', v :: subs' =>
      if embedded then keep_unmarked markers' subs'
      else v :: keep_unmarked markers' subs'
  | _, _ => []
  end.

(** The ends of the query and the target interval of an anchor, as
    integers, and the relations of the specification: an anchor nested in
    another one, and the order by query begin, then by query end
    downwards. *)
Definition qend (a : SubstrPair) : Z := QBegin a + Len a.
Definition tend (a : SubstrPair) : Z := TBegin a + Len a.

Definition nested (a b : SubstrPair) : Prop :=
  QBegin b <= QBegin a /\ qend a <= qend b /\
  TBegin b <= TBegin a /\ tend a <= tend b.

Definition by_query (a b : SubstrPair) : Prop :=
  QBegin a < QBegin b \/ (QBegin a = QBegin b /\ qend b <= qend a).

(** The order that [less] decides when nothing wraps around. *)
Definition less_exact (a b : SubstrPair) : Prop :=
  QBegin a < QBegin b \/
  (QBegin a = QBegin b /\
   (qend b < qend a \/ (qend a = qend b /\ TBegin a <= TBegin b))).

(** No [int32] computation of [ClearSubstrPairs] on the anchor wraps
    around: the two begins, the two ends and [vQEnd - k] are [int32]
    values. *)
Definition no_overflow (k : Z) (a : SubstrPair) : Prop :=
  - 2 ^ 31 <= QBegin a /\ qend a < 2 ^ 31 /\ - 2 ^ 31 <= qend a - k < 2 ^ 31 /\
  - 2 ^ 31 <= TBegin a /\ tend a < 2 ^ 31 /\ 0 <= Len a.

(** Neither of two anchors lies within the other. *)
Definition no_nesting (a b : SubstrPair) : Prop := ~ nested a b /\ ~ nested b a.

(** Fourteen anchors of one target with [Len <= 31]: some lie within
    others, two are given twice, and they are more than the 12 that
    [sort.Slice] sorts by insertion. *)
Definition sample_anchors : list SubstrPair :=
  [mkSubstrPair 30 130 20 0 false false;
   mkSubstrPair 10 110 31 0 false false;
   mkSubstrPair 12 112 25 1 false false;
   mkSubstrPair 30 130 20 0 false false;
   mkSubstrPair 50 150 31 0 false false;
   mkSubstrPair 52 152 20 2 false false;
   mkSubstrPair 90 190 31 0 false false;
   mkSubstrPair 95 195 20 0 false false;
   mkSubstrPair 130 230 31 0 false false;
   mkSubstrPair 130 230 31 3 false false;
   mkSubstrPair 170 270 31 0 false false;
   mkSubstrPair 175 275 26 0 false false;
   mkSubstrPair 210 310 31 0 false false;
   mkSubstrPair 10 110 31 4 false false].

(** *** The single-seed prefilter of [Index.Search] (step 3.1) *)

(** The options of [IndexSearchingOptions] that step 3.1 reads. *)
Record IndexSearchingOptions : Type := mkOptions {
  MinPrefix : Z;        (* uint8 *)
  MaxMismatch : Z;      (* int *)
  MinSinglePrefix : Z   (* uint8 *)
}.

(** A target: the key [batch<<17|ref] of the map, its anchors and its
    score. *)
Record Target : Type := mkTarget {
  RefBatchAndIdx : Z;
  Subs : list SubstrPair;
  Score : Z
}.

(** [checkMismatch := maxMismatch >= 0 && maxMismatch < K-int(idx.opt.MinPrefix)]. *)
Definition checkMismatch (opt : IndexSearchingOptions) (K : Z) : bool :=
  (0 <=? MaxMismatch opt) && (MaxMismatch opt <? i64 (K - MinPrefix opt)).

(** The test on a target with a single anchor; [false] is the [continue]
    that drops the target. *)
Definition keep_single (opt : IndexSearchingOptions) (K : Z) (sub : SubstrPair)
    : bool :=
  if checkMismatch opt K then
    if MaxMismatch opt <? Mismatch sub then false else true
  else if Len sub <? MinSinglePrefix opt then false
  else true.

(** [r.Score += float64(sub.Len * sub.Len)]: the product is taken in
    [uint8]; the sums are small integers, which [float64] holds exactly. *)
Definition add_scores (score : Z) (subs : list SubstrPair) : Z :=
  fold_left (fun acc sub => acc + u8 (Len sub * Len sub)) subs score.

(** The body of the loop [for _, r := range *m]: [None] when the target
    is dropped. *)
Definition preprocess_target
    (pdqsort_func : (SubstrPair -> SubstrPair -> bool) -> list SubstrPair
                    -> list SubstrPair)
    (opt : IndexSearchingOptions) (K : Z) (r : Target) : option Target :=
  let subs := ClearSubstrPairs pdqsort_func (Subs r) K in
  let keep :=
    match subs with
    | [sub] => keep_single opt K sub
    | _ => true
    end in
  if keep
  then Some (mkTarget (RefBatchAndIdx r) subs (add_scores (Score r) subs))
  else None.

(** Step 3.1 over the targets of the map, in the order the map yields
    them. *)
Definition preprocess
    (pdqsort_func : (SubstrPair -> SubstrPair -> bool) -> list SubstrPair
                    -> list SubstrPair)
    (opt : IndexSearchingOptions) (K : Z) (m : list Target) : list Target :=
  fold_left (fun rs r =>
               match preprocess_target pdqsort_func opt K r with
               | Some r' => rs ++ [r']
               | None => rs
               end) m [].

End Index.

(** ** [Chainer2] *)

Module Chain2.
Import Int.

(** [Chaining2Options] and [DefaultChaining2Options]. *)
Record Chaining2Options : Type := mkChaining2Options {
  MaxGap : Z;
  MinScore : Z;
  MaxDistance : Z;
  Band : Z
}.

Definition DefaultChaining2Options : Chaining2Options :=
  mkChaining2Options 32 20 50 20.

(** [Chain2Result]. *)
Record Chain2Result : Type := mkChain2Result {
  Chain : list Z;
  MatchedBases : Z;
  AlignedBases : Z;
  QBegin : Z;
  QEnd : Z;
  TBegin : Z;
  TEnd : Z
}.

(** A [Chain2Result] as the pool makes it; [Reset] empties [Chain] and
    leaves the other fields as they are. *)
Definition new_path : Chain2Result := mkChain2Result [] 0 0 0 0 0 0.

(** The early exit of [Chain]: "check the highest score, for early quit,
    but what's the number?". *)
Definition early_exit_score : Z := 100.

(** [distance2] and [gap2]; the fields of an anchor are read as [int]. *)
Definition distance2 (a b : Index.SubstrPair) : Z :=
  let q := sub (Index.QBegin a) (Index.QBegin b) in
  let t := sub (Index.TBegin a) (Index.TBegin b) in
  if t <? q then q else t.

Definition gap2 (a b : Index.SubstrPair) : Z :=
  let g := sub (sub (Index.QBegin a) (Index.QBegin b))
               (sub (Index.TBegin a) (Index.TBegin b)) in
  if g <? 0 then sub 0 g else g.

(** The loop [for _b = 1; _b <= band; _b++] for the anchor [a] at [i]:
    [nb] rounds are left; the result is [(m, mj)]. *)
Fixpoint band_loop (nb : nat) (_b : Z) (opts : Chaining2Options)
    (subs : list Index.SubstrPair) (maxscores : list Z)
    (a : Index.SubstrPair) (i m mj : Z) : option (Z * Z) :=
  match nb with
  | O => Some (m, mj)
  | S nb' =>
      let j := i - _b in
      if j <? 0 then Some (m, mj)
      else
        match index_at subs j, index_at maxscores j with
        | Some b, Some score_j =>
            if Index.TBegin a <? Index.TBegin b
            then band_loop nb' (_b + 1) opts subs maxscores a i m mj
            else
              let d := distance2 a b in
              if MaxDistance opts <? d
              then band_loop nb' (_b + 1) opts subs maxscores a i m mj
              else
                let g := gap2 a b in
                if MaxGap opts <? g
                then band_loop nb' (_b + 1) opts subs maxscores a i m mj
                else
                  let s := sub (add score_j (Index.Len b)) g in
                  if m <=? s
                  then band_loop nb' (_b + 1) opts subs maxscores a i s j
                  else band_loop nb' (_b + 1) opts subs maxscores a i m mj
        | _, _ => None
        end
  end.

(** The scores of the dynamic program: [maxscores], [maxscoresIdxs], [M]
    and [Mi]. *)
Record Scores : Type := mkScores {
  maxscores : list Z;
  maxscoresIdxs : list Z;
  M : Z;
  Mi : Z
}.

(** The loop [for i = 1; i < n; i++]; [rest] holds [subs[i:]]. *)
Fixpoint score_loop (rest : list Index.SubstrPair) (i : Z)
    (opts : Chaining2Options) (subs : list Index.SubstrPair) (sc : Scores)
    : option Scores :=
  match rest with
  | [] => Some sc
  | a :: rest' =>
      match band_loop (Z.to_nat (Band opts)) 1 opts subs (maxscores sc) a i
                      (Index.Len a) i with
      | None => None
      | Some (m, mj) =>
          let best := if M sc <? m then (m, i) else (M sc, Mi sc) in
          score_loop rest' (i + 1) opts subs
                     (mkScores (maxscores sc ++ [m]) (maxscoresIdxs sc ++ [mj])
                               (fst best) (snd best))
      end
  end.

(** "initialize" and "compute scores"; [None] is the panic of [subs[0]]
    on an empty list. *)
Definition compute_scores (opts : Chaining2Options)
    (subs : list Index.SubstrPair) : option Scores :=
  match subs with
  | [] => None
  | s0 :: rest => score_loop rest 1 opts subs (mkScores [Index.Len s0] [0] 0 0)
  end.

(** What [chainARegion] changes through its pointer arguments: [paths],
    [_nMatchedBases], [_nAlignedBases] and [bounds]. *)
Record Found : Type := mkFound {
  paths : list Chain2Result;
  nMatchedBases : Z;
  nAlignedBases : Z;
  bounds : list Z
}.

(** "check if an anchor overlaps with previous chains". *)
Fixpoint overlaps (bs : list Z) (s : Index.SubstrPair) : bool :=
  match bs with
  | b0 :: b1 :: b2 :: b3 :: bs' =>
      let q_end := sub (add (Index.QBegin s) (Index.Len s)) 1 in
      let t_end := sub (add (Index.TBegin s) (Index.Len s)) 1 in
      if negb (((b1 <? Index.QBegin s) && (b3 <? Index.TBegin s))
               || ((q_end <? b0) && (t_end <? b2)))
      then true
      else overlaps bs' s
  | _ => false
  end.

(** The variables of the backtracking loop of [chainARegion]. *)
Record Walk : Type := mkWalk {
  w_i : Z;
  w_j : Z;
  w_chain : list Z;
  w_first : bool;          (* firstAnchorOfAChain *)
  w_qb : Z;
  w_qe : Z;
  w_tb : Z;
  w_te : Z;
  w_matched : Z;           (* nMatchedBases of the chain *)
  w_aligned : Z;           (* nAlignedBases of the chain *)
  w_next : Z               (* beginOfNextAnchor *)
}.

(** [paths] and the two totals after a chain is recorded. *)
Definition record_path (w : Walk) (aligned : Z) (fd : Found) : Found :=
  mkFound (paths fd ++ [mkChain2Result (reverse (w_chain w)) (w_matched w) aligned
                                       (w_qb w) (w_qe w) (w_tb w) (w_te w)])
          (add (nMatchedBases fd) (w_matched w))
          (add (nAlignedBases fd) aligned)
          (bounds fd).

(** The backtracking loop; it follows [maxscoresIdxs] downwards, so
    [fuel] rounds are enough when [fuel] exceeds the index it starts from. *)
Fixpoint backtrack (fuel : nat) (subs : list Index.SubstrPair)
    (idxs : list Z) (offset : Z) (w : Walk) (fd : Found)
    : option (Walk * Found) :=
  match fuel with
  | O => None
  | S fuel' =>
      match index_at idxs (w_i w) with
      | None => None
      | Some prev =>
          let j := sub prev offset in
          if j <? 0 then
            Some (mkWalk (w_i w) j (w_chain w) (w_first w) (w_qb w) (w_qe w)
                         (w_tb w) (w_te w) (w_matched w) (w_aligned w) (w_next w),
                  fd)
          else
            match index_at subs (w_i w) with
            | None => None
            | Some s =>
                let i := w_i w in
                let w1 :=
                  if overlaps (bounds fd) s then
                    mkWalk i j (w_chain w) (w_first w) (w_qb w) (w_qe w)
                           (w_tb w) (w_te w) (w_matched w) (w_aligned w) (w_next w)
                  else if w_first w then
                    mkWalk i j (w_chain w ++ [add i offset]) false
                           (Index.QBegin s)
                           (sub (add (Index.QBegin s) (Index.Len s)) 1)
                           (Index.TBegin s)
                           (sub (add (Index.TBegin s) (Index.Len s)) 1)
                           (add (w_matched w) (Index.Len s)) (w_aligned w)
                           (Index.QBegin s)
                  else
                    mkWalk i j (w_chain w ++ [add i offset]) false
                           (Index.QBegin s) (w_qe w) (Index.TBegin s) (w_te w)
                           (if w_next w <=? sub (add (Index.QBegin s) (Index.Len s)) 1
                            then add (w_matched w) (sub (w_next w) (Index.QBegin s))
                            else add (w_matched w) (Index.Len s))
                           (w_aligned w) (Index.QBegin s) in
                if i =? j then
                  if w_first w1 then Some (w1, fd)
                  else
                    let aligned := add (w_aligned w1) (add (sub (w_qe w1) (w_qb w1)) 1) in
                    Some (mkWalk i j (w_chain w1) true (w_qb w1) (w_qe w1)
                                 (w_tb w1) (w_te w1) (w_matched w1) aligned
                                 (w_next w1),
                          record_path w1 aligned fd)
                else
                  backtrack fuel' subs idxs offset
                            (mkWalk j j (w_chain w1) (w_first w1) (w_qb w1)
                                    (w_qe w1) (w_tb w1) (w_te w1) (w_matched w1)
                                    (w_aligned w1) (w_next w1)) fd
            end
      end
  end.

(** "find the next highest score": [(M, Mi)] over a region of
    [maxscores]. *)
Fixpoint highest (scores : list Z) (i best besti : Z) : Z * Z :=
  match scores with
  | [] => (best, besti)
  | m :: scores' =>
      if best <? m then highest scores' (i + 1) m i
      else highest scores' (i + 1) best besti
  end.

(** The bounds of a region joined with those of a sub-region of positive
    score. *)
Definition widen (box : Z * Z * Z * Z) (r : Z * (Z * Z * Z * Z))
    : Z * Z * Z * Z :=
  let '(qB, qE, tB, tE) := box in
  let '(_score, (_qB, _qE, _tB, _tE)) := r in
  if 0 <? _score then
    (if _qB <? qB then _qB else qB, if qE <? _qE then _qE else qE,
     if _tB <? tB then _tB else tB, if tE <? _tE then _tE else tE)
  else box.

(** [chainARegion] on a region of [subs], [maxscores] and [maxscoresIdxs];
    it returns the score and the bounds, with what it found.  Every call
    of itself is on a shorter region, so [fuel] rounds are enough when
    [fuel] exceeds the length of the region. *)
Fixpoint chainARegion (fuel : nat) (subs : list Index.SubstrPair)
    (scores idxs : list Z) (offset minScore Mi0 : Z) (fd : Found)
    : option ((Z * (Z * Z * Z * Z)) * Found) :=
  match fuel with
  | O => None
  | S fuel' =>
      let '(M, Mi) := if Mi0 <? 0 then highest scores 0 0 0 else (0, Mi0) in
      if (Mi0 <? 0) && (M <? minScore) then Some ((0, (-1, -1, -1, -1)), fd)
      else
        match backtrack (S (Z.to_nat Mi)) subs idxs offset
                        (mkWalk Mi 0 [] true 0 0 0 0 0 0 0) fd with
        | None => None
        | Some (w, fd) =>
            let fd :=
              if w_j w <? 0 then
                match w_chain w with
                | [] => fd
                | _ :: _ =>
                    record_path w (add (w_aligned w)
                                       (add (sub (w_qe w) (w_qb w)) 1)) fd
                end
              else fd in
            let fd := mkFound (paths fd) (nMatchedBases fd) (nAlignedBases fd)
                              (bounds fd ++ [w_qb w; w_qe w; w_tb w; w_te w]) in
            let box := (w_qb w, w_qe w, w_tb w, w_te w) in
            let right :=
              if negb (Mi =? Z.of_nat (length scores) - 1) then
                match chainARegion fuel' (drop (Z.to_nat (Mi + 1)) subs)
                                   (drop (Z.to_nat (Mi + 1)) scores)
                                   (drop (Z.to_nat (Mi + 1)) idxs)
                                   (add (add offset Mi) 1) minScore (-1) fd with
                | None => None
                | Some (r, fd) => Some (widen box r, fd)
                end
              else Some (box, fd) in
            match right with
            | None => None
            | Some (box, fd) =>
                if 0 <? w_i w then
                  match chainARegion fuel' (take (Z.to_nat (w_i w)) subs)
                                     (take (Z.to_nat (w_i w)) scores)
                                     (take (Z.to_nat (w_i w)) idxs)
                                     offset minScore (-1) fd with
                  | None => None
                  | Some (r, fd) => Some ((M, widen box r), fd)
                  end
                else Some ((M, box), fd)
            end
        end
  end.

(** [Chainer2.Chain]: the chains, the matched and the aligned bases, and
    the bounds [qB, qE, tB, tE]; [None] is a run-time panic. *)
Definition Chain2Output : Type := list Chain2Result * Z * Z * (Z * Z * Z * Z).

Definition Chainer2_Chain (opts : Chaining2Options)
    (subs : list Index.SubstrPair) : option Chain2Output :=
  match subs with
  | [s] =>
      if MinScore opts <=? Index.Len s
      then Some ([mkChain2Result [0] (MatchedBases new_path) (AlignedBases new_path)
                                 (QBegin new_path) (QEnd new_path)
                                 (TBegin new_path) (TEnd new_path)],
                 Index.Len s, Index.Len s, (0, 0, 0, 0))
      else Some ([], 0, 0, (0, 0, 0, 0))
  | _ =>
      match compute_scores opts subs with
      | None => None
      | Some sc =>
          if M sc <? early_exit_score then Some ([], 0, 0, (0, 0, 0, 0))
          else
            match chainARegion (S (length subs)) subs (maxscores sc)
                               (maxscoresIdxs sc) 0 (MinScore opts) (Mi sc)
                               (mkFound [] 0 0 []) with
            | None => None
            | Some ((_, box), fd) =>
                Some (paths fd, nMatchedBases fd, nAlignedBases fd, box)
            end
      end
  end.

(** The maximum [M] is [0], its initial value, or one of the scores. *)
Definition scores_inv (sc : Scores) : Prop :=
  M sc = 0 \/ M sc ∈ maxscores sc.

(** *** What the dynamic program computes *)

(** The anchor [b] can precede the anchor [a] in a chain: it passes the
    three filters of the loop over the band. *)
Definition admissible (opts : Chaining2Options) (a b : Index.SubstrPair) : Prop :=
  Index.TBegin b <= Index.TBegin a /\
  distance2 a b <= MaxDistance opts /\
  gap2 a b <= MaxGap opts.

(** [s = maxscores[j] + b.Len - g]. *)
Definition link_score (score_b : Z) (a b : Index.SubstrPair) : Z :=
  sub (add score_b (Index.Len b)) (gap2 a b).

(** The score [s] and the back pointer [p] kept for the anchor at [i]:
    [s] is the largest of the length of the anchor and of the scores of
    its links to the admissible anchors among the [Band] anchors before
    it, and [p] is where [s] comes from, [i] itself when it is the length
    of the anchor. *)
Definition score_ok (opts : Chaining2Options) (subs : list Index.SubstrPair)
    (scores idxs : list Z) (i : Z) : Prop :=
  exists a s p,
    index_at subs i = Some a /\ index_at scores i = Some s /\
    index_at idxs i = Some p /\
    Index.Len a <= s /\
    (forall j b sj,
       0 <= j -> i - Band opts <= j < i ->
       index_at subs j = Some b -> index_at scores j = Some sj ->
       admissible opts a b -> link_score sj a b <= s) /\
    ((p = i /\ s = Index.Len a) \/
     (exists b sj,
        0 <= p /\ i - Band opts <= p < i /\
        index_at subs p = Some b /\ index_at scores p = Some sj /\
        admissible opts a b /\ s = link_score sj a b)).

(** What is known of [M] and [Mi] while the loop runs and after it: [M]
    bounds the scores of the anchors after the first one, and it is [0],
    its initial value, or the score of the anchor at [Mi], which is not
    the first one. *)
Definition best_ok (sc : Scores) : Prop :=
  (forall i s, 1 <= i -> index_at (maxscores sc) i = Some s -> s <= M sc) /\
  ((M sc = 0 /\ Mi sc = 0) \/
   (1 <= Mi sc /\ index_at (maxscores sc) (Mi sc) = Some (M sc) /\ 0 < M sc)).

(** *** What the backtracking returns *)

(** A chain of anchors with indexes from [lo] up to, not including,
    [hi]: it is not empty, and its indexes go strictly upwards. *)
Definition chain_ok (lo hi : Z) (c : Chain2Result) : Prop :=
  Chain c <> [] /\ StronglySorted Z.lt (Chain c) /\
  Forall (fun x => lo <= x < hi) (Chain c).

(** No anchor is in both chains. *)
Definition chains_apart (c1 c2 : Chain2Result) : Prop :=
  forall x, x ∈ Chain c1 -> x ∉ Chain c2.

(** A region of [subs], [maxscores] and [maxscoresIdxs] that begins at
    [offset]: the three have one length, and every back pointer points
    at the anchor itself or at one before it. *)
Definition region_ok (offset : Z) (subs : list Index.SubstrPair)
    (scores idxs : list Z) : Prop :=
  length scores = length subs /\ length idxs = length subs /\
  0 <= offset /\ offset + Z.of_nat (length subs) < 2 ^ 63 /\
  forall i p, index_at idxs i = Some p -> 0 <= p <= offset + i.

(** The chain of a walk that began at [top] and has come to [w_i]: the
    indexes recorded go strictly downwards and lie after [w_i]. *)
Definition walk_ok (offset top : Z) (w : Walk) : Prop :=
  StronglySorted (fun x y => y < x) (w_chain w) /\
  Forall (fun x => offset + w_i w < x <= offset + top) (w_chain w) /\
  (w_first w = true <-> w_chain w = []).

(** What [chainARegion] does with the walk after the loop: "the first
    anchor is not in current region". *)
Definition close_walk (w : Walk) (fd : Found) : Found :=
  if w_j w <? 0 then
    match w_chain w with
    | [] => fd
    | _ :: _ => record_path w (add (w_aligned w) (add (sub (w_qe w) (w_qb w)) 1)) fd
    end
  else fd.

(** The chain that a walk over the anchors from [lo] to [top] of a
    region records, when it records one. *)
Definition recorded (offset lo top : Z) (new : list Chain2Result) : Prop :=
  (length new <= 1)%nat /\
  Forall (fun c => Chain c <> [] /\ StronglySorted Z.lt (Chain c) /\
                   Forall (fun x => offset + lo <= x <= offset + top) (Chain c)) new.

End Chain2.

(** ** Building an index: [BuildIndex] and [buildAnIndex] *)

Module Build.
Import Int.

(** *** The batches of [BuildIndex] *)

(** [nBatches := (nFiles + opt.GenomeBatchSize - 1) / opt.GenomeBatchSize]. *)
Definition nBatches (nFiles size : Z) : option Z :=
  div (sub (add nFiles size) 1) size.

(** "files for this batch": [infiles[begin:end]]. *)
Definition batch_files {A} (infiles : list A) (size batch : Z) : option (list A) :=
  let nFiles := Z.of_nat (length infiles) in
  let begin := mul batch size in
  let end_ := add begin size in
  let end_ := if nFiles <? end_ then nFiles else end_ in
  slice infiles begin end_.

(** The loop [for batch := 0; batch < nBatches; batch++], with [n] rounds
    left: the files handed to [buildAnIndex], batch by batch. *)
Fixpoint batch_loop {A} (n : nat) (infiles : list A) (size batch : Z)
    : option (list (list A)) :=
  match n with
  | O => Some []
  | S n' =>
      match batch_files infiles size batch with
      | None => None
      | Some files =>
          match batch_loop n' infiles size (batch + 1) with
          | None => None
          | Some rest => Some (files :: rest)
          end
      end
  end.

Definition BuildIndex_batches {A} (infiles : list A) (size : Z)
    : option (list (list A)) :=
  match nBatches (Z.of_nat (length infiles)) size with
  | None => None
  | Some n => batch_loop (Z.to_nat n) infiles size 0
  end.

(** *** The chunks of masks of [buildAnIndex] *)

(** [chunkSize := (nMasks + threads - 1) / threads], and the bounds
    [begin] and [end] of the chunk [j]. *)
Definition chunkSize (nMasks chunks : Z) : option Z :=
  div (sub (add nMasks chunks) 1) chunks.

Definition chunk_bounds (nMasks size j : Z) : Z * Z :=
  let begin := mul j size in
  let end_ := add begin size in
  (begin, if nMasks <? end_ then nMasks else end_).

(** The masks that the goroutine of a chunk visits:
    [for i := begin; i < end; i++]. *)
Definition chunk_masks (bounds : Z * Z) : list Z :=
  seqZ (fst bounds) (snd bounds - fst bounds).

(** "save k-mer data into all masks by chunks": the masks visited by the
    goroutines of the chunks [0] to [threads - 1], chunk by chunk. *)
Definition collect_chunks (nMasks threads : Z) : option (list (list Z)) :=
  match chunkSize nMasks threads with
  | None => None
  | Some size =>
      Some ((fun j => chunk_masks (chunk_bounds nMasks size j)) <$> seqZ 0 threads)
  end.

(** "write k-mer data to files": the slices [begin:end] of [datas] handed
    to [kv.WriteKVData] with [begin], chunk by chunk; [None] is a panic. *)
Fixpoint write_loop {A} (n : nat) (datas : list A) (size j : Z)
    : option (list (Z * list A)) :=
  match n with
  | O => Some []
  | S n' =>
      let '(begin, end_) := chunk_bounds (Z.of_nat (length datas)) size j in
      match slice datas begin end_ with
      | None => None
      | Some masks =>
          match write_loop n' datas size (j + 1) with
          | None => None
          | Some rest => Some ((begin, masks) :: rest)
          end
      end
  end.

Definition write_chunks {A} (datas : list A) (chunks : Z)
    : option (list (Z * list A)) :=
  match chunkSize (Z.of_nat (length datas)) chunks with
  | None => None
  | Some size => write_loop (Z.to_nat chunks) datas size 0
  end.

(** *** The sequences of a genome *)

(** The letter [N]. *)
Definition base_N : byte := "N"%byte.

(** What the loop over the records of a file keeps of a genome: [Seq],
    [Len], [SeqSizes] and [GenomeSize], and its counter [i]. *)
Record Genome : Type := mkGenome {
  Seq : list byte;
  Len : Z;
  SeqSizes : list Z;
  GenomeSize : Z
}.

(** One record with the name [name] and the sequence [seq]; [excluded]
    tells whether a pattern of [ReSeqExclude] matches the name. *)
Definition add_record (k : Z) (excluded : list byte -> bool)
    (st : Genome * Z) (record : list byte * list byte) : Genome * Z :=
  let '(refseq, i) := st in
  let '(name, seq) := record in
  if Z.of_nat (length seq) <? k then st
  else if excluded name then st
  else
    let nnn := replicate (Z.to_nat (k - 1)) base_N in
    let refseq :=
      if 0 <? i
      then mkGenome (Seq refseq ++ nnn) (add (Len refseq) (Z.of_nat (length nnn)))
                    (SeqSizes refseq) (GenomeSize refseq)
      else refseq in
    (mkGenome (Seq refseq ++ seq) (add (Len refseq) (Z.of_nat (length seq)))
              (SeqSizes refseq ++ [Z.of_nat (length seq)])
              (add (GenomeSize refseq) (Z.of_nat (length seq))),
     add i 1).

(** The loop over the records of a file, from the genome that
    [refseq.Reset()] leaves. *)
Definition read_genome (k : Z) (excluded : list byte -> bool)
    (records : list (list byte * list byte)) : Genome :=
  fst (fold_left (add_record k excluded) records (mkGenome [] 0 [] 0, 0)).

(** The sequences that the loop keeps, in the order of the file: those
    of [k] letters or more with a name that no pattern matches. *)
Definition kept (k : Z) (excluded : list byte -> bool)
    (record : list byte * list byte) : bool :=
  negb (Z.of_nat (length (snd record)) <? k) && negb (excluded (fst record)).

Definition kept_seqs (k : Z) (excluded : list byte -> bool)
    (records : list (list byte * list byte)) : list (list byte) :=
  snd <$> List.filter (kept k excluded) records.

(** The sequences [pieces] laid end to end with [nnn] between two of
    them. *)
Definition joined (nnn : list byte) (pieces : list (list byte)) : list byte :=
  match pieces with
  | [] => []
  | p :: ps => p ++ concat ((fun q => nnn ++ q) <$> ps)
  end.

(** "skip regions around junctions of two sequences": the loop over
    [refseq.SeqSizes], with [i] and [n]. *)
Fixpoint skip_loop (k : Z) (sizes : list Z) (i n : Z) : list (Z * Z) :=
  match sizes with
  | [] => []
  | s :: sizes' =>
      if 0 <? i
      then (n, sub (add n k) 1)
             :: skip_loop k sizes' (i + 1) (add (add n (sub k 1)) s)
      else skip_loop k sizes' (i + 1) (add n s)
  end.

Definition skipRegions (k : Z) (refseq : Genome) : list (Z * Z) :=
  if (1 <? Z.of_nat (length (SeqSizes refseq)))
  then skip_loop k (SeqSizes refseq) 0 0
  else [].

End Build.

(** ** Opening an index and searching it: [NewIndexSearcher] and the steps
    of [Index.Search] *)

Module Searching.
Import Int.

(** *** [NewIndexSearcher] *)

(** "create a lookup table for faster masking": the loop
    [for 1<<(lenPrefix<<1) <= len(idx.lh.Masks) { lenPrefix++ }], in
    [int]; [None] when it has not ended after [fuel] rounds. *)
Fixpoint lenPrefix_loop (fuel : nat) (lenPrefix nMasks : Z) : option Z :=
  match fuel with
  | O => None
  | S fuel' =>
      if shl 1 (shl lenPrefix 1) <=? nMasks
      then lenPrefix_loop fuel' (add lenPrefix 1) nMasks
      else Some lenPrefix
  end.

(** [lenPrefix := 1], the loop, and [lenPrefix--]. *)
Definition lenPrefix (fuel : nat) (nMasks : Z) : option Z :=
  match lenPrefix_loop fuel 1 nMasks with
  | Some p => Some (sub p 1)
  | None => None
  end.

(** "we can create genome reader pools": the number of readers opened
    for each batch of genomes, [0] when no pool is made; [None] is the
    panic of a division by zero. *)
Definition genome_readers (maxOpenFiles nSeeds batches numCPUs : Z) : option Z :=
  match div (sub maxOpenFiles nSeeds) batches with
  | None => None
  | Some n =>
      if n <? 2 then Some 0
      else
        let n := Z.shiftr n 1 in
        Some (if numCPUs <? n then numCPUs else n)
  end.

(** *** Step 2.2 of [Index.Search]: from a value to a genome and a place *)

(** [refBatchAndIdx = int(refpos >> 30)], [posT = int(refpos << 34 >> 35)]
    and [rcT = refpos&1 > 0], and the genome of a new target:
    [GenomeBatch = refBatchAndIdx >> 17],
    [GenomeIndex = refBatchAndIdx & 131071]. *)
Definition refBatchAndIdx (refpos : Z) : Z := i64 (shr64 refpos 30).

Definition decode_refpos (refpos : Z) : Z * Z * Z * bool :=
  (Z.shiftr (refBatchAndIdx refpos) 17,
   Z.land (refBatchAndIdx refpos) 131071,
   i64 (shr64 (shl64 refpos 34) 35),
   0 <? Z.land refpos 1).

(** What the collector reads of a [kv.SearchResult]. *)
Record Hit : Type := mkHit {
  IQuery : Z;          (* int *)
  LenPrefix : Z;       (* uint8 *)
  Mismatch : Z;        (* uint8 *)
  Values : list Z      (* []uint64 *)
}.

(** The anchor [_sub2] made of one value, and the key [refBatchAndIdx]
    of its genome; [kPrefix] is [int(sr.LenPrefix)]. *)
Definition new_anchor (K kPrefix mismatch beginQ : Z) (rcQ : bool) (refpos : Z)
    : Z * Index.SubstrPair :=
  let posT := i64 (shr64 (shl64 refpos 34) 35) in
  let rcT := 0 <? Z.land refpos 1 in
  let beginT := if rcT then sub (add posT K) kPrefix else posT in
  (refBatchAndIdx refpos,
   Index.mkSubstrPair (i32 beginQ) (i32 beginT) (u8 kPrefix) mismatch rcT rcQ).

(** The target of the key is looked up in the map, a new one with no
    anchor and the score [0] is put there when there is none, and the
    anchor is appended to its [Subs]. *)
Definition add_anchor (m : gmap Z Index.Target) (a : Z * Index.SubstrPair)
    : gmap Z Index.Target :=
  let r := match m !! fst a with
           | Some r => r
           | None => Index.mkTarget (fst a) [] 0
           end in
  <[fst a := Index.mkTarget (Index.RefBatchAndIdx r) (Index.Subs r ++ [snd a])
                            (Index.Score r)]> m.

(** The query location of [posQ]: the strand [rcQ] and [beginQ]. *)
Definition query_begin (K kPrefix posQ : Z) : Z * bool :=
  let rcQ := 0 <? Z.land posQ 1 in
  let posQ := Z.shiftr posQ 1 in
  (if rcQ then sub (add posQ K) kPrefix else posQ, rcQ).

(** The loop over [sr.Values], within the loop over [locs]. *)
Definition collect_locs (K : Z) (sr : Hit) (locs : list Z)
    (m : gmap Z Index.Target) : gmap Z Index.Target :=
  fold_left
    (fun m posQ =>
       let '(beginQ, rcQ) := query_begin K (LenPrefix sr) posQ in
       fold_left
         (fun m refpos =>
            add_anchor m (new_anchor K (LenPrefix sr) (Mismatch sr) beginQ rcQ refpos))
         (Values sr) m)
    locs m.

(** The loop over the results [srs] that one searcher has sent; [None]
    is the panic of [_locses[sr.IQuery]]. *)
Definition collect_hits (K : Z) (_locses : list (list Z)) (srs : list Hit)
    (m : gmap Z Index.Target) : option (gmap Z Index.Target) :=
  fold_left
    (fun m sr =>
       match m, index_at _locses (IQuery sr) with
       | Some m, Some locs => Some (collect_locs K sr locs m)
       | _, _ => None
       end)
    srs (Some m).

(** The collector: the loop [for srs := range ch] over what the
    searchers send, in the order of arrival, from an empty map. *)
Definition collect (K : Z) (_locses : list (list Z)) (ch : list (list Hit))
    : option (gmap Z Index.Target) :=
  fold_left
    (fun m srs =>
       match m with
       | Some m => collect_hits K _locses srs m
       | None => None
       end)
    ch (Some ∅).

(** The anchors of the results, in the order in which the collector
    makes them, each with the key of its genome. *)
Definition hit_anchors (K : Z) (_locses : list (list Z)) (sr : Hit)
    : list (Z * Index.SubstrPair) :=
  match index_at _locses (IQuery sr) with
  | None => []
  | Some locs =>
      concat ((fun posQ =>
                 let '(beginQ, rcQ) := query_begin K (LenPrefix sr) posQ in
                 new_anchor K (LenPrefix sr) (Mismatch sr) beginQ rcQ <$> Values sr)
              <$> locs)
  end.

Definition all_anchors (K : Z) (_locses : list (list Z)) (ch : list (list Hit))
    : list (Z * Index.SubstrPair) :=
  concat (hit_anchors K _locses <$> concat ch).

(** The anchors with the key [key]. *)
Definition anchors_of (key : Z) (anchors : list (Z * Index.SubstrPair))
    : list Index.SubstrPair :=
  snd <$> List.filter (fun a => fst a =? key) anchors.

(** The map holds the anchors grouped by genome: the target of a key
    has the anchors of that key, in their order, and a key with no
    anchor has no target. *)
Definition grouped (m : gmap Z Index.Target)
    (anchors : list (Z * Index.SubstrPair)) : Prop :=
  forall key,
    match m !! key with
    | Some r =>
        Index.RefBatchAndIdx r = key /\ Index.Score r = 0 /\
        Index.Subs r <> [] /\ Index.Subs r = anchors_of key anchors
    | None => anchors_of key anchors = []
    end.

(** *** Step 3.2 of [Index.Search]: the best targets *)

(** The order of [sort.Slice] on the targets: the target [i] comes
    before the target [j] when [rs[i].Score > rs[j].Score]. *)
Definition by_score (a b : Index.Target) : bool :=
  Index.Score b <? Index.Score a.

(** "only keep the top N targets", after the sort; the sorting function
    is a parameter. *)
Definition keep_top
    (sort : (Index.Target -> Index.Target -> bool) -> list Index.Target
            -> list Index.Target)
    (topN : Z) (rs : list Index.Target) : list Index.Target :=
  let rs := sort by_score rs in
  if (0 <? topN) && (topN <? Z.of_nat (length rs))
  then take (Z.to_nat topN) rs
  else rs.

(** *** Step 3.3 of [Index.Search]: the sequence of a fragment *)

(** "get the index of target seq according to the position": the loop
    [for j, l = range tSeq.SeqSizes]; it returns [iSeq],
    [tPosOffsetBegin] and [tPosOffsetEnd]. *)
Fixpoint locate_loop (sizes : list Z) (j contigInterval _begin _end
    tPosOffsetBegin tPosOffsetEnd : Z) : Z * Z * Z :=
  match sizes with
  | [] => (-1, tPosOffsetBegin, tPosOffsetEnd)
  | l :: sizes' =>
      let tPosOffsetEnd := add tPosOffsetEnd (sub l 1) in
      if (tPosOffsetBegin <=? _begin) && (_end <=? tPosOffsetEnd)
      then (j, tPosOffsetBegin, tPosOffsetEnd)
      else
        let tPosOffsetEnd := add tPosOffsetEnd (add contigInterval 1) in
        locate_loop sizes' (j + 1) contigInterval _begin _end
                    tPosOffsetEnd tPosOffsetEnd
  end.

(** [iSeq = 0], both offsets [0], and the loop "just for genomes with
    multiple contigs". *)
Definition locate_contig (numSeqs : Z) (sizes : list Z)
    (contigInterval _begin _end : Z) : Z * Z * Z :=
  if 1 <? numSeqs
  then locate_loop sizes 0 contigInterval _begin _end 0 0
  else (0, 0, 0).

(** Where the sequence [j] begins in the genome: after the sequences
    before it, each followed by [contigInterval] letters. *)
Definition contig_begin (sizes : list Z) (contigInterval : Z) (j : nat) : Z :=
  foldr Z.add 0 ((fun l => l + contigInterval) <$> take j sizes).

(** The fragment from [_begin] to [_end] lies within the sequence [j],
    which is [l] long. *)
Definition within_contig (sizes : list Z) (contigInterval _begin _end : Z)
    (j : nat) (l : Z) : Prop :=
  contig_begin sizes contigInterval j <= _begin /\
  _end <= contig_begin sizes contigInterval j + l - 1.

End Searching.

(** * Proofs *)

(** ** Integers and bytes *)

Section Bytes.
Import Int.

Lemma lor_shiftl_add a b n :
  0 <= n -> 0 <= b < 2 ^ n -> Z.lor (Z.shiftl a n) b = a * 2 ^ n + b.
Proof.
  intros Hn Hb. rewrite Z.shiftl_mul_pow2 by lia.
  symmetry. apply Z.add_nocarry_lor.
  apply Z.bits_inj'; intros i Hi. rewrite Z.land_spec, Z.bits_0.
  destruct (Z.lt_ge_cases i n) as [Hlt | Hge].
  - rewrite Z.mul_pow2_bits_low by lia. reflexivity.
  - assert (Z.testbit b i = false) as ->.
    { destruct (Z.eq_dec b 0) as [-> | Hb0]; [apply Z.bits_0 |].
      apply Z.bits_above_log2; [lia |].
      apply Z.log2_lt_pow2; [lia |].
      apply Z.lt_le_trans with (2 ^ n); [lia |].
      apply Z.pow_le_mono_r; lia. }
    apply andb_false_r.
Qed.

Lemma land_1 x : Z.land x 1 = x mod 2.
Proof. change 1 with (Z.ones 1) at 1. apply Z.land_ones. lia. Qed.

Lemma byte_to_Z_range b : 0 <= byte_to_Z b < 256.
Proof.
  unfold byte_to_Z. pose proof (Byte.to_N_bounded b) as H. lia.
Qed.

Lemma byte_to_Z_of_Z z : 0 <= z < 256 -> byte_to_Z (byte_of_Z z) = z.
Proof.
  intros Hz. unfold byte_to_Z, byte_of_Z.
  rewrite Z.mod_small by lia.
  destruct (Byte.of_N (Z.to_N z)) as [b |] eqn:E.
  - apply Byte.to_of_N in E. rewrite E. lia.
  - apply Byte.of_N_None_iff in E. lia.
Qed.

End Bytes.

(** ** The pair codec *)

Section VarintRoundTrip.
Import Int Varint.

Lemma le_value_le_bytes n x :
  0 <= x -> le_value (le_bytes n x) = x mod 2 ^ (8 * Z.of_nat n).
Proof.
  revert x. induction n as [| n IH]; intros x Hx.
  - simpl. rewrite Z.mod_1_r. reflexivity.
  - cbn [le_bytes le_value].
    change 255 with (Z.ones 8). rewrite Z.land_ones by lia.
    rewrite byte_to_Z_of_Z by (apply Z.mod_pos_bound; lia).
    rewrite IH by (apply Z.shiftr_nonneg; lia).
    rewrite Z.shiftr_div_pow2 by lia.
    rewrite Z.lor_comm, lor_shiftl_add
      by (try apply Z.mod_pos_bound; lia).
    replace (8 * Z.of_nat (S n)) with (8 + 8 * Z.of_nat n) by lia.
    rewrite Z.pow_add_r by lia.
    rewrite Z.rem_mul_r by lia. lia.
Qed.

Lemma byteLength_range x : 1 <= byteLength x <= 8.
Proof. unfold byteLength. repeat (destruct (_ <? _)); lia. Qed.

Lemma byteLength_bound x :
  0 <= x < 2 ^ 64 -> x < 2 ^ (8 * byteLength x).
Proof.
  intros Hx. unfold byteLength.
  repeat match goal with
         | |- context [x <? ?c] =>
             destruct (Z.ltb_spec0 x c) as [H | _]; [exact H |]
         end.
  change (8 * 8) with 64. lia.
Qed.

Lemma length_le_bytes n x : length (le_bytes n x) = n.
Proof. revert x. induction n; intros; simpl; auto. Qed.

Lemma CtrlByte2ByteLengths_lookup lx ly :
  1 <= lx <= 8 -> 1 <= ly <= 8 ->
  CtrlByte2ByteLengths !! Z.to_nat (Z.lor (Z.shiftl (lx - 1) 3) (ly - 1))
  = Some (lx, ly).
Proof.
  intros Hx Hy.
  assert (lx = 1 \/ lx = 2 \/ lx = 3 \/ lx = 4 \/ lx = 5 \/ lx = 6 \/ lx = 7 \/ lx = 8)
    as Hlx by lia.
  assert (ly = 1 \/ ly = 2 \/ ly = 3 \/ ly = 4 \/ ly = 5 \/ ly = 6 \/ ly = 7 \/ ly = 8)
    as Hly by lia.
  repeat (destruct Hlx as [-> | Hlx]); try subst lx;
    repeat (destruct Hly as [-> | Hly]); try subst ly; reflexivity.
Qed.

(** C2. Decoding the control byte and the data bytes that [PutUint64s]
    produces for [(x, y)] gives back [(x, y)], with a non-zero number of
    decoded bytes, for all [x, y < 2^64]. *)
Theorem Uint64s_PutUint64s x y :
  0 <= x < 2 ^ 64 -> 0 <= y < 2 ^ 64 ->
  let '(ctrl, buf) := PutUint64s x y in
  Uint64s ctrl buf = Some ((x, y), Z.of_nat (length buf)) /\
  (0 < length buf <= 16)%nat /\ 0 <= ctrl < 64.
Proof.
  intros Hx Hy. unfold PutUint64s, Uint64s.
  pose proof (byteLength_range x) as Hlx. pose proof (byteLength_range y) as Hly.
  pose proof (byteLength_bound x Hx) as Hbx.
  pose proof (byteLength_bound y Hy) as Hby.
  set (lx := byteLength x) in *. set (ly := byteLength y) in *.
  assert (0 <= Z.lor (Z.shiftl (lx - 1) 3) (ly - 1) < 64) as Hctrl.
  { rewrite lor_shiftl_add by lia. lia. }
  destruct (Z.ltb_spec0 (Z.lor (Z.shiftl (lx - 1) 3) (ly - 1)) 0) as [? | _]; [lia |].
  rewrite CtrlByte2ByteLengths_lookup by lia.
  rewrite length_app, !length_le_bytes.
  replace (Z.of_nat (Z.to_nat lx + Z.to_nat ly)) with (lx + ly) by lia.
  rewrite Z.eqb_refl.
  rewrite take_app_length' by (symmetry; apply length_le_bytes).
  rewrite drop_app_length' by (symmetry; apply length_le_bytes).
  rewrite !le_value_le_bytes by lia.
  rewrite !Z2Nat.id by lia.
  rewrite !Z.mod_small by lia.
  repeat split; try lia.
Qed.

Lemma Uint64s_PutUint64s_witness :
  Uint64s (fst (PutUint64s 65536 255)) (snd (PutUint64s 65536 255))
  = Some ((65536, 255), 4).
Proof.
  pose proof (Uint64s_PutUint64s 65536 255 ltac:(lia) ltac:(lia)) as H.
  exact (proj1 H).
Defined.

End VarintRoundTrip.

(** ** The seed file searcher *)

Section SearchProofs.
Import Int Varint KV.

(** *** Inversion of computations that succeed *)

Lemma bind_Ok_inv {A B} (c : IO A) (f : A -> IO B) data pos b pos' ops :
  bind c f data pos = (Ok b, pos', ops) ->
  exists a pos1 ops1 ops2,
    c data pos = (Ok a, pos1, ops1) /\
    f a data pos1 = (Ok b, pos', ops2) /\ ops = ops1 ++ ops2.
Proof.
  unfold bind. destruct (c data pos) as [[[a | e |] pos1] ops1]; try discriminate.
  destruct (f a data pos1) as [[r pos2] ops2] eqn:Hf.
  intros [= -> -> <-]. exists a, pos1, ops1, ops2. auto.
Qed.

Lemma ret_Ok_inv {A} (a b : A) data pos pos' ops :
  ret a data pos = (Ok b, pos', ops) -> b = a /\ pos' = pos /\ ops = [].
Proof. unfold ret. intros [= -> -> <-]. auto. Qed.

Ltac inv_bind H :=
  let a := fresh "a" in
  let p := fresh "pos" in
  let o1 := fresh "ops" in
  let o2 := fresh "ops" in
  let H1 := fresh "Hrun" in
  let Ho := fresh "Hops" in
  apply bind_Ok_inv in H;
  destruct H as (a & p & o1 & o2 & H1 & H & Ho).

Ltac inv_ret H :=
  let E1 := fresh "E" in
  let E2 := fresh "E" in
  let E3 := fresh "E" in
  apply ret_Ok_inv in H; destruct H as (E1 & E2 & E3).

(** *** Decoded numbers are not negative *)

Lemma le_value_nonneg bs : 0 <= le_value bs.
Proof.
  induction bs as [| b bs IH]; simpl; [lia |].
  apply Z.lor_nonneg. split; [apply byte_to_Z_range |].
  apply Z.shiftl_nonneg. exact IH.
Qed.

Lemma Uint64s_nonneg ctrl buf a b n :
  Uint64s ctrl buf = Some ((a, b), n) -> 0 <= a /\ 0 <= b.
Proof.
  unfold Uint64s. destruct (ctrl <? 0); [discriminate |].
  destruct (CtrlByte2ByteLengths !! Z.to_nat ctrl) as [[l0 l1] |]; [| discriminate].
  destruct (_ =? _); intros [= <- <- <-]; [| lia].
  split; apply le_value_nonneg.
Qed.

Lemma read_pair_nonneg ctrl data pos a b pos' ops :
  read_pair ctrl data pos = (Ok (a, b), pos', ops) -> 0 <= a /\ 0 <= b.
Proof.
  unfold read_pair. destruct (index_at _ _) as [[b0 b1] |]; [| discriminate].
  intros H. inv_bind H.
  destruct (_ <? _); [discriminate |].
  destruct (Uint64s ctrl a0) as [[[x y] n] |] eqn:E; [| discriminate].
  destruct (n =? 0); [discriminate |].
  inv_ret H. injection E0 as <- <-. eapply Uint64s_nonneg; eauto.
Qed.

(** Whether the values are kept or skipped, the same bytes are consumed. *)
Lemma read_values_skip n : forall keep vs data pos out pos' ops keep' vs',
  read_values n keep vs data pos = (Ok out, pos', ops) ->
  exists out', read_values n keep' vs' data pos = (Ok out', pos', ops).
Proof.
  induction n as [| n IH]; intros keep vs data pos out pos' ops keep' vs' H.
  - simpl in *. inv_ret H. subst. eexists. reflexivity.
  - cbn [read_values] in *. inv_bind H.
    destruct (Z.of_nat (length a) <? 8) eqn:E; [discriminate |].
    eapply IH in H. destruct H as [out' H].
    exists out'. unfold bind. rewrite Hrun, E, H. subst. reflexivity.
Qed.


(** *** One mask: the scan over a well-formed stream *)

(** A record read whole, taken apart into its reads. *)
Lemma read_record_inv data pos lastPair hasKmer2 deltas pos' ops :
  read_record data pos = (Ok (lastPair, hasKmer2, deltas), pos', ops) ->
  exists c pa oa pb ob c2 pc oc lens pd od v1 pe oe v2 of_,
    read_ctrl data pos = (Ok c, pa, oa) /\
    lastPair = (0 <? Z.land c 128) /\ hasKmer2 = (Z.land c 64 =? 0) /\
    read_pair (Z.land c 63) data pa = (Ok deltas, pb, ob) /\
    read_ctrl data pb = (Ok c2, pc, oc) /\
    read_pair c2 data pc = (Ok lens, pd, od) /\
    read_values (Z.to_nat (fst lens)) false [] data pd = (Ok v1, pe, oe) /\
    (if hasKmer2 then read_values (Z.to_nat (snd lens)) false [] data pe
     else ret [] data pe) = (Ok v2, pos', of_).
Proof.
  unfold read_record. intros H.
  inv_bind H. inv_bind H. inv_bind H. inv_bind H. inv_bind H. inv_bind H.
  inv_ret H. injection E as ? ? ?. subst.
  do 16 eexists. repeat split; try eassumption.
  destruct (Z.land a 64 =? 0); eassumption.
Qed.

(** The two blocks that read the values of a k-mer: the result is
    appended or not, and the handle ends where the values end. *)
Lemma emit_or_skip (cond keep : bool) n kmerX lp results data pd a p o v pe oe :
  (if cond
   then let* values := read_values n keep [] in
        ret (results ++ [mkSearchResult kmerX lp values])
   else let* _ := read_values n false [] in ret results) data pd = (Ok a, p, o) ->
  read_values n false [] data pd = (Ok v, pe, oe) ->
  p = pe /\
  ((cond = true /\ exists values, a = results ++ [mkSearchResult kmerX lp values])
   \/ (cond = false /\ a = results)).
Proof.
  intros H Hv. destruct cond; inv_bind H; inv_ret H; subst.
  - destruct (read_values_skip _ _ _ _ _ _ _ _ false [] Hrun) as [out' Hout].
    rewrite Hv in Hout. injection Hout as <- <- <-. eauto.
  - rewrite Hv in Hrun. injection Hrun as <- <- <-. auto.
Qed.

Lemma scan_sound k kmer leftBound rightBound index_i fuel :
  forall n first found prev _offset results data pos out pos' ops,
    stream_ok n first prev data pos = true ->
    (if first then prev = index_i /\ found = false
     else _offset = prev /\ 0 <= prev < 2 ^ 64 /\ (found = true -> leftBound <= prev)) ->
    scan fuel k kmer leftBound rightBound index_i first found _offset results
         data pos = (Ok out, pos', ops) ->
    exists new,
      out = results ++ new /\
      Forall (result_ok k kmer leftBound rightBound) new /\
      Forall (fun r => if first then prev <= Kmer r else prev < Kmer r) new /\
      StronglySorted (fun a b => Kmer a < Kmer b) new.
Proof.
  induction fuel as [| fuel IH];
    intros n first found prev _offset results data pos out pos' ops Hok Hinv Hscan.
  - discriminate Hscan.
  - destruct n as [| n]; [discriminate Hok |].
    cbn [stream_ok] in Hok.
    destruct (read_record data pos) as [[[[[lastPair hasKmer2] [d1 d2]] | |] p1] o1] eqn:Hrec;
      try discriminate Hok.
    apply read_record_inv in Hrec.
    destruct Hrec as (c & pa & oa & pb & ob & c2 & pc & oc & lens & pd & od & v1 & pe
                      & oe & v2 & of_ & Hc & HlastPair & HhasKmer2 & Hd & Hc2 & Hlens & Hv1 & Hv2).
    cbn [scan] in Hscan.
    inv_bind Hscan. rewrite Hc in Hrun. injection Hrun as <- <- <-.
    inv_bind Hscan. rewrite Hd in Hrun. injection Hrun as <- <- <-.
    rewrite <- HlastPair, <- HhasKmer2 in Hscan.
    pose proof (read_pair_nonneg _ _ _ _ _ _ _ Hd) as [Hd1 Hd2].
    cbn [fst snd] in Hscan.
    set (kmer1 := if first then prev else d1 + prev) in *.
    rewrite !andb_true_iff in Hok.
    destruct Hok as [[[[Hfirst Hk1lo] Hk1hi] Hk2] Hnext].
    apply Z.leb_le in Hk1lo. apply Z.ltb_lt in Hk1hi.
    assert ((if first then index_i else u64 (d1 + _offset)) = kmer1) as Ekmer1.
    { subst kmer1. destruct first; [symmetry; apply Hinv |].
      destruct Hinv as (-> & _ & _). unfold u64. apply Z.mod_small. lia. }
    rewrite Ekmer1 in Hscan.
    assert (if first then prev <= kmer1 else prev < kmer1) as Hlow.
    { subst kmer1. destruct first; [lia |]. simpl in Hfirst. lia. }
    assert (found = true -> leftBound <= kmer1) as Hfound1.
    { intros ->. destruct first; [destruct Hinv; discriminate |].
      destruct Hinv as (_ & _ & Hf). specialize (Hf eq_refl). lia. }
    clear Ekmer1 Hfirst Hinv.
    destruct (Z.ltb_spec0 rightBound kmer1) as [HR1 | HR1].
    { inv_ret Hscan. subst. exists []. rewrite app_nil_r.
      repeat split; constructor. }
    set (kmer2 := u64 (kmer1 + d2)) in *.
    set (found' := found || (leftBound <=? kmer1) || (leftBound <=? kmer2)) in *.
    inv_bind Hscan. rewrite Hc2 in Hrun. injection Hrun as <- <- <-.
    inv_bind Hscan. rewrite Hlens in Hrun. injection Hrun as <- <- <-.
    inv_bind Hscan.
    destruct (emit_or_skip _ _ _ _ _ _ _ _ _ _ _ _ _ _ Hrun Hv1) as [-> Hres1].
    assert (exists new1, a = results ++ new1 /\
              Forall (result_ok k kmer leftBound rightBound) new1 /\
              Forall (fun r => Kmer r = kmer1) new1 /\
              (new1 = [] \/ exists r, new1 = [r]))
      as (new1 & -> & Hok1 & Hk1 & Hshape1).
    { destruct Hres1 as [[Hcond [values ->]] | [_ ->]].
      - apply andb_true_iff in Hcond. destruct Hcond as [_ HL%Z.leb_le].
        eexists. split; [reflexivity |].
        split; [| split]; [repeat constructor; simpl; lia | repeat constructor | eauto].
      - exists []. rewrite app_nil_r. repeat split; auto; constructor. }
    assert (Forall (fun r => if first then prev <= Kmer r else prev < Kmer r) new1)
      as Hlow1.
    { eapply Forall_impl; [exact Hk1 |]. intros r ->. exact Hlow. }
    assert (StronglySorted (fun a b => Kmer a < Kmer b) new1) as Hsorted1.
    { destruct Hshape1 as [-> | [r ->]]; repeat constructor. }
    clear Hrun Hres1.
    destruct (Z.ltb_spec0 rightBound kmer2) as [HR2 | HR2].
    { inv_ret Hscan. subst. exists new1. auto. }
    destruct (lastPair && negb hasKmer2) eqn:ELP.
    { inv_ret Hscan. subst. exists new1. auto. }
    assert (hasKmer2 = true) as EhasKmer2.
    { destruct hasKmer2; [reflexivity |]. rewrite Hk2 in ELP. discriminate. }
    rewrite EhasKmer2 in *. clear HhasKmer2 ELP.
    apply andb_true_iff in Hk2. destruct Hk2 as [Hk12%Z.ltb_lt Hk2hi%Z.ltb_lt].
    assert (kmer2 = kmer1 + d2) as Ekmer2.
    { subst kmer2. unfold u64. apply Z.mod_small. lia. }
    assert (found' = true -> leftBound <= kmer2) as Hfound2.
    { subst found'. rewrite !orb_true_iff, !Z.leb_le.
      intros [[Hf | HL] | HL]; [specialize (Hfound1 Hf) | |]; lia. }
    inv_bind Hscan.
    destruct (emit_or_skip _ _ _ _ _ _ _ _ _ _ _ _ _ _ Hrun Hv2) as [-> Hres2].
    assert (exists new2, a = (results ++ new1) ++ new2 /\
              Forall (result_ok k kmer leftBound rightBound) new2 /\
              Forall (fun r => Kmer r = kmer2) new2 /\
              (new2 = [] \/ exists r, new2 = [r])) as (new2 & -> & Hok2 & Hk2 & Hshape2).
    { destruct Hres2 as [[Hcond [values ->]] | [_ ->]].
      - specialize (Hfound2 Hcond).
        eexists. split; [reflexivity |].
        split; [| split]; [repeat constructor; simpl; lia | repeat constructor | eauto].
      - exists []. rewrite app_nil_r. repeat split; auto; constructor. }
    clear Hrun Hres2.
    assert (Forall (fun r => if first then prev <= Kmer r else prev < Kmer r) new2)
      as Hlow2.
    { eapply Forall_impl; [exact Hk2 |]. intros r ->.
      destruct first; lia. }
    assert (StronglySorted (fun a b => Kmer a < Kmer b) (new1 ++ new2)) as Hsorted12.
    { destruct Hshape2 as [-> | [r ->]]; [rewrite app_nil_r; exact Hsorted1 |].
      apply Forall_inv in Hk2. rewrite Ekmer2 in Hk2.
      clear -Hsorted1 Hk1 Hk2 Hk12. induction new1 as [| x new1 IHn]; simpl.
      - repeat constructor.
      - apply StronglySorted_inv in Hsorted1. destruct Hsorted1 as [Hs Hx].
        apply Forall_cons in Hk1. destruct Hk1 as [Hx1 Hk1].
        constructor; [apply IHn; assumption |].
        apply Forall_app. split; [exact Hx |]. repeat constructor. lia. }
    destruct lastPair.
    { inv_ret Hscan. subst. exists (new1 ++ new2). rewrite app_assoc.
      split; [reflexivity |]. rewrite !Forall_app. auto. }
    eapply IH in Hscan; [| exact Hnext | cbn; rewrite <- Ekmer2; repeat split; auto; lia].
    destruct Hscan as (new3 & -> & Hok3 & Hlow3 & Hsorted3).
    cbn in Hlow3.
    exists (new1 ++ new2 ++ new3). rewrite !app_assoc.
    split; [reflexivity |].
    rewrite <- !app_assoc, !Forall_app.
    repeat split; auto.
    + eapply Forall_impl; [exact Hlow3 |]. intros r Hr. cbn in Hr.
      destruct first; lia.
    + rewrite app_assoc. apply StronglySorted_app_2; auto.
      intros x1 x2 Hx1 Hx2.
      rewrite Forall_forall in Hlow3. specialize (Hlow3 _ Hx2).
      apply elem_of_app in Hx1. rewrite Forall_forall in Hk1, Hk2.
      destruct Hx1 as [Hx1 | Hx1]; [rewrite (Hk1 _ Hx1) | rewrite (Hk2 _ Hx1)];
        cbn in Hlow3; lia.
Qed.


(** *** The nearest anchor *)

Lemma find_anchor_even fuel index leftBound :
  forall begin end_ i,
    0 <= begin -> begin mod 2 = 0 ->
    find_anchor fuel index leftBound begin end_ = Ok i ->
    0 <= i /\ i mod 2 = 0.
Proof.
  induction fuel as [| fuel IH]; intros begin end_ i Hb Hev H; [discriminate |].
  cbn [find_anchor] in H.
  set (middle0 := begin + Z.shiftr (end_ - begin) 1) in *.
  set (middle := if 0 <? Z.land middle0 1 then middle0 - 1 else middle0) in *.
  assert (middle mod 2 = 0) as Hmid.
  { subst middle. rewrite land_1.
    destruct (Z.ltb_spec0 0 (middle0 mod 2)); Z.div_mod_to_equations; lia. }
  destruct (index_at index middle) as [x |] eqn:Ex; [| discriminate].
  assert (0 <= middle) as Hmid0.
  { unfold index_at in Ex. destruct (Z.ltb_spec0 middle 0); [discriminate | lia]. }
  destruct (leftBound <? x); cbv beta iota in H.
  - destruct (begin + 2 =? middle); [injection H as <-; auto |].
    exact (IH _ _ _ Hb Hev H).
  - destruct (middle + 2 =? end_); [injection H as <-; auto |].
    exact (IH _ _ _ Hmid0 Hmid H).
Qed.

Lemma anchors_elem (j : nat) : forall (index : list Z) a o,
  index !! (2 * j)%nat = Some a -> index !! (2 * j + 1)%nat = Some o ->
  (a, o) ∈ anchors index.
Proof.
  induction j as [| j IH]; intros [| x [| y index]] a o Ha Ho; try discriminate.
  - simpl in *. injection Ha as ->. injection Ho as ->. left.
  - right. apply IH.
    + replace (2 * S j)%nat with (S (S (2 * j))) in Ha by lia. exact Ha.
    + replace (2 * S j + 1)%nat with (S (S (2 * j + 1))) in Ho by lia. exact Ho.
Qed.

Lemma search_index_sound n fuel k kmer leftBound rightBound index results
    data pos out pos' ops :
  forallb (anchor_ok n data) (anchors index) = true ->
  search_index fuel k kmer leftBound rightBound index results data pos
  = (Ok out, pos', ops) ->
  exists new,
    out = results ++ new /\
    Forall (result_ok k kmer leftBound rightBound) new /\
    StronglySorted (fun a b => Kmer a < Kmer b) new.
Proof.
  intros Hanchors H. unfold search_index in H.
  destruct (find_anchor fuel index leftBound 0 _) as [i | e |] eqn:Hfind;
    try discriminate H.
  apply find_anchor_even in Hfind; [| lia | reflexivity].
  destruct Hfind as [Hi0 Hieven].
  destruct (index_at index (i + 1)) as [offset |] eqn:Eoff; [| discriminate H].
  destruct (index_at index i) as [index_i |] eqn:Ei; [| discriminate H].
  unfold index_at in Eoff, Ei.
  destruct (Z.ltb_spec0 (i + 1) 0); [lia |].
  destruct (Z.ltb_spec0 i 0); [lia |].
  assert (exists j : nat, Z.to_nat i = (2 * j)%nat /\ Z.to_nat (i + 1) = (2 * j + 1)%nat)
    as (j & Ej & Ej1).
  { exists (Z.to_nat (i / 2)). Z.div_mod_to_equations. lia. }
  rewrite Ej in Ei. rewrite Ej1 in Eoff.
  pose proof (anchors_elem j index _ _ Ei Eoff) as Hin.
  rewrite forallb_forall in Hanchors.
  apply list_elem_of_In in Hin. specialize (Hanchors _ Hin).
  unfold anchor_ok in Hanchors. cbn [fst snd] in Hanchors.
  rewrite !andb_true_iff in Hanchors.
  destruct Hanchors as [[Ho0%Z.leb_le Ho1%Z.ltb_lt] Hstream].
  inv_bind H. unfold Seek in Hrun.
  assert (i64 offset = offset) as Eo.
  { unfold i64. rewrite Z.mod_small by lia. lia. }
  rewrite Eo in Hrun.
  destruct (Z.ltb_spec0 offset 0); [lia |].
  injection Hrun as <- <- <-.
  eapply scan_sound in H; [| exact Hstream | cbn; auto].
  destruct H as (new & -> & Hok & _ & Hsorted). eauto.
Qed.

Lemma search_indexes_sound n fuel k kmer leftBound rightBound indexes :
  forall results data pos out pos' ops,
    indexes_ok n indexes data = true ->
    search_indexes fuel k kmer leftBound rightBound indexes results data pos
    = (Ok out, pos', ops) ->
    exists segs,
      out = results ++ concat segs /\
      length segs = length indexes /\
      Forall (fun seg => Forall (result_ok k kmer leftBound rightBound) seg /\
                         StronglySorted (fun a b => Kmer a < Kmer b) seg) segs.
Proof.
  induction indexes as [| index indexes IH];
    intros results data pos out pos' ops Hok H.
  - simpl in H. inv_ret H. subst. exists []. simpl. rewrite app_nil_r. auto.
  - cbn [search_indexes] in H. inv_bind H.
    unfold indexes_ok in Hok. cbn [forallb] in Hok.
    apply andb_true_iff in Hok. destruct Hok as [Hindex Hrest].
    eapply search_index_sound in Hrun; [| exact Hindex].
    destruct Hrun as (new & -> & Hnew & Hsorted).
    eapply IH in H; [| exact Hrest].
    destruct H as (segs & -> & Hlen & Hsegs).
    exists (new :: segs). simpl. rewrite <- app_assoc.
    repeat split; auto.
Qed.


(** *** The scope of a search *)

Lemma land_lnot_ones x s :
  0 <= s -> Z.land x (Z.lnot (Z.ones s)) = Z.shiftl (Z.shiftr x s) s.
Proof. intros Hs. rewrite <- Z.ldiff_land. apply Z.ldiff_ones_r. exact Hs. Qed.

Lemma lor_ones x s :
  0 <= s -> Z.lor x (Z.ones s) = Z.shiftl (Z.shiftr x s) s + Z.ones s.
Proof.
  intros Hs.
  transitivity (Z.lor (Z.shiftl (Z.shiftr x s) s) (Z.ones s)).
  - apply Z.bits_inj'. intros i Hi. rewrite !Z.lor_spec.
    destruct (Z.lt_ge_cases i s).
    + rewrite Z.ones_spec_low, !orb_true_r by lia. reflexivity.
    + rewrite Z.ones_spec_high, !orb_false_r by lia.
      rewrite Z.shiftl_spec, Z.shiftr_spec by lia. f_equal. lia.
  - pose proof (Z.pow_pos_nonneg 2 s ltac:(lia) Hs).
    rewrite lor_shiftl_add by (rewrite ?Z.ones_equiv; lia).
    rewrite Z.shiftl_mul_pow2 by lia. reflexivity.
Qed.

Lemma shiftr_shiftl_bounds x s :
  0 <= s ->
  Z.shiftl (Z.shiftr x s) s <= x < Z.shiftl (Z.shiftr x s) s + 2 ^ s.
Proof.
  intros Hs. rewrite Z.shiftl_mul_pow2, Z.shiftr_div_pow2 by lia.
  pose proof (Z.pow_pos_nonneg 2 s ltac:(lia) Hs).
  Z.div_mod_to_equations. nia.
Qed.

(** The bounds that the code computes are [query & ~mask] and
    [query | mask] for [mask = 2^(2(k-m)) - 1]. *)
Lemma search_scope_spec k kmer m :
  1 <= m <= k -> k <= 32 -> 0 <= kmer < 2 ^ 64 ->
  search_scope k kmer m
  = (Z.land kmer (Z.lnot (2 ^ (2 * (k - m)) - 1)),
     Z.lor kmer (2 ^ (2 * (k - m)) - 1)).
Proof.
  intros Hm Hk Hkmer. unfold search_scope.
  set (s := 2 * (k - m)).
  replace (2 ^ s - 1) with (Z.ones s) by (rewrite Z.ones_equiv; lia).
  rewrite land_lnot_ones, lor_ones by lia.
  destruct (Z.ltb_spec0 m k) as [Hlt | Hge].
  - assert (u8 (Z.shiftl (u8 (k - m)) 1) = s) as ->.
    { unfold u8. rewrite (Z.mod_small (k - m)) by lia.
      rewrite Z.shiftl_mul_pow2 by lia. rewrite Z.mod_small by lia. lia. }
    assert (0 < s < 64) as Hs by lia.
    assert (0 < 2 ^ s < 2 ^ 64) as Hpow.
    { split; [apply Z.pow_pos_nonneg; lia | apply Z.pow_lt_mono_r; lia]. }
    assert (u64 (shl64 1 s - 1) = Z.ones s) as ->.
    { unfold shl64, u64. rewrite Z.shiftl_mul_pow2, Z.mul_1_l by lia.
      rewrite (Z.mod_small (2 ^ s)) by lia.
      rewrite Z.mod_small by lia. rewrite Z.ones_equiv. lia. }
    pose proof (shiftr_shiftl_bounds kmer s ltac:(lia)) as Hb.
    f_equal.
    + replace (u64 (MaxUint64 - Z.ones s)) with (Z.shiftl (Z.ones (64 - s)) s).
      2:{ unfold u64, MaxUint64. rewrite !Z.ones_equiv, Z.shiftl_mul_pow2 by lia.
          rewrite Z.mod_small by lia.
          replace (2 ^ 64) with (2 ^ (64 - s) * 2 ^ s)
            by (rewrite <- Z.pow_add_r by lia; f_equal; lia).
          lia. }
      apply Z.bits_inj'. intros i Hi.
      rewrite Z.land_spec, !Z.shiftl_spec by lia.
      destruct (Z.lt_ge_cases i s).
      * rewrite (Z.testbit_neg_r (Z.ones (64 - s))),
          (Z.testbit_neg_r (Z.shiftr kmer s)) by lia.
        apply andb_false_r.
      * rewrite Z.shiftr_spec by lia. replace (i - s + s) with i by lia.
        destruct (Z.lt_ge_cases i 64).
        -- rewrite Z.ones_spec_low by lia. apply andb_true_r.
        -- rewrite Z.ones_spec_high, andb_false_r by lia. symmetry.
           destruct (Z.eq_dec kmer 0) as [-> | Hnz]; [apply Z.bits_0 |].
           apply Z.bits_above_log2; [lia |].
           apply Z.lt_le_trans with 64; [| lia].
           apply Z.log2_lt_pow2; lia.
    + unfold shl64, shr64, u64.
      rewrite Z.ones_equiv in *.
      assert (0 <= Z.shiftl (Z.shiftr kmer s) s) as Hnn
        by (apply Z.shiftl_nonneg, Z.shiftr_nonneg; lia).
      rewrite (Z.mod_small (Z.shiftl _ _)) by lia.
      apply Z.mod_small.
      assert (Z.shiftl (Z.shiftr kmer s) s + 2 ^ s <= 2 ^ 64); [| lia].
      rewrite Z.shiftl_mul_pow2, Z.shiftr_div_pow2 by lia.
      replace (2 ^ 64) with (2 ^ (64 - s) * 2 ^ s)
        by (rewrite <- Z.pow_add_r by lia; f_equal; lia).
      assert (kmer / 2 ^ s < 2 ^ (64 - s)).
      { apply Z.div_lt_upper_bound; [lia |].
        rewrite <- Z.pow_add_r by lia. replace (s + (64 - s)) with 64 by lia. lia. }
      nia.
  - assert (s = 0) as -> by lia.
    rewrite Z.shiftr_0_r, Z.shiftl_0_r. change (Z.ones 0) with 0.
    rewrite Z.add_0_r. reflexivity.
Qed.

(** A k-mer within the bounds has the leading [m] bases of the query. *)
Lemma in_scope_shiftr kmer s x :
  0 <= s ->
  Z.land kmer (Z.lnot (2 ^ s - 1)) <= x <= Z.lor kmer (2 ^ s - 1) ->
  Z.shiftr x s = Z.shiftr kmer s.
Proof.
  intros Hs. replace (2 ^ s - 1) with (Z.ones s) by (rewrite Z.ones_equiv; lia).
  rewrite land_lnot_ones, lor_ones by lia.
  rewrite Z.ones_equiv, Z.shiftl_mul_pow2, !Z.shiftr_div_pow2 by lia.
  pose proof (Z.pow_pos_nonneg 2 s ltac:(lia) Hs).
  intros Hx. symmetry. apply Z.div_unique with (x - kmer / 2 ^ s * 2 ^ s); lia.
Qed.

Lemma LeadingZeros64_lower y s :
  0 <= s -> 0 <= y < 2 ^ s -> 64 - s <= LeadingZeros64 y.
Proof.
  intros Hs Hy. unfold LeadingZeros64.
  destruct (Z.eqb_spec y 0); [lia |].
  assert (Z.log2 y < s) by (apply Z.log2_lt_pow2; lia). lia.
Qed.

Lemma LeadingZeros64_upper y : 0 <= y -> LeadingZeros64 y <= 64.
Proof.
  intros Hy. unfold LeadingZeros64.
  destruct (Z.eqb_spec y 0); [lia |].
  pose proof (Z.log2_nonneg y). lia.
Qed.

Lemma len_prefix_in_scope k m kmer x :
  1 <= m <= k -> k <= 32 -> 0 <= kmer -> 0 <= x ->
  Z.shiftr x (2 * (k - m)) = Z.shiftr kmer (2 * (k - m)) ->
  len_prefix k kmer x = LeadingZeros64 (Z.lxor kmer x) / 2 + (k - 32) /\
  m <= len_prefix k kmer x <= k.
Proof.
  intros Hm Hk Hkmer Hx Hshift.
  set (s := 2 * (k - m)) in *.
  assert (0 <= Z.lxor kmer x < 2 ^ s) as Hxor.
  { assert (0 <= Z.lxor kmer x) as H0 by (apply Z.lxor_nonneg; lia).
    split; [exact H0 |].
    assert (Z.shiftr (Z.lxor kmer x) s = 0) as Hz.
    { rewrite Z.shiftr_lxor, Hshift. apply Z.lxor_nilpotent. }
    rewrite Z.shiftr_div_pow2 in Hz by lia.
    pose proof (Z.pow_pos_nonneg 2 s ltac:(lia) ltac:(lia)).
    apply Z.div_small_iff in Hz; lia. }
  pose proof (LeadingZeros64_lower _ s ltac:(lia) Hxor) as Hlo.
  pose proof (LeadingZeros64_upper (Z.lxor kmer x) ltac:(lia)) as Hhi.
  unfold len_prefix. set (lz := LeadingZeros64 (Z.lxor kmer x)) in *.
  rewrite Z.shiftr_div_pow2 by lia. change (2 ^ 1) with 2.
  assert (32 - (k - m) <= lz / 2 <= 32) as Hhalf.
  { subst s. Z.div_mod_to_equations. lia. }
  unfold u8. rewrite (Z.mod_small (lz / 2)) by lia.
  rewrite (Z.mod_small (lz / 2 + k)) by lia.
  rewrite Z.mod_small by lia. lia.
Qed.


(** *** [Search] *)

Lemma maxKmer_NewSearcher k chunkIndex indexes kmer :
  0 <= k < 128 -> 0 <= kmer < 2 ^ 64 ->
  (maxKmer (NewSearcher k chunkIndex indexes) <? kmer) = true
  <-> 2 ^ (2 * k) <= kmer.
Proof.
  intros Hk Hkmer. cbn [NewSearcher maxKmer]. rewrite Z.ltb_lt.
  unfold u8. rewrite Z.shiftl_mul_pow2 by lia. change (2 ^ 1) with 2.
  rewrite (Z.mod_small (k * 2)) by lia.
  unfold shl64, u64. rewrite Z.shiftl_mul_pow2, Z.mul_1_l by lia.
  replace (k * 2) with (2 * k) by lia.
  destruct (Z.lt_ge_cases (2 * k) 64) as [Hlt | Hge].
  - assert (0 < 2 ^ (2 * k) < 2 ^ 64) as Hpow.
    { split; [apply Z.pow_pos_nonneg; lia | apply Z.pow_lt_mono_r; lia]. }
    rewrite (Z.mod_small (2 ^ (2 * k))) by lia.
    rewrite Z.mod_small by lia. lia.
  - assert (2 ^ 64 <= 2 ^ (2 * k)) as Hpow by (apply Z.pow_le_mono_r; lia).
    replace (2 * k) with (64 + (2 * k - 64)) at 1 by lia.
    rewrite Z.pow_add_r, Z.mul_comm, Z.mod_mul by lia.
    change ((0 - 1) mod 2 ^ 64) with (2 ^ 64 - 1). lia.
Qed.

(** C9. For a k-mer size below 128 (the sizes of the data model are 3 to
    32) [Search] returns the invalid k-mer error exactly when the query is
    at least [2^(2k)]; the error is a returned value, and in that case no
    call is made on the file handle, which stays where it was. *)
Theorem Search_invalid_kmer fuel k chunkIndex indexes kmer m data pos :
  0 <= k < 128 -> 0 <= kmer < 2 ^ 64 ->
  let scr := NewSearcher k chunkIndex indexes in
  (returns_invalid_kmer (Search fuel scr kmer m data pos)
   <-> 2 ^ (2 * k) <= kmer) /\
  (2 ^ (2 * k) <= kmer ->
   Search fuel scr kmer m data pos = (Err (ErrInvalidKmer k kmer), pos, [])).
Proof.
  intros Hk Hkmer scr.
  pose proof (maxKmer_NewSearcher k chunkIndex indexes kmer Hk Hkmer) as Hmax.
  fold scr in Hmax.
  assert (2 ^ (2 * k) <= kmer ->
          Search fuel scr kmer m data pos = (Err (ErrInvalidKmer k kmer), pos, []))
    as Hinvalid.
  { intros Hge. apply Hmax in Hge. unfold Search. rewrite Hge. reflexivity. }
  split; [| exact Hinvalid].
  split.
  - intros (k' & kmer' & Hret). apply Hmax.
    unfold Search in Hret.
    destruct (maxKmer scr <? kmer); [reflexivity |].
    destruct (search_scope _ _ _) as [leftBound rightBound].
    destruct (search_indexes _ _ _ _ _ _ _ _ _) as [[[results | e |] pos'] ops];
      discriminate Hret.
  - intros Hge. exists k, kmer. rewrite (Hinvalid Hge). reflexivity.
Qed.

Lemma Search_invalid_kmer_witness :
  Search 4 (NewSearcher 3 0 [sample_index 0]) 64 3 sample_stream 0
  = (Err (ErrInvalidKmer 3 64), 0, []).
Proof.
  apply (Search_invalid_kmer 4 3 0 [sample_index 0] 64 3 sample_stream 0); lia.
Defined.

Lemma sorted_Kmer_NoDup (l : list SearchResult) :
  StronglySorted (fun a b => Kmer a < Kmer b) l -> NoDup (Kmer <$> l).
Proof.
  induction 1 as [| x l Hs IH Hx]; simpl; constructor; [| exact IH].
  intros Hin. apply list_elem_of_fmap in Hin. destruct Hin as (y & Ey & Hy).
  rewrite Forall_forall in Hx. specialize (Hx _ Hy). lia.
Qed.

Lemma Search_Ok_inv fuel scr kmer m data pos results pos' ops :
  Search fuel scr kmer m data pos = (Ok results, pos', ops) ->
  let m' := if (m <? 1) || (K scr <? m) then K scr else m in
  search_indexes fuel (K scr) kmer (fst (search_scope (K scr) kmer m'))
                 (snd (search_scope (K scr) kmer m')) (Indexes scr) [] data pos
  = (Ok results, pos', ops).
Proof.
  unfold Search. destruct (maxKmer scr <? kmer); [discriminate |].
  cbv zeta. destruct (search_scope _ _ _) as [leftBound rightBound].
  cbn [fst snd].
  destruct (search_indexes _ _ _ _ _ _ _ _ _) as [[[r | e |] p] o];
    intros [= -> -> ->]. reflexivity.
Qed.

(** C1, as the claim states it, fails: [Search] scans every mask of the
    chunk and appends what it finds to one list, so a k-mer kept by two
    masks is returned twice.  Here the two masks of the chunk hold the same
    stream, and the k-mer 9 is returned for each. *)
Lemma Search_same_kmer_in_two_masks :
  let data := sample_stream ++ sample_stream in
  let scr := NewSearcher 3 0 [sample_index 0; sample_index 36] in
  indexes_ok 2 (Indexes scr) data = true /\
  fst (fst (Search 4 scr 9 3 data 0))
  = Ok [mkSearchResult 9 3 [8]; mkSearchResult 9 3 [8]].
Proof. split; vm_compute; reflexivity. Qed.

(** C10. With a minimum prefix outside [[1, k]], [Search] does exactly
    what it does for [m = k]: the scope is the single k-mer of the query,
    and, on a well-formed seed file, every result is that k-mer. *)
Theorem Search_min_prefix_out_of_range fuel n k chunkIndex indexes kmer m data pos :
  m < 1 \/ k < m ->
  let scr := NewSearcher k chunkIndex indexes in
  Search fuel scr kmer m data pos = Search fuel scr kmer k data pos /\
  search_scope k kmer (if (m <? 1) || (k <? m) then k else m) = (kmer, kmer) /\
  forall results pos' ops,
    indexes_ok n indexes data = true ->
    Search fuel scr kmer m data pos = (Ok results, pos', ops) ->
    Forall (fun r => Kmer r = kmer /\ LenPrefix r = len_prefix k kmer kmer) results.
Proof.
  intros Hm scr.
  assert ((m <? 1) || (k <? m) = true) as Em.
  { apply orb_true_iff. rewrite !Z.ltb_lt. exact Hm. }
  assert (search_scope k kmer k = (kmer, kmer)) as Escope.
  { unfold search_scope. rewrite Z.ltb_irrefl. reflexivity. }
  assert ((if (k <? 1) || (k <? k) then k else k) = k) as Ek
    by (destruct ((k <? 1) || (k <? k)); reflexivity).
  split; [| split].
  - unfold Search. cbn [K scr NewSearcher]. rewrite Em, Ek. reflexivity.
  - rewrite Em. exact Escope.
  - intros results pos' ops Hok Hsearch.
    apply Search_Ok_inv in Hsearch. cbn [K Indexes scr NewSearcher] in Hsearch.
    cbv zeta in Hsearch. rewrite Em, Escope in Hsearch. cbn [fst snd] in Hsearch.
    eapply search_indexes_sound in Hsearch; [| exact Hok].
    destruct Hsearch as (segs & -> & _ & Hsegs). cbn [app].
    apply Forall_concat. eapply Forall_impl; [exact Hsegs |].
    intros seg [Hseg _]. eapply Forall_impl; [exact Hseg |].
    intros r [Hscope Hlp].
    assert (Kmer r = kmer) as E by lia. rewrite Hlp, E. auto.
Qed.

Lemma Search_min_prefix_out_of_range_witness :
  Search 4 (NewSearcher 3 0 [sample_index 0]) 9 0 sample_stream 0
  = Search 4 (NewSearcher 3 0 [sample_index 0]) 9 3 sample_stream 0.
Proof.
  apply (Search_min_prefix_out_of_range 4 2 3 0 [sample_index 0] 9 0
           sample_stream 0).
  left. lia.
Defined.

End SearchProofs.

(** ** Location values *)

Section KmerValue.
Import Int Index.





Lemma kmerValue_sum batch refIdx loc :
  0 <= batch < 2 ^ 17 -> 0 <= refIdx < 2 ^ 17 -> 0 <= loc < 2 ^ 30 ->
  kmerValue batch refIdx loc = batch * 2 ^ 47 + refIdx * 2 ^ 30 + loc.
Proof.
  intros Hb Hr Hl. unfold kmerValue, shl64, u64.
  rewrite (Z.mod_small batch), (Z.mod_small refIdx), (Z.mod_small loc) by lia.
  change 131071 with (Z.ones 17). change 1073741823 with (Z.ones 30).
  rewrite !Z.land_ones by lia.
  rewrite (Z.mod_small refIdx), (Z.mod_small loc) by lia.
  rewrite (Z.shiftl_mul_pow2 batch), (Z.shiftl_mul_pow2 refIdx) by lia.
  rewrite (Z.mod_small (batch * _)), (Z.mod_small (refIdx * _)) by lia.
  rewrite <- (Z.shiftl_mul_pow2 refIdx) by lia.
  replace (batch * 2 ^ 47) with (Z.shiftl (batch * 2 ^ 17) 30)
    by (rewrite Z.shiftl_mul_pow2 by lia; lia).
  rewrite <- Z.shiftl_lor.
  rewrite lor_shiftl_add by lia.
  replace (batch * 2 ^ 17) with (Z.shiftl batch 17)
    by (rewrite Z.shiftl_mul_pow2 by lia; lia).
  rewrite lor_shiftl_add by lia.
  rewrite !Z.shiftl_mul_pow2 by lia. lia.
Qed.

(** C5. A batch index and a reference index below 2^17 and a location
    below 2^30 (position shifted left by one, strand in bit 0) are packed
    into bits 63..47, 46..30, 29..1 and 0 of a 64-bit value, and
    [parseKmerValue] gives the four fields back. *)
Theorem parseKmerValue_kmerValue batch refIdx loc :
  0 <= batch < 2 ^ 17 -> 0 <= refIdx < 2 ^ 17 -> 0 <= loc < 2 ^ 30 ->
  let v := kmerValue batch refIdx loc in
  0 <= v < 2 ^ 64 /\
  Z.shiftr v 47 = batch /\
  Z.land (Z.shiftr v 30) (Z.ones 17) = refIdx /\
  Z.land (Z.shiftr v 1) (Z.ones 29) = Z.shiftr loc 1 /\
  Z.land v (Z.ones 1) = Z.land loc 1 /\
  parseKmerValue v = (batch, refIdx, Z.shiftr loc 1, Z.land loc 1).
Proof.
  intros Hb Hr Hl v. subst v. rewrite kmerValue_sum by assumption.
  unfold parseKmerValue, shr64, shl64, u64.
  rewrite !land_1, !Z.land_ones, !Z.shiftr_div_pow2, !Z.shiftl_mul_pow2 by lia.
  change (2 ^ 1) with 2. change (2 ^ 17) with 131072 in *.
  change (2 ^ 30) with 1073741824 in *. change (2 ^ 29) with 536870912.
  change (2 ^ 47) with 140737488355328. change (2 ^ 34) with 17179869184.
  change (2 ^ 35) with 34359738368. change (2 ^ 64) with 18446744073709551616.
  repeat split; try (f_equal; [f_equal; [f_equal |] |]);
    Z.div_mod_to_equations; lia.
Qed.

Lemma parseKmerValue_kmerValue_witness :
  (0 <= 3 < 2 ^ 17 /\ 0 <= 5 < 2 ^ 17 /\ 0 <= 2001 < 2 ^ 30) /\
  parseKmerValue (kmerValue 3 5 2001) = (3, 5, 1000, 1).
Proof.
  split; [lia |].
  apply (parseKmerValue_kmerValue 3 5 2001); lia.
Defined.

End KmerValue.

(** ** Reverse complement *)

Section ReverseComplement.
Import Int Index.

Lemma rcTable_at_involutive b : rcTable_at (rcTable_at b) = b.
Proof. destruct b; reflexivity. Qed.

Lemma rcTable_at_fixed b :
  is_acgt b = false -> is_ambiguity_pair b = false -> rcTable_at b = b.
Proof. destruct b; intros H1 H2; try reflexivity; discriminate. Qed.

Lemma rcTable_at_moved b :
  is_acgt b || is_ambiguity_pair b = true -> rcTable_at b <> b.
Proof. destruct b; intros H; try discriminate H; discriminate. Qed.

Lemma swap_middle (a m b : list byte) x y :
  swap (a ++ x :: m ++ y :: b) (length a) (length a + S (length m)) =
  a ++ y :: m ++ x :: b.
Proof.
  unfold swap.
  rewrite lookup_app_r, Nat.sub_diag by lia. simpl.
  rewrite lookup_app_r by lia.
  replace (length a + S (length m) - length a)%nat with (S (length m)) by lia.
  simpl. rewrite lookup_app_r, Nat.sub_diag by lia. simpl.
  rewrite insert_app_r_alt, Nat.sub_diag by lia. simpl.
  rewrite insert_app_r_alt by lia.
  replace (length a + S (length m) - length a)%nat with (S (length m)) by lia.
  simpl. rewrite insert_app_r_alt, Nat.sub_diag by lia. reflexivity.
Qed.

(** The swap loop between two equal-length margins reverses the middle. *)
Lemma reverse_loop_middle n : forall a m b : list byte,
  (length m <= 2 * n)%nat ->
  reverse_loop n (Z.of_nat (length a))
               (Z.of_nat (length a + length m) - 1) (a ++ m ++ b)
  = a ++ reverse m ++ b.
Proof.
  induction n as [| n IH]; intros a m b Hlen.
  - destruct m; [reflexivity | simpl in Hlen; lia].
  - cbn [reverse_loop]. destruct m as [| x m].
    + destruct (Z.ltb_spec0 (Z.of_nat (length a))
                  (Z.of_nat (length a + length (@nil byte)) - 1));
        [simpl in *; lia | reflexivity].
    + destruct m as [| y m' _] using rev_ind.
      * destruct (Z.ltb_spec0 (Z.of_nat (length a))
                    (Z.of_nat (length a + length [x]) - 1));
          [simpl in *; lia | reflexivity].
      * rewrite length_cons, length_app in *. cbn [length] in *.
        destruct (Z.ltb_spec0 (Z.of_nat (length a))
                    (Z.of_nat (length a + S (length m' + 1)) - 1)); [| lia].
        replace (Z.to_nat (Z.of_nat (length a))) with (length a) by lia.
        replace (Z.to_nat (Z.of_nat (length a + S (length m' + 1)) - 1))
          with (length a + S (length m'))%nat by lia.
        replace (a ++ (x :: m' ++ [y]) ++ b) with (a ++ x :: m' ++ y :: b)
          by (simpl; rewrite <- (app_assoc m'); reflexivity).
        rewrite swap_middle.
        replace (a ++ y :: m' ++ x :: b) with ((a ++ [y]) ++ m' ++ x :: b)
          by (rewrite <- app_assoc; reflexivity).
        replace (Z.of_nat (length a) + 1) with (Z.of_nat (length (a ++ [y])))
          by (rewrite length_app; simpl; lia).
        replace (Z.of_nat (length a + S (length m' + 1)) - 1 - 1)
          with (Z.of_nat (length (a ++ [y]) + length m') - 1)
          by (rewrite length_app; simpl; lia).
        rewrite IH by lia.
        rewrite reverse_cons, reverse_app, <- !app_assoc. reflexivity.
Qed.

Lemma reverse_loop_reverse (s : list byte) :
  reverse_loop (length s) 0 (Z.of_nat (length s) - 1) s = reverse s.
Proof.
  pose proof (reverse_loop_middle (length s) [] s []) as H.
  simpl in H. rewrite !app_nil_r in H. apply H. lia.
Qed.

Lemma RC_reverse s : RC s = reverse (rcTable_at <$> s).
Proof. unfold RC. apply reverse_loop_reverse. Qed.

Lemma RC_involutive s : RC (RC s) = s.
Proof.
  rewrite !RC_reverse, fmap_reverse, reverse_involutive, <- list_fmap_compose.
  rewrite <- (list_fmap_id s) at 2. apply list_fmap_ext.
  intros i b _. apply rcTable_at_involutive.
Qed.

(** C8, as the claim states it, fails: the table also complements the
    IUPAC ambiguity codes, so ['B'], which is not one of [ACGTacgt], is
    not mapped to itself but to ['V']. *)
Lemma rcTable_not_identity_off_acgt :
  is_acgt "B"%byte = false /\ rcTable_at "B"%byte = "V"%byte.
Proof. split; reflexivity. Qed.

(** C8, amended. [rcTable] is an involution on every byte; it is the
    identity exactly on the bytes that are neither in [ACGTacgt] nor in
    [BDHKMRVYbdhkmrvy]; and [RC (RC s) = s] for every byte sequence. *)
Theorem rcTable_RC_involution :
  (forall b, rcTable_at (rcTable_at b) = b) /\
  (forall b, rcTable_at b = b <->
             is_acgt b = false /\ is_ambiguity_pair b = false) /\
  (forall s, RC (RC s) = s).
Proof.
  split; [exact rcTable_at_involutive |].
  split; [| exact RC_involutive].
  intros b. split.
  - intros Heq. destruct (is_acgt b || is_ambiguity_pair b) eqn:E.
    + exfalso. exact (rcTable_at_moved b E Heq).
    + apply orb_false_iff in E. exact E.
  - intros [H1 H2]. apply rcTable_at_fixed; assumption.
Qed.

End ReverseComplement.

(** ** [Chainer2.Chain] *)

Section Chainer2Proofs.
Import Int Chain2.

Lemma index_at_Some {A} (l : list A) i :
  0 <= i < Z.of_nat (length l) -> exists x, index_at l i = Some x.
Proof.
  intros Hi. unfold index_at. destruct (Z.ltb_spec0 i 0); [lia |].
  destruct (lookup_lt_is_Some_2 l (Z.to_nat i) ltac:(lia)) as [x Hx]. eauto.
Qed.

(** The dynamic program never indexes out of range. *)
Lemma band_loop_total opts subs scores a i nb :
  forall _b m mj,
    1 <= _b -> i <= Z.of_nat (length subs) -> i <= Z.of_nat (length scores) ->
    exists r, band_loop nb _b opts subs scores a i m mj = Some r.
Proof.
  induction nb as [| nb IH]; intros _b m mj Hb Hsubs Hscores; [simpl; eauto |].
  cbn [band_loop]. destruct (Z.ltb_spec0 (i - _b) 0); [eauto |].
  destruct (index_at_Some subs (i - _b) ltac:(lia)) as [b ->].
  destruct (index_at_Some scores (i - _b) ltac:(lia)) as [sj ->].
  repeat (destruct (_ <? _)); try destruct (_ <=? _); apply IH; lia.
Qed.

Lemma score_loop_total opts subs rest :
  forall i sc,
    1 <= i -> i + Z.of_nat (length rest) = Z.of_nat (length subs) ->
    Z.of_nat (length (maxscores sc)) = i -> scores_inv sc ->
    exists sc', score_loop rest i opts subs sc = Some sc' /\
                length (maxscores sc') = length subs /\ scores_inv sc'.
Proof.
  induction rest as [| a rest IH]; intros i sc Hi Hlen Hsc Hinv.
  - simpl in *. exists sc. repeat split; auto. lia.
  - cbn [score_loop].
    destruct (band_loop_total opts subs (maxscores sc) a i (Z.to_nat (Band opts))
                1 (Index.Len a) i ltac:(lia) ltac:(simpl in Hlen; lia) ltac:(lia))
      as [[m mj] ->].
    apply IH.
    + lia.
    + simpl in Hlen. lia.
    + cbn [maxscores]. rewrite length_app. simpl. lia.
    + unfold scores_inv in *. cbn [M maxscores].
      destruct (M sc <? m); cbn [fst].
      * right. apply elem_of_app. right. left.
      * destruct Hinv as [H0 | Hin]; [left; exact H0 |].
        right. apply elem_of_app. left. exact Hin.
Qed.

Lemma compute_scores_total opts subs :
  subs <> [] ->
  exists sc, compute_scores opts subs = Some sc /\
             length (maxscores sc) = length subs /\ scores_inv sc.
Proof.
  destruct subs as [| s0 rest]; [congruence |]. intros _.
  unfold compute_scores. apply score_loop_total.
  - lia.
  - simpl. lia.
  - reflexivity.
  - left. reflexivity.
Qed.

(** When every score is below the cut, so is [M]. *)
Lemma M_below_cut sc :
  scores_inv sc -> Forall (fun s => s < early_exit_score) (maxscores sc) ->
  M sc < early_exit_score.
Proof.
  intros [H0 | Hin] Hall.
  - rewrite H0. reflexivity.
  - rewrite Forall_forall in Hall. apply Hall. exact Hin.
Qed.

(** C4, as the claim states it, fails for a list of one anchor: [Chain]
    answers before any score is computed, and a single anchor of length 50
    (not below [MinScore = 20]) gives one chain with 50 matched and 50
    aligned bases, although the only score, 50, is below 100. *)
Lemma Chain_single_anchor_below_cut :
  let subs := [Index.mkSubstrPair 0 0 50 0 false false] in
  compute_scores DefaultChaining2Options subs = Some (mkScores [50] [0] 0 0) /\
  Chainer2_Chain DefaultChaining2Options subs
  = Some ([mkChain2Result [0] 0 0 0 0 0 0], 50, 50, (0, 0, 0, 0)).
Proof. split; reflexivity. Qed.

(** C4, amended.  For every list of at least two anchors the scores are
    computed, and if their maximum [M] is below 100 (in particular if
    every score is), [Chain] returns no chain, zero matched and zero
    aligned bases.  A list of one anchor is answered from [MinScore]
    alone: one chain [[0]] with the length of the anchor as matched and
    aligned bases when the length is at least [MinScore], and no chain
    otherwise. *)
Theorem Chain_early_exit opts subs :
  (2 <= length subs)%nat ->
  (exists sc,
     compute_scores opts subs = Some sc /\
     length (maxscores sc) = length subs /\
     (Forall (fun s => s < 100) (maxscores sc) -> M sc < 100) /\
     (M sc < 100 -> Chainer2_Chain opts subs = Some ([], 0, 0, (0, 0, 0, 0)))) /\
  (forall s,
     Chainer2_Chain opts [s]
     = if MinScore opts <=? Index.Len s
       then Some ([mkChain2Result [0] 0 0 0 0 0 0], Index.Len s, Index.Len s,
                  (0, 0, 0, 0))
       else Some ([], 0, 0, (0, 0, 0, 0))).
Proof.
  intros Hlen. split; [| reflexivity].
  destruct (compute_scores_total opts subs) as (sc & Hsc & Hlen' & Hinv).
  { intros ->. simpl in Hlen. lia. }
  exists sc. repeat split; auto.
  - apply M_below_cut. exact Hinv.
  - intros HM. unfold Chainer2_Chain.
    destruct subs as [| s0 [| s1 rest]]; [simpl in Hlen; lia .. |].
    rewrite Hsc. unfold early_exit_score.
    destruct (Z.ltb_spec0 (M sc) 100); [reflexivity | lia].
Qed.

Lemma Chain_early_exit_witness :
  Chainer2_Chain DefaultChaining2Options
    [Index.mkSubstrPair 0 0 30 0 false false;
     Index.mkSubstrPair 40 40 30 0 false false]
  = Some ([], 0, 0, (0, 0, 0, 0)).
Proof.
  destruct (Chain_early_exit DefaultChaining2Options
              [Index.mkSubstrPair 0 0 30 0 false false;
               Index.mkSubstrPair 40 40 30 0 false false]
              ltac:(simpl; lia)) as [(sc & Hsc & _ & _ & Hexit) _].
  apply Hexit. injection Hsc as <-. reflexivity.
Defined.

End Chainer2Proofs.
(** ** The single-seed prefilter *)

Section Prefilter.
Import Int Index.

Lemma preprocess_omap pdqsort_func opt K m :
  preprocess pdqsort_func opt K m = omap (preprocess_target pdqsort_func opt K) m.
Proof.
  unfold preprocess.
  assert (forall rs,
            fold_left (fun rs r => match preprocess_target pdqsort_func opt K r with
                                   | Some r' => rs ++ [r']
                                   | None => rs
                                   end) m rs
            = rs ++ omap (preprocess_target pdqsort_func opt K) m) as H.
  { induction m as [| r m IH]; intros rs; simpl.
    - rewrite app_nil_r. reflexivity.
    - rewrite IH. destruct (preprocess_target pdqsort_func opt K r); [| reflexivity].
      rewrite <- app_assoc. reflexivity. }
  apply (H []).
Qed.

(** C3, as the claim states it, fails in both directions of the
    mismatch check.  With the check on ([MaxMismatch = 3], [K = 31],
    [MinPrefix = 15]) a single anchor of length 25, not below
    [MinSinglePrefix = 20], with 5 mismatches is dropped.  With the check
    off because [MaxMismatch = 20] is not below [K - MinPrefix = 16], a
    single anchor of length 16 with 2 mismatches, not above [MaxMismatch],
    is dropped as well.  A list of one anchor is not sorted at all, so
    this is so whatever [pdqsort_func] is. *)
Lemma prefilter_drops_long_single_seed :
  let long_seed := mkSubstrPair 100 2000 25 5 false false in
  let close_seed := mkSubstrPair 100 2000 16 2 false false in
  (MinSinglePrefix (mkOptions 15 3 20) <= Len long_seed /\
   forall pdqsort_func,
     ClearSubstrPairs pdqsort_func [long_seed] 31 = [long_seed] /\
     preprocess_target pdqsort_func (mkOptions 15 3 20) 31
                       (mkTarget 7 [long_seed] 0) = None /\
     preprocess pdqsort_func (mkOptions 15 3 20) 31 [mkTarget 7 [long_seed] 0] = []) /\
  (Mismatch close_seed <= MaxMismatch (mkOptions 15 20 20) /\
   forall pdqsort_func,
     ClearSubstrPairs pdqsort_func [close_seed] 31 = [close_seed] /\
     preprocess_target pdqsort_func (mkOptions 15 20 20) 31
                       (mkTarget 7 [close_seed] 0) = None /\
     preprocess pdqsort_func (mkOptions 15 20 20) 31 [mkTarget 7 [close_seed] 0] = []).
Proof.
  cbv zeta. split; (split; [simpl; lia |]); intros pdqsort_func;
    repeat split; reflexivity.
Qed.

(** C3, amended.  A target whose cleaned anchor list has exactly one
    anchor is kept, and scored, exactly when: with the mismatch check on
    ([0 <= MaxMismatch < K - MinPrefix]), the mismatches of the anchor are
    at most [MaxMismatch]; with the check off, the length of the anchor is
    at least [MinSinglePrefix].  A target that fails the test never reaches
    the list that is chained.  This is so whatever [sort.Slice] does with
    a slice of more than 12 anchors. *)
Theorem single_seed_prefilter pdqsort_func opt K r sub :
  ClearSubstrPairs pdqsort_func (Subs r) K = [sub] ->
  let kept :=
    if checkMismatch opt K then Mismatch sub <= MaxMismatch opt
    else MinSinglePrefix opt <= Len sub in
  (kept ->
   preprocess_target pdqsort_func opt K r
   = Some (mkTarget (RefBatchAndIdx r) [sub] (Score r + u8 (Len sub * Len sub)))) /\
  (preprocess_target pdqsort_func opt K r <> None -> kept) /\
  (forall m, preprocess pdqsort_func opt K m
             = omap (preprocess_target pdqsort_func opt K) m).
Proof.
  intros Hclear kept.
  unfold preprocess_target. rewrite Hclear. subst kept. unfold keep_single.
  split; [| split; [| intros m; apply preprocess_omap]].
  - destruct (checkMismatch opt K); intros Hk.
    + destruct (Z.ltb_spec0 (MaxMismatch opt) (Mismatch sub)); [lia | reflexivity].
    + destruct (Z.ltb_spec0 (Len sub) (MinSinglePrefix opt)); [lia | reflexivity].
  - destruct (checkMismatch opt K).
    + destruct (Z.ltb_spec0 (MaxMismatch opt) (Mismatch sub)); [congruence | lia].
    + destruct (Z.ltb_spec0 (Len sub) (MinSinglePrefix opt)); [congruence | lia].
Qed.

(** Three anchors of one target, two of them within the first one: the
    one anchor left has 5 mismatches and the check is off. *)
Lemma single_seed_prefilter_witness :
  preprocess_target insertionSort (mkOptions 15 (-1) 20) 31
    (mkTarget 7 [mkSubstrPair 102 2002 20 1 false false;
                 mkSubstrPair 100 2000 25 5 false false;
                 mkSubstrPair 100 2000 25 5 false false] 0)
  = Some (mkTarget 7 [mkSubstrPair 100 2000 25 5 false false] 113).
Proof.
  apply (single_seed_prefilter insertionSort (mkOptions 15 (-1) 20) 31
           (mkTarget 7 [mkSubstrPair 102 2002 20 1 false false;
                        mkSubstrPair 100 2000 25 5 false false;
                        mkSubstrPair 100 2000 25 5 false false] 0)
           (mkSubstrPair 100 2000 25 5 false false) eq_refl).
  simpl. lia.
Defined.

End Prefilter.

(** ** [ClearSubstrPairs] *)

Section InsertionSort.
Import Index.
Context {A : Type} (lt : A -> A -> bool) (P : A -> Prop).
Hypothesis lt_total : forall a b, P a -> P b -> lt a b = true \/ lt b a = true.
Hypothesis lt_trans :
  forall a b c, P a -> P b -> P c -> lt a b = true -> lt b c = true -> lt a c = true.

Lemma insert_back_Permutation x rp : insert_back lt x rp ≡ₚ x :: rp.
Proof.
  induction rp as [| p rp IH]; simpl; [reflexivity |].
  destruct (lt x p); [| reflexivity].
  rewrite IH. apply Permutation_swap.
Qed.

Lemma insert_back_sorted x rp :
  P x -> Forall P rp ->
  StronglySorted (fun p q => lt q p = true) rp ->
  StronglySorted (fun p q => lt q p = true) (insert_back lt x rp).
Proof.
  intros Hx HP Hs. induction Hs as [| p rp Hs IH Hp]; simpl.
  - repeat constructor.
  - apply Forall_cons in HP. destruct HP as [HPp HP].
    destruct (lt x p) eqn:E.
    + constructor; [apply IH; exact HP |].
      rewrite (insert_back_Permutation x rp). constructor; assumption.
    + destruct (lt_total x p Hx HPp) as [Hxp | Hpx]; [congruence |].
      constructor; [constructor; assumption |].
      constructor; [exact Hpx |].
      rewrite Forall_forall in Hp, HP |- *. intros q Hq.
      apply (lt_trans q p x); auto.
Qed.

Lemma fold_insert_back l : forall rp,
  Forall P l -> Forall P rp ->
  StronglySorted (fun p q => lt q p = true) rp ->
  let rp' := fold_left (fun rp x => insert_back lt x rp) l rp in
  rp' ≡ₚ reverse l ++ rp /\ Forall P rp' /\
  StronglySorted (fun p q => lt q p = true) rp'.
Proof.
  induction l as [| x l IH]; intros rp Hl Hrp Hs; simpl.
  - auto.
  - apply Forall_cons in Hl. destruct Hl as [Hx Hl].
    destruct (IH (insert_back lt x rp) Hl) as (Hperm & HP & Hsorted).
    + rewrite (insert_back_Permutation x rp). constructor; assumption.
    + apply insert_back_sorted; assumption.
    + split; [| auto].
      rewrite Hperm, (insert_back_Permutation x rp), reverse_cons, <- app_assoc.
      reflexivity.
Qed.

Lemma StronglySorted_reverse (R : A -> A -> Prop) l :
  StronglySorted (fun p q => R q p) l -> StronglySorted R (reverse l).
Proof.
  induction 1 as [| x l Hs IH Hx]; [constructor |].
  rewrite reverse_cons. apply StronglySorted_app_2; [| exact IH | repeat constructor].
  intros a b Ha Hb. apply list_elem_of_singleton in Hb. subst b.
  rewrite elem_of_reverse in Ha. rewrite Forall_forall in Hx. auto.
Qed.

Lemma insertionSort_Permutation l : insertionSort lt l ≡ₚ l.
Proof.
  unfold insertionSort.
  assert (forall rp, fold_left (fun rp x => insert_back lt x rp) l rp ≡ₚ reverse l ++ rp)
    as H.
  { induction l as [| x l IH]; intros rp; simpl; [reflexivity |].
    rewrite IH, insert_back_Permutation, reverse_cons, <- app_assoc. reflexivity. }
  rewrite reverse_Permutation, H, app_nil_r, reverse_Permutation. reflexivity.
Qed.

Lemma insertionSort_sorted l :
  Forall P l -> StronglySorted (fun a b => lt a b = true) (insertionSort lt l).
Proof.
  intros Hl. unfold insertionSort.
  destruct (fold_insert_back l [] Hl) as (_ & _ & Hs); [constructor .. |].
  apply StronglySorted_reverse. exact Hs.
Qed.

End InsertionSort.

Section ClearSubstrPairsProofs.
Import Int Index.

Lemma i32_small x : - 2 ^ 31 <= x < 2 ^ 31 -> i32 x = x.
Proof. intros Hx. unfold i32. rewrite Z.mod_small; lia. Qed.

Lemma qend32_exact k a : no_overflow k a -> qend32 a = qend a.
Proof.
  unfold no_overflow, qend32, qend. intros H. apply i32_small. lia.
Qed.

Lemma tend32_exact k a : no_overflow k a -> tend32 a = tend a.
Proof.
  unfold no_overflow, tend32, tend. intros H. apply i32_small. lia.
Qed.

Lemma less_exact_iff k a b :
  no_overflow k a -> no_overflow k b -> less a b = true <-> less_exact a b.
Proof.
  intros Ha Hb. unfold less, less_exact.
  rewrite (qend32_exact k a Ha), (qend32_exact k b Hb).
  destruct (Z.eqb_spec (QBegin a) (QBegin b)).
  - destruct (Z.eqb_spec (qend a) (qend b)).
    + rewrite Z.leb_le. lia.
    + rewrite Z.ltb_lt. lia.
  - rewrite Z.ltb_lt. lia.
Qed.

Lemma less_total k a b :
  no_overflow k a -> no_overflow k b -> less a b = true \/ less b a = true.
Proof.
  intros Ha Hb. rewrite (less_exact_iff k a b), (less_exact_iff k b a) by assumption.
  unfold less_exact. lia.
Qed.

Lemma less_trans k a b c :
  no_overflow k a -> no_overflow k b -> no_overflow k c ->
  less a b = true -> less b c = true -> less a c = true.
Proof.
  intros Ha Hb Hc.
  rewrite (less_exact_iff k a b), (less_exact_iff k b c), (less_exact_iff k a c)
    by assumption.
  unfold less_exact. lia.
Qed.

Lemma less_exact_by_query a b : less_exact a b -> by_query a b.
Proof. unfold less_exact, by_query. lia. Qed.

(** Of two anchors in sorted order, the first can lie within the second
    only if they cover the same intervals. *)
Lemma nested_in_later a b : less_exact a b -> nested a b -> nested b a.
Proof. unfold less_exact, nested, qend, tend. lia. Qed.

(** *** The marking loop *)

Lemma check_previous_complete s k v : forall n j p,
  - 2 ^ 31 <= k < 2 ^ 31 -> no_overflow k v -> Forall (no_overflow k) s ->
  (n <= length s)%nat -> (j < n)%nat -> s !! j = Some p ->
  qend v <= qend p -> TBegin p <= TBegin v -> tend v <= tend p ->
  (forall j' p', (j <= j' < n)%nat -> s !! j' = Some p' -> qend v - k <= QBegin p') ->
  check_previous s k v n = true.
Proof.
  induction n as [| n IH]; intros j p Hk Hv Hs Hn Hj Hp Hq Ht Hte Hwin; [lia |].
  cbn [check_previous].
  destruct (lookup_lt_is_Some_2 s n ltac:(lia)) as [p' Hp'].
  rewrite Hp'. cbv zeta.
  assert (no_overflow k p') as Hp'ok.
  { rewrite Forall_forall in Hs. apply Hs. eapply list_elem_of_lookup_2. exact Hp'. }
  rewrite (qend32_exact k v Hv), (tend32_exact k v Hv).
  rewrite (qend32_exact k p' Hp'ok), (tend32_exact k p' Hp'ok).
  rewrite (i32_small k Hk).
  rewrite (i32_small (qend v - k)) by (unfold no_overflow in Hv; lia).
  pose proof (Hwin n p' ltac:(lia) Hp') as Hlow.
  destruct (Z.ltb_spec0 (QBegin p') (qend v - k)); [lia |].
  destruct ((qend v <=? qend p') && (TBegin p' <=? TBegin v) && (tend v <=? tend p'))
    eqn:Econd; [reflexivity |].
  assert (j <> n) as Hne.
  { intros ->. rewrite Hp in Hp'. injection Hp' as <-.
    rewrite !andb_false_iff, !Z.leb_gt in Econd. lia. }
  apply (IH j p); auto; try lia.
  intros j' p'' Hj' Hp''. apply (Hwin j' p''); [lia | exact Hp''].
Qed.

(** *** The compaction loop *)

Lemma compact_spec markers : forall i j cur s' j',
  (j <= i)%nat -> (length markers + i = length cur)%nat ->
  compact markers i j cur = (s', j') ->
  take j' s' = take j cur ++ keep_unmarked markers (drop i cur) /\
  j' = (j + length (keep_unmarked markers (drop i cur)))%nat.
Proof.
  induction markers as [| embedded markers IH]; intros i j cur s' j' Hji Hlen H.
  - simpl in H. injection H as <- <-. simpl. rewrite app_nil_r. auto.
  - simpl in Hlen.
    destruct (lookup_lt_is_Some_2 cur i ltac:(lia)) as [v Hv].
    cbn [compact] in H. rewrite (drop_S _ _ _ Hv). cbn [keep_unmarked].
    destruct embedded.
    + apply IH in H; [exact H | lia | lia].
    + rewrite Hv in H. apply IH in H; [| lia | rewrite length_insert; lia].
      destruct H as [Htake ->].
      rewrite drop_insert_lt in Htake |- * by lia.
      rewrite (take_S_r _ _ v) in Htake
        by (apply list_lookup_insert_eq; apply lookup_lt_Some in Hv; lia).
      rewrite take_insert_ge in Htake by lia.
      rewrite <- app_assoc in Htake. simpl in *. split; [exact Htake | lia].
Qed.

(** *** The anchors that are kept *)

Lemma keep_unmarked_spec s k :
  - 2 ^ 31 <= k < 2 ^ 31 ->
  Forall (no_overflow k) s -> Forall (fun a => Len a <= k) s ->
  StronglySorted less_exact s ->
  forall pre suf, s = pre ++ suf ->
    let kept :=
      keep_unmarked (imap (fun i v => check_previous s k v (length pre + i)) suf) suf in
    Forall (fun e => e ∈ suf /\ forall p, p ∈ pre -> ~ nested e p) kept /\
    StronglySorted less_exact kept /\
    StronglySorted no_nesting kept.
Proof.
  intros Hk Hok Hlen Hsorted pre suf. revert pre.
  induction suf as [| v suf IH]; intros pre Hs.
  - simpl. repeat split; constructor.
  - cbv zeta. rewrite imap_cons. cbn [keep_unmarked].
    specialize (IH (pre ++ [v])). rewrite <- app_assoc in IH.
    specialize (IH Hs). cbv zeta in IH.
    rewrite (imap_ext _ ((fun i v0 => check_previous s k v0 (length pre + i)) ∘ S))
      in IH.
    2:{ intros i x _. simpl. rewrite length_app. simpl. f_equal. lia. }
    destruct IH as (Hkept & Hkept_sorted & Hkept_nest).
    assert (Forall (fun e => e ∈ v :: suf /\ forall p, p ∈ pre -> ~ nested e p)
              (keep_unmarked
                 (imap ((fun i v0 => check_previous s k v0 (length pre + i)) ∘ S) suf)
                 suf)) as Hkept'.
    { eapply Forall_impl; [exact Hkept |]. intros e [He Hpre]. split.
      - right. exact He.
      - intros p Hp. apply Hpre. apply elem_of_app. left. exact Hp. }
    destruct (check_previous s k v (length pre + 0)) eqn:Echeck; [auto |].
    assert (no_overflow k v) as Hv.
    { rewrite Forall_forall in Hok. apply Hok. rewrite Hs.
      apply elem_of_app. right. left. }
    assert (forall e, e ∈ suf -> less_exact v e) as Hafter.
    { rewrite Hs in Hsorted. apply StronglySorted_app_1_r in Hsorted.
      apply StronglySorted_inv in Hsorted. destruct Hsorted as [_ Hv'].
      rewrite Forall_forall in Hv'. exact Hv'. }
    assert (forall p, p ∈ pre -> ~ nested v p) as Hv_pre.
    { intros p Hp Hnest.
      apply list_elem_of_lookup in Hp. destruct Hp as [j Hj].
      assert (check_previous s k v (length pre + 0) = true); [| congruence].
      assert (s !! j = Some p) as Hsj by (rewrite Hs; apply lookup_app_l_Some; exact Hj).
      pose proof (lookup_lt_Some _ _ _ Hj) as Hjlt.
      assert (no_overflow k p) as Hp_ok.
      { rewrite Forall_forall in Hok. apply Hok. eapply list_elem_of_lookup_2. exact Hsj. }
      assert (Len p <= k) as Hp_len.
      { rewrite Forall_forall in Hlen. apply Hlen. eapply list_elem_of_lookup_2. exact Hsj. }
      destruct Hnest as (Hq1 & Hq2 & Ht1 & Ht2).
      apply (check_previous_complete s k v _ j p); auto.
      - rewrite Hs, length_app. simpl. lia.
      - lia.
      - intros j' p' Hj' Hp'.
        assert (QBegin p <= QBegin p'); [| unfold qend in *; lia].
        destruct (decide (j' = j)) as [-> | Hne].
        { rewrite Hsj in Hp'. injection Hp' as <-. lia. }
        assert (less_exact p p'); [| unfold less_exact in *; lia].
        rewrite <- (take_drop_middle s j p Hsj) in Hsorted, Hp'.
        apply StronglySorted_app_1_r in Hsorted.
        apply StronglySorted_inv in Hsorted. destruct Hsorted as [_ Hall].
        rewrite Forall_forall in Hall. apply Hall.
        rewrite lookup_app_r in Hp' by (rewrite length_take; lia).
        rewrite length_take in Hp'.
        replace (j' - j `min` length s)%nat with (S (j' - j - 1)) in Hp'
          by (apply lookup_lt_Some in Hsj; lia).
        simpl in Hp'. eapply list_elem_of_lookup_2. exact Hp'. }
    repeat split.
    + constructor; [| exact Hkept'].
      split; [left | exact Hv_pre].
    + constructor; [exact Hkept_sorted |].
      eapply Forall_impl; [exact Hkept |]. intros e [He _]. apply Hafter. exact He.
    + constructor; [exact Hkept_nest |].
      eapply Forall_impl; [exact Hkept |]. intros e [He Hpre].
      assert (~ nested e v) as Hev.
      { apply Hpre. apply elem_of_app. right. left. }
      split; [| exact Hev].
      intros Hve. apply Hev. apply nested_in_later; [apply Hafter; exact He | exact Hve].
Qed.


(** *** [ClearSubstrPairs] *)

Lemma StronglySorted_impl_on {A} (P : A -> Prop) (R R' : A -> A -> Prop) l :
  (forall a b, P a -> P b -> R a b -> R' a b) ->
  Forall P l -> StronglySorted R l -> StronglySorted R' l.
Proof.
  intros Himpl HP Hs. induction Hs as [| x l Hs IH Hx]; [constructor |].
  apply Forall_cons in HP. destruct HP as [HPx HP].
  constructor; [apply IH; exact HP |].
  rewrite Forall_forall in Hx, HP |- *. intros y Hy. apply Himpl; auto.
Qed.

(** [sort.Slice] rearranges the anchors: up to 12 of them by the
    insertion sort, more when [pdqsort_func] does. *)
Lemma sort_Slice_perm {A} pdqsort_func (lt : A -> A -> bool) (l : list A) :
  ((12 < length l)%nat -> pdqsort_func lt l ≡ₚ l) ->
  sort_Slice pdqsort_func lt l ≡ₚ l.
Proof.
  intros H. unfold sort_Slice.
  destruct (Nat.leb_spec (length l) 12); [| apply H; lia].
  apply (insertionSort_Permutation lt).
Qed.

(** [sort.Slice] sorts anchors by [less] when nothing wraps around: up
    to 12 of them by the insertion sort, more when [pdqsort_func] does. *)
Lemma sort_Slice_sorts pdqsort_func subs k :
  Forall (no_overflow k) subs ->
  ((12 < length subs)%nat -> sorts less subs (pdqsort_func less subs)) ->
  sorts less subs (sort_Slice pdqsort_func less subs).
Proof.
  intros Hok H. unfold sort_Slice.
  destruct (Nat.leb_spec (length subs) 12); [| apply H; lia].
  split.
  - apply (insertionSort_Permutation less).
  - exact (insertionSort_sorted less (no_overflow k) (less_total k)
                                (less_trans k) subs Hok).
Qed.

(** The statement for any sorting function that returns its argument
    rearranged and sorted by [less]. *)
Lemma ClearSubstrPairs_by_spec sort subs k :
  sort less subs ≡ₚ subs ->
  StronglySorted (fun a b => less a b = true) (sort less subs) ->
  - 2 ^ 31 <= k < 2 ^ 31 ->
  Forall (no_overflow k) subs -> Forall (fun a => Len a <= k) subs ->
  let res := ClearSubstrPairs_by sort subs k in
  StronglySorted by_query res /\ StronglySorted no_nesting res /\
  (forall a, a ∈ res -> a ∈ subs).
Proof.
  intros Hperm Hsorted Hk Hok Hlen res. subst res. unfold ClearSubstrPairs_by.
  destruct (Nat.ltb_spec (length subs) 2) as [Hshort | Hlong].
  - destruct subs as [| a [| b subs]]; [| | simpl in Hshort; lia];
      repeat split; auto; repeat constructor.
  - set (sorted := sort less subs) in *.
    assert (Forall (no_overflow k) sorted) as Hok' by (rewrite Hperm; exact Hok).
    assert (Forall (fun a => Len a <= k) sorted) as Hlen' by (rewrite Hperm; exact Hlen).
    assert (StronglySorted less_exact sorted) as Hexact.
    { eapply StronglySorted_impl_on; [| exact Hok' | exact Hsorted].
      intros a b Ha Hb. apply (less_exact_iff k); assumption. }
    destruct (keep_unmarked_spec sorted k Hk Hok' Hlen' Hexact [] sorted eq_refl)
      as (Hkept & Hkept_sorted & Hkept_nest).
    cbn [length Nat.add] in *. fold (mark_embedded sorted k) in *.
    set (kept := keep_unmarked (mark_embedded sorted k) sorted) in *.
    destruct (compact (mark_embedded sorted k) 0 0 sorted) as [subs' j] eqn:Ecompact.
    apply compact_spec in Ecompact;
      [| lia | unfold mark_embedded; rewrite length_imap; lia].
    rewrite drop_0 in Ecompact. fold kept in Ecompact. simpl in Ecompact.
    destruct Ecompact as [Htake ->].
    assert (0 < length kept)%nat as Hne.
    { subst kept. unfold mark_embedded.
      destruct sorted as [| v sorted'] eqn:Es.
      - apply Permutation_length in Hperm. simpl in Hperm. lia.
      - rewrite imap_cons. simpl. lia. }
    destruct (Nat.ltb_spec 0 (length kept)); [| lia].
    rewrite Htake.
    repeat split.
    + eapply StronglySorted_impl_on with (P := fun _ => True);
        [| apply Forall_true; auto | exact Hkept_sorted].
      intros a b _ _. apply less_exact_by_query.
    + exact Hkept_nest.
    + intros a Ha. rewrite <- Hperm.
      rewrite Forall_forall in Hkept. apply Hkept. exact Ha.
Qed.

(** C7, as the claim states it, fails when a sum wraps around in
    [int32]: of these two anchors, which begin at 2^31 - 10 and have the
    lengths 20 and 5 (not above [k = 32]), both are kept, the shorter one
    first, although it lies within the longer one in the query and in the
    target and ends before it.  The two anchors are sorted by the
    insertion sort, whatever [pdqsort_func] is. *)
Lemma ClearSubstrPairs_int32_wrap :
  let a := mkSubstrPair (2 ^ 31 - 10) 0 20 0 false false in
  let b := mkSubstrPair (2 ^ 31 - 10) 0 5 0 false false in
  Forall (fun v => Len v <= 32) [a; b] /\
  (forall pdqsort_func, ClearSubstrPairs pdqsort_func [a; b] 32 = [b; a]) /\
  nested b a /\ qend b < qend a.
Proof.
  cbv zeta. split; [repeat constructor; simpl; lia |].
  split; [intros pdqsort_func; vm_compute; reflexivity |].
  unfold nested, qend, tend. simpl. lia.
Qed.

(** C7, amended.  For every anchor list whose anchors all have
    [Len <= k], and for which no [int32] computation of [ClearSubstrPairs]
    wraps around ([k], the begins, the ends [QBegin + Len] and
    [TBegin + Len], and [QBegin + Len - k] are [int32] values), the anchors
    that [ClearSubstrPairs] keeps are sorted by [QBegin] upwards, ties by
    query end downwards; none of them has its query interval and its
    target interval within those of another one that is kept; and each is
    one of the anchors given.  For up to 12 anchors this is so as it
    stands; for more, it is so whenever [pdqsort_func] returns the
    anchors rearranged and sorted by [less]. *)
Theorem ClearSubstrPairs_sorted_no_nesting pdqsort_func subs k :
  - 2 ^ 31 <= k < 2 ^ 31 ->
  Forall (no_overflow k) subs -> Forall (fun a => Len a <= k) subs ->
  ((12 < length subs)%nat -> sorts less subs (pdqsort_func less subs)) ->
  let res := ClearSubstrPairs pdqsort_func subs k in
  StronglySorted by_query res /\ StronglySorted no_nesting res /\
  (forall a, a ∈ res -> a ∈ subs).
Proof.
  intros Hk Hok Hlen Hpdq.
  destruct (sort_Slice_sorts pdqsort_func subs k Hok Hpdq) as [Hperm Hsorted].
  apply ClearSubstrPairs_by_spec; auto.
Qed.

Lemma sample_anchors_ok : Forall (no_overflow 31) sample_anchors.
Proof.
  unfold sample_anchors.
  repeat (apply Forall_cons_2; [unfold no_overflow, qend, tend; simpl; lia |]).
  apply Forall_nil_2.
Qed.

Lemma sample_anchors_Len : Forall (fun a => Len a <= 31) sample_anchors.
Proof.
  unfold sample_anchors.
  repeat (apply Forall_cons_2; [simpl; lia |]). apply Forall_nil_2.
Qed.

(** The insertion sort is one of the functions that [pdqsort_func] may
    be. *)
Lemma sample_anchors_sorts :
  sorts less sample_anchors (insertionSort less sample_anchors).
Proof.
  split.
  - apply (insertionSort_Permutation less).
  - exact (insertionSort_sorted less (no_overflow 31) (less_total 31)
                                (less_trans 31) _ sample_anchors_ok).
Qed.

Lemma ClearSubstrPairs_sorted_no_nesting_witness :
  StronglySorted by_query (ClearSubstrPairs insertionSort sample_anchors 31) /\
  StronglySorted no_nesting (ClearSubstrPairs insertionSort sample_anchors 31) /\
  (forall a, a ∈ ClearSubstrPairs insertionSort sample_anchors 31 ->
             a ∈ sample_anchors).
Proof.
  apply (ClearSubstrPairs_sorted_no_nesting insertionSort sample_anchors 31).
  - lia.
  - exact sample_anchors_ok.
  - exact sample_anchors_Len.
  - intros _. exact sample_anchors_sorts.
Defined.

End ClearSubstrPairsProofs.
Section NearestAnchor.
Import Int Varint KV.

Lemma index_at_lookup {A} (l : list A) i :
  0 <= i < Z.of_nat (length l) -> exists x, index_at l i = Some x.
Proof.
  intros Hi. unfold index_at. destruct (Z.ltb_spec0 i 0); [lia |].
  destruct (lookup_lt_is_Some_2 l (Z.to_nat i) ltac:(lia)) as [x Hx]. eauto.
Qed.

Lemma find_anchor_bracket index leftBound fuel :
  forall begin end_,
    let last := Z.of_nat (length index) - 2 in
    0 <= begin -> end_ <= last -> begin + 4 <= end_ ->
    begin mod 2 = 0 -> end_ mod 2 = 0 ->
    end_ - begin <= 2 * Z.of_nat fuel ->
    (begin = 0 \/ exists x, index_at index begin = Some x /\ x <= leftBound) ->
    (end_ = last \/ exists y, index_at index end_ = Some y /\ leftBound < y) ->
    exists i, find_anchor fuel index leftBound begin end_ = Ok i /\
              begin <= i /\ i + 2 <= end_ /\ i mod 2 = 0 /\
              (i = 0 \/ exists x, index_at index i = Some x /\ x <= leftBound) /\
              (i + 2 = last \/ exists y, index_at index (i + 2) = Some y /\ leftBound < y).
Proof.
  induction fuel as [| fuel IH]; intros begin end_ last Hb He Hd Hbe Hee Hfuel Hlo Hhi;
    [lia |].
  cbn [find_anchor].
  set (middle0 := begin + Z.shiftr (end_ - begin) 1).
  set (middle := if 0 <? Z.land middle0 1 then middle0 - 1 else middle0).
  assert (middle mod 2 = 0 /\ begin + 2 <= middle <= end_ - 2) as [Hmid Hrange].
  { subst middle middle0. rewrite land_1, Z.shiftr_div_pow2 by lia.
    change (2 ^ 1) with 2.
    destruct (Z.ltb_spec0 0 ((begin + (end_ - begin) / 2) mod 2));
      Z.div_mod_to_equations; lia. }
  destruct (index_at_lookup index middle ltac:(lia)) as [x Ex]. rewrite Ex.
  destruct (Z.ltb_spec0 leftBound x) as [Hlt | Hge]; cbv beta iota.
  - assert (exists y, index_at index middle = Some y /\ leftBound < y) as Hmidhi
      by (exists x; auto).
    destruct (Z.eqb_spec (begin + 2) middle) as [E | NE].
    + exists begin. rewrite E. repeat split; auto; try lia.
    + destruct (IH begin middle Hb ltac:(lia) ltac:(Z.div_mod_to_equations; lia) Hbe Hmid ltac:(lia) Hlo
                   (or_intror Hmidhi)) as (i & Hi & H1 & H2 & H3 & H4 & H5).
      exists i. repeat split; auto; lia.
  - assert (exists y, index_at index middle = Some y /\ y <= leftBound) as Hmidlo
      by (exists x; split; [exact Ex | lia]).
    destruct (Z.eqb_spec (middle + 2) end_) as [E | NE].
    + exists middle. rewrite E. repeat split; auto; try lia.
    + destruct (IH middle end_ ltac:(lia) He ltac:(Z.div_mod_to_equations; lia) Hmid Hee ltac:(lia)
                   (or_intror Hmidlo) Hhi) as (i & Hi & H1 & H2 & H3 & H4 & H5).
      exists i. repeat split; auto; lia.
Qed.

(** X1. On the index of a mask with three anchors or
    more, the binary search of [Search] ends and returns the nearest
    anchor: an even position [i] such that the anchor at [i] is the first
    one or has a k-mer not above [leftBound], and the anchor after it is
    the last one or has a k-mer above [leftBound]. *)
Theorem find_anchor_nearest fuel index leftBound :
  Z.of_nat (length index) mod 2 = 0 -> (6 <= length index)%nat ->
  (length index <= fuel)%nat ->
  exists i, find_anchor fuel index leftBound 0 (Z.of_nat (length index) - 2) = Ok i /\
            nearest_anchor index leftBound i.
Proof.
  intros Heven Hlen Hfuel.
  destruct (find_anchor_bracket index leftBound fuel 0 (Z.of_nat (length index) - 2))
    as (i & Hi & H0 & H2 & Hev & Hlo & Hhi); auto; try lia.
  { Z.div_mod_to_equations. lia. }
  exists i. split; [exact Hi |]. unfold nearest_anchor. cbv zeta.
  repeat split; auto; lia.
Qed.

Lemma find_anchor_nearest_witness :
  exists i, find_anchor 6 sample_index3 13 0 (Z.of_nat (length sample_index3) - 2) = Ok i /\
            nearest_anchor sample_index3 13 i.
Proof.
  apply (find_anchor_nearest 6 sample_index3 13); [reflexivity | simpl; lia | simpl; lia].
Defined.

Lemma find_anchor_stuck index leftBound i fuel x :
  index_at index i = Some x -> i mod 2 = 0 ->
  find_anchor fuel index leftBound i i = OutOfFuel.
Proof.
  intros Ex Hev. induction fuel as [| fuel IH]; [reflexivity |].
  cbn [find_anchor]. rewrite Z.sub_diag. change (Z.shiftr 0 1) with 0.
  rewrite Z.add_0_r, land_1, Hev. cbn [Z.ltb Z.compare]. rewrite Ex.
  destruct (leftBound <? x); cbv beta iota;
    (destruct (Z.eqb_spec (i + 2) i); [lia | exact IH]).
Qed.

(** X2. The binary search of [Search] needs three
    anchors.  On an empty index it panics at [index[middle]]; on an index
    with one anchor it never ends; on an index with two anchors it never
    ends when [leftBound] is below the first k-mer, and returns the first
    anchor otherwise. *)
Theorem find_anchor_small_index fuel leftBound :
  find_anchor (S fuel) [] leftBound 0 (-2) = Err IndexOutOfRange /\
  (forall a o, find_anchor fuel [a; o] leftBound 0 0 = OutOfFuel) /\
  (forall a0 o0 a1 o1,
     find_anchor (S fuel) [a0; o0; a1; o1] leftBound 0 2
     = if leftBound <? a0 then OutOfFuel else Ok 0).
Proof.
  split; [reflexivity |]. split.
  - intros a o. apply (find_anchor_stuck _ _ 0 _ a); reflexivity.
  - intros a0 o0 a1 o1. cbn [find_anchor].
    change (0 + Z.shiftr (2 - 0) 1) with 1. change (0 <? Z.land 1 1) with true.
    cbv iota. change (1 - 1) with 0.
    change (index_at [a0; o0; a1; o1] 0) with (Some a0). cbv iota.
    destruct (leftBound <? a0); cbv beta iota; [| reflexivity].
    change (0 + 2 =? 0) with false. cbv iota.
    apply (find_anchor_stuck _ _ 0 _ a0); reflexivity.
Qed.
End NearestAnchor.
Section CommonPrefix.
Import Int Varint KV.

Lemma LeadingZeros64_ge y s :
  0 <= y -> 0 <= s -> (64 - s <= LeadingZeros64 y <-> y < 2 ^ s).
Proof.
  intros Hy Hs. unfold LeadingZeros64.
  destruct (Z.eqb_spec y 0) as [-> | Hnz].
  - pose proof (Z.pow_pos_nonneg 2 s ltac:(lia) Hs). lia.
  - pose proof (Z.log2_lt_pow2 y s ltac:(lia)) as Hlog. lia.
Qed.

Lemma lxor_small_iff a b s :
  0 <= a -> 0 <= b -> 0 <= s ->
  (Z.lxor a b < 2 ^ s <-> Z.shiftr a s = Z.shiftr b s).
Proof.
  intros Ha Hb Hs.
  assert (0 <= Z.lxor a b) as H0 by (apply Z.lxor_nonneg; lia).
  pose proof (Z.pow_pos_nonneg 2 s ltac:(lia) Hs).
  split.
  - intros Hlt. apply Z.lxor_eq. rewrite <- Z.shiftr_lxor.
    rewrite Z.shiftr_div_pow2 by lia. apply Z.div_small. lia.
  - intros E.
    assert (Z.shiftr (Z.lxor a b) s = 0) as Hz
      by (rewrite Z.shiftr_lxor, E; apply Z.lxor_nilpotent).
    rewrite Z.shiftr_div_pow2 in Hz by lia.
    apply Z.div_small_iff in Hz; lia.
Qed.

Lemma len_prefix_exact k a b :
  0 <= k <= 32 -> 0 <= a < 2 ^ (2 * k) -> 0 <= b < 2 ^ (2 * k) ->
  len_prefix k a b = LeadingZeros64 (Z.lxor a b) / 2 + k - 32 /\
  64 - 2 * k <= LeadingZeros64 (Z.lxor a b) <= 64.
Proof.
  intros Hk Ha Hb.
  assert (0 <= Z.lxor a b) as H0 by (apply Z.lxor_nonneg; lia).
  assert (Z.lxor a b < 2 ^ (2 * k)) as Hlt.
  { apply lxor_small_iff; try lia.
    rewrite !Z.shiftr_div_pow2, !Z.div_small by lia. reflexivity. }
  pose proof (proj2 (LeadingZeros64_ge _ (2 * k) H0 ltac:(lia)) Hlt) as Hlo.
  pose proof (LeadingZeros64_upper _ H0) as Hhi.
  split; [| lia].
  unfold len_prefix. set (lz := LeadingZeros64 (Z.lxor a b)) in *.
  rewrite Z.shiftr_div_pow2 by lia. change (2 ^ 1) with 2.
  assert (32 - k <= lz / 2 <= 32) by (Z.div_mod_to_equations; lia).
  unfold u8. rewrite (Z.mod_small (lz / 2)) by lia.
  rewrite (Z.mod_small (lz / 2 + k)) by lia.
  rewrite Z.mod_small by lia. lia.
Qed.

(** X3. The [LenPrefix] of a result is the length
    of the longest common prefix of the query and the k-mer found: it is
    at most [k], and for every [p] up to [k] it is at least [p] exactly
    when the first [p] bases of the two k-mers are the same. *)
Theorem len_prefix_common_prefix k a b p :
  0 <= k <= 32 -> 0 <= a < 2 ^ (2 * k) -> 0 <= b < 2 ^ (2 * k) ->
  0 <= p <= k ->
  len_prefix k a b <= k /\
  (p <= len_prefix k a b <->
   Z.shiftr a (2 * (k - p)) = Z.shiftr b (2 * (k - p))).
Proof.
  intros Hk Ha Hb Hp.
  destruct (len_prefix_exact k a b Hk Ha Hb) as [-> Hlz].
  assert (0 <= Z.lxor a b) as H0 by (apply Z.lxor_nonneg; lia).
  split; [Z.div_mod_to_equations; lia |].
  rewrite <- lxor_small_iff by lia.
  rewrite <- (LeadingZeros64_ge _ (2 * (k - p))) by lia.
  Z.div_mod_to_equations; lia.
Qed.

Lemma len_prefix_common_prefix_witness :
  len_prefix 3 9 8 <= 3 /\
  (2 <= len_prefix 3 9 8 <-> Z.shiftr 9 (2 * (3 - 2)) = Z.shiftr 8 (2 * (3 - 2))).
Proof. apply (len_prefix_common_prefix 3 9 8 2); lia. Defined.

Lemma scope_iff_shiftr kmer s x :
  0 <= s -> 0 <= kmer ->
  (Z.land kmer (Z.lnot (2 ^ s - 1)) <= x <= Z.lor kmer (2 ^ s - 1)
   <-> Z.shiftr x s = Z.shiftr kmer s).
Proof.
  intros Hs Hk. split; [apply in_scope_shiftr; exact Hs |].
  intros E. replace (2 ^ s - 1) with (Z.ones s) by (rewrite Z.ones_equiv; lia).
  rewrite land_lnot_ones, lor_ones by lia. rewrite <- E.
  pose proof (shiftr_shiftl_bounds x s Hs). rewrite Z.ones_equiv. lia.
Qed.

(** X4. The search range [leftBound, rightBound]
    that [Search] makes of the query and the minimum prefix [m] holds
    the query and [4^(k-m)] k-mers, and a k-mer is in it exactly when it
    has its first [m] bases in common with the query. *)
Theorem search_scope_common_prefix k kmer m x :
  1 <= m <= k -> k <= 32 -> 0 <= kmer < 2 ^ (2 * k) -> 0 <= x < 2 ^ (2 * k) ->
  let '(leftBound, rightBound) := search_scope k kmer m in
  leftBound <= kmer <= rightBound /\
  rightBound - leftBound + 1 = 4 ^ (k - m) /\
  (leftBound <= x <= rightBound <-> m <= len_prefix k kmer x).
Proof.
  intros Hm Hk Hkmer Hx.
  assert (2 ^ (2 * k) <= 2 ^ 64) as Hpow by (apply Z.pow_le_mono_r; lia).
  rewrite search_scope_spec by lia.
  set (s := 2 * (k - m)).
  split; [apply scope_iff_shiftr; [lia | lia | reflexivity] |].
  split.
  - replace (2 ^ s - 1) with (Z.ones s) by (rewrite Z.ones_equiv; lia).
    rewrite land_lnot_ones, lor_ones by lia. rewrite Z.ones_equiv.
    subst s. rewrite Z.pow_mul_r by lia. change (2 ^ 2) with 4. lia.
  - rewrite scope_iff_shiftr by lia.
    assert (m <= len_prefix k kmer x <-> Z.shiftr kmer s = Z.shiftr x s) as ->.
    { destruct (len_prefix_exact k kmer x ltac:(lia) Hkmer Hx) as [-> Hlz].
      assert (0 <= Z.lxor kmer x) as H0 by (apply Z.lxor_nonneg; lia).
      rewrite <- lxor_small_iff by lia.
      rewrite <- (LeadingZeros64_ge _ s) by lia. subst s.
      Z.div_mod_to_equations; lia. }
    split; congruence.
Qed.

Lemma search_scope_common_prefix_witness :
  let '(leftBound, rightBound) := search_scope 3 9 2 in
  leftBound <= 9 <= rightBound /\
  rightBound - leftBound + 1 = 4 ^ (3 - 2) /\
  (leftBound <= 11 <= rightBound <-> 2 <= len_prefix 3 9 11).
Proof. apply (search_scope_common_prefix 3 9 2 11); lia. Defined.
End CommonPrefix.
(** ** The seed file searcher: what [Search] returns *)

Section SearchComplete.
Import Int Varint KV.

(** *** Running a computation forwards *)

Lemma bind_out {A B} (c : IO A) (f : A -> IO B) data pos a p o :
  c data pos = (Ok a, p, o) ->
  fst (fst (bind c f data pos)) = fst (fst (f a data p)).
Proof.
  intros H. unfold bind. rewrite H.
  destruct (f a data p) as [[r p'] o']. reflexivity.
Qed.

Lemma bind_run {A B} (c : IO A) (f : A -> IO B) data pos a p o b p' o' :
  c data pos = (Ok a, p, o) -> f a data p = (Ok b, p', o') ->
  bind c f data pos = (Ok b, p', o ++ o').
Proof. intros H1 H2. unfold bind. rewrite H1, H2. reflexivity. Qed.

(** The two blocks of [scan] that read the values of a k-mer. *)
Lemma values_block (cond keep : bool) n (x : list Z -> SearchResult) results
    data pd vs pe oe :
  read_values n true [] data pd = (Ok vs, pe, oe) ->
  (cond = true -> keep = true) ->
  exists o,
    (if cond
     then let* values := read_values n keep [] in ret (results ++ [x values])
     else let* _ := read_values n false [] in ret results) data pd
    = (Ok (if cond then results ++ [x vs] else results), pe, o).
Proof.
  intros Hv Hkeep. destruct cond.
  - rewrite (Hkeep eq_refl). eexists. eapply bind_run; [exact Hv | reflexivity].
  - destruct (read_values_skip _ _ _ _ _ _ _ _ false [] Hv) as [out' Hout].
    eexists. eapply bind_run; [exact Hout | reflexivity].
Qed.

(** *** One record of a well-formed stream *)

Lemma stream_step n first prev data pos :
  stream_ok (S n) first prev data pos = true ->
  exists c pa oa d1 d2 pb ob c2 pc oc lens pd od vs1 pe oe vs2 p1 of_,
    let lastPair := 0 <? Z.land c 128 in
    let hasKmer2 := Z.land c 64 =? 0 in
    let kmer1 := if first then prev else d1 + prev in
    let kmer2 := kmer1 + d2 in
    read_ctrl data pos = (Ok c, pa, oa) /\
    read_pair (Z.land c 63) data pa = (Ok (d1, d2), pb, ob) /\
    read_ctrl data pb = (Ok c2, pc, oc) /\
    read_pair c2 data pc = (Ok lens, pd, od) /\
    read_values (Z.to_nat (fst lens)) true [] data pd = (Ok vs1, pe, oe) /\
    (if hasKmer2 then read_values (Z.to_nat (snd lens)) true [] data pe
     else ret [] data pe) = (Ok vs2, p1, of_) /\
    (first = true \/ prev < kmer1) /\ 0 <= kmer1 < 2 ^ 64 /\
    (if hasKmer2 then kmer1 < kmer2 < 2 ^ 64 else lastPair = true) /\
    (if lastPair then True else stream_ok n false kmer2 data p1 = true) /\
    0 <= d1 /\ 0 <= d2 /\
    mask_entries (S n) first prev data pos
    = (kmer1, vs1) :: (if hasKmer2 then [(kmer2, vs2)] else [])
      ++ (if lastPair then [] else mask_entries n false kmer2 data p1).
Proof.
  intros Hok. cbn [stream_ok] in Hok.
  destruct (read_record data pos)
    as [[[[[lastPair hasKmer2] [d1 d2]] | |] p1] o1] eqn:Hrec; try discriminate Hok.
  apply read_record_inv in Hrec.
  destruct Hrec as (c & pa & oa & pb & ob & c2 & pc & oc & lens & pd & od & v1 & pe
                    & oe & v2 & of_ & Hc & HlastPair & HhasKmer2 & Hd & Hc2 & Hlens
                    & Hv1 & Hv2).
  destruct (read_values_skip _ _ _ _ _ _ _ _ true [] Hv1) as [vs1 Hvs1].
  assert (exists vs2,
            (if hasKmer2 then read_values (Z.to_nat (snd lens)) true [] data pe
             else ret [] data pe) = (Ok vs2, p1, of_)) as [vs2 Hvs2].
  { destruct hasKmer2; [| eauto].
    destruct (read_values_skip _ _ _ _ _ _ _ _ true [] Hv2) as [vs2 Hvs2]. eauto. }
  pose proof (read_pair_nonneg _ _ _ _ _ _ _ Hd) as [Hd1 Hd2].
  rewrite !andb_true_iff in Hok.
  destruct Hok as [[[[Hfirst Hk1lo] Hk1hi] Hk2] Hnext].
  apply Z.leb_le in Hk1lo. apply Z.ltb_lt in Hk1hi.
  exists c, pa, oa, d1, d2, pb, ob, c2, pc, oc, lens, pd, od, vs1, pe, oe, vs2, p1, of_.
  cbv zeta. rewrite <- HlastPair, <- HhasKmer2.
  repeat split; auto; try lia.
  - destruct first; [auto |]. right. simpl in Hfirst. apply Z.ltb_lt. exact Hfirst.
  - destruct hasKmer2; [| exact Hk2].
    apply andb_true_iff in Hk2. rewrite !Z.ltb_lt in Hk2. exact Hk2.
  - destruct lastPair; [exact I | exact Hnext].
  - cbn [mask_entries].
    assert (read_record_values data pos
            = (Ok (lastPair, hasKmer2, (d1, d2), (vs1, vs2)), p1,
               oa ++ ob ++ oc ++ od ++ oe ++ of_ ++ [])) as ->; [| reflexivity].
    unfold read_record_values.
    eapply bind_run; [exact Hc |]. rewrite <- HlastPair, <- HhasKmer2.
    eapply bind_run; [exact Hd |].
    eapply bind_run; [exact Hc2 |].
    eapply bind_run; [exact Hlens |].
    eapply bind_run; [exact Hvs1 |].
    eapply bind_run; [destruct hasKmer2; exact Hvs2 |]. reflexivity.
Qed.

Lemma mask_entries_lower n : forall first prev data pos,
  stream_ok n first prev data pos = true ->
  Forall (fun e => if first then prev <= fst e else prev < fst e)
         (mask_entries n first prev data pos).
Proof.
  induction n as [| n IH]; intros first prev data pos Hok; [constructor |].
  destruct (stream_step _ _ _ _ _ Hok)
    as (c & pa & oa & d1 & d2 & pb & ob & c2 & pc & oc & lens & pd & od & vs1 & pe
        & oe & vs2 & p1 & of_ & H).
  cbv zeta in H.
  destruct H as (_ & _ & _ & _ & _ & _ & Hlow & Hk1 & Hk2 & Hnext & Hd1 & Hd2 & ->).
  set (kmer1 := if first then prev else d1 + prev) in *.
  assert (if first then prev <= kmer1 else prev < kmer1) as Hlow1.
  { subst kmer1. destruct first; [lia |]. destruct Hlow; [congruence | lia]. }
  constructor; [exact Hlow1 |].
  apply Forall_app. split.
  - destruct (Z.land c 64 =? 0); repeat constructor. cbn [fst].
    destruct first; lia.
  - destruct (0 <? Z.land c 128); [constructor |].
    eapply Forall_impl; [apply IH; exact Hnext |].
    intros e He. cbn in He. destruct first; lia.
Qed.

Lemma filter_none {A} (f : A -> bool) l :
  Forall (fun e => f e = false) l -> List.filter f l = [].
Proof.
  induction 1 as [| x l Hx Hl IH]; simpl; [reflexivity |]. rewrite Hx. exact IH.
Qed.

Lemma filter_all {A} (f g : A -> bool) l :
  Forall (fun e => f e = true -> g e = true) l ->
  List.filter f (List.filter g l) = List.filter f l.
Proof.
  induction 1 as [| x l Hx Hl IH]; simpl; [reflexivity |].
  destruct (g x) eqn:Eg; simpl.
  - rewrite IH. reflexivity.
  - destruct (f x) eqn:Ef; [discriminate (Hx eq_refl) | exact IH].
Qed.

(** *** The scan over one mask *)

Lemma scoped_results_app k kmer leftBound rightBound l1 l2 :
  scoped_results k kmer leftBound rightBound (l1 ++ l2)
  = scoped_results k kmer leftBound rightBound l1
    ++ scoped_results k kmer leftBound rightBound l2.
Proof. unfold scoped_results. rewrite List.filter_app, fmap_app. reflexivity. Qed.

Lemma scoped_results_above k kmer leftBound rightBound bound l :
  rightBound < bound -> Forall (fun e => bound <= fst e) l ->
  scoped_results k kmer leftBound rightBound l = [].
Proof.
  intros Hb Hl. unfold scoped_results. rewrite filter_none; [reflexivity |].
  eapply Forall_impl; [exact Hl |]. intros e He. cbn beta in He. unfold in_scope.
  apply andb_false_iff. right. apply Z.leb_gt. lia.
Qed.

Lemma scoped_results_one k kmer leftBound rightBound x vs :
  scoped_results k kmer leftBound rightBound [(x, vs)]
  = if (leftBound <=? x) && (x <=? rightBound)
    then [mkSearchResult x (len_prefix k kmer x) vs] else [].
Proof. unfold scoped_results, in_scope. cbn. destruct (_ && _); reflexivity. Qed.

Lemma scan_exact k kmer leftBound rightBound index_i fuel :
  forall n first found prev _offset results data pos,
    (n <= fuel)%nat ->
    stream_ok n first prev data pos = true ->
    (if first then prev = index_i /\ found = false
     else _offset = prev /\ 0 <= prev < 2 ^ 64 /\ (found = true -> leftBound <= prev)) ->
    fst (fst (scan fuel k kmer leftBound rightBound index_i first found _offset
                   results data pos))
    = Ok (results ++ scoped_results k kmer leftBound rightBound
                                    (mask_entries n first prev data pos)).
Proof.
  induction fuel as [| fuel IH];
    intros n first found prev _offset results data pos Hfuel Hok Hinv.
  { destruct n; [discriminate Hok | lia]. }
  destruct n as [| n]; [discriminate Hok |].
  destruct (stream_step _ _ _ _ _ Hok)
    as (c & pa & oa & d1 & d2 & pb & ob & c2 & pc & oc & lens & pd & od & vs1 & pe
        & oe & vs2 & p1 & of_ & H).
  cbv zeta in H.
  destruct H as (Hc & Hd & Hc2 & Hlens & Hvs1 & Hvs2 & Hlow & Hk1 & Hk2 & Hnext
                 & Hd1 & Hd2 & Hentries).
  rewrite Hentries. clear Hentries.
  set (lastPair := 0 <? Z.land c 128) in *.
  set (hasKmer2 := Z.land c 64 =? 0) in *.
  set (kmer1 := if first then prev else d1 + prev) in *.
  assert (Forall (fun e => kmer1 + d2 < fst e)
                 (if lastPair then [] else mask_entries n false (kmer1 + d2) data p1))
    as Htail.
  { destruct lastPair; [constructor |].
    exact (mask_entries_lower _ _ _ _ _ Hnext). }
  change ((kmer1, vs1) :: ?l) with ([(kmer1, vs1)] ++ l).
  rewrite !scoped_results_app, !scoped_results_one.
  cbn [scan].
  rewrite (bind_out _ _ _ _ _ _ _ Hc). fold lastPair hasKmer2.
  rewrite (bind_out _ _ _ _ _ _ _ Hd). cbn [fst snd].
  assert ((if first then index_i else u64 (d1 + _offset)) = kmer1) as ->.
  { subst kmer1. destruct first; [symmetry; apply Hinv |].
    destruct Hinv as (-> & _ & _). unfold u64. apply Z.mod_small. lia. }
  assert (found = true -> leftBound <= kmer1) as Hfound1.
  { intros ->. destruct first; [destruct Hinv; discriminate |].
    destruct Hinv as (_ & _ & Hf). specialize (Hf eq_refl).
    destruct Hlow; [discriminate | lia]. }
  clear Hinv Hlow.
  destruct (Z.ltb_spec0 rightBound kmer1) as [HR1 | HR1].
  { (* the first k-mer is beyond the bounds, and so are all that follow *)
    cbn [ret fst]. f_equal.
    replace (kmer1 <=? rightBound) with false by (symmetry; apply Z.leb_gt; lia).
    rewrite andb_false_r.
    rewrite (scoped_results_above _ _ _ _ kmer1 (if hasKmer2 then _ else _)).
    - rewrite (scoped_results_above _ _ _ _ kmer1); [cbn [app]; rewrite app_nil_r; reflexivity | lia |].
      eapply Forall_impl; [exact Htail |]. intros e He. cbn in He. lia.
    - lia.
    - destruct hasKmer2; repeat constructor. cbn [fst]. lia. }
  replace (kmer1 <=? rightBound) with true by (symmetry; apply Z.leb_le; lia).
  rewrite andb_true_r.
  set (kmer2 := u64 (kmer1 + d2)).
  set (found' := found || (leftBound <=? kmer1) || (leftBound <=? kmer2)).
  rewrite (bind_out _ _ _ _ _ _ _ Hc2).
  rewrite (bind_out _ _ _ _ _ _ _ Hlens).
  assert (found' && (leftBound <=? kmer1) = (leftBound <=? kmer1)) as Econd1.
  { subst found'. destruct (leftBound <=? kmer1); [| apply andb_false_r].
    rewrite orb_true_r. reflexivity. }
  destruct (values_block (found' && (leftBound <=? kmer1)) found'
              (Z.to_nat (fst lens))
              (fun values => mkSearchResult kmer1 (len_prefix k kmer kmer1) values)
              results data pd vs1 pe oe Hvs1) as [o1 Hb1].
  { intros Hcond. apply andb_true_iff in Hcond. apply Hcond. }
  rewrite (bind_out _ _ _ _ _ _ _ Hb1). clear Hb1.
  rewrite Econd1.
  set (R1 := if leftBound <=? kmer1
             then results ++ [mkSearchResult kmer1 (len_prefix k kmer kmer1) vs1]
             else results).
  assert (results ++ (if leftBound <=? kmer1
                      then [mkSearchResult kmer1 (len_prefix k kmer kmer1) vs1]
                      else []) = R1) as ER1.
  { subst R1. destruct (leftBound <=? kmer1); [reflexivity | apply app_nil_r]. }
  rewrite app_assoc, ER1. clear ER1.
  destruct hasKmer2 eqn:EhasKmer2.
  2:{ (* the last record, which holds one k-mer *)
      rewrite Hk2 in *. cbn [andb negb app].
      unfold scoped_results at 1 2. cbn. rewrite app_nil_r.
      destruct (rightBound <? kmer2); reflexivity. }
  assert (kmer2 = kmer1 + d2) as Ekmer2.
  { subst kmer2. unfold u64. apply Z.mod_small. lia. }
  subst found'. rewrite Ekmer2 in *. clear Ekmer2 kmer2.
  set (found' := found || (leftBound <=? kmer1) || (leftBound <=? kmer1 + d2)) in *.
  rewrite scoped_results_one.
  destruct (Z.ltb_spec0 rightBound (kmer1 + d2)) as [HR2 | HR2].
  { cbn [ret fst]. f_equal.
    replace (kmer1 + d2 <=? rightBound) with false by (symmetry; apply Z.leb_gt; lia).
    rewrite andb_false_r.
    rewrite (scoped_results_above _ _ _ _ (kmer1 + d2)); [| lia |].
    - rewrite !app_nil_r. reflexivity.
    - eapply Forall_impl; [exact Htail |]. intros e He. cbn in He. lia. }
  replace (kmer1 + d2 <=? rightBound) with true by (symmetry; apply Z.leb_le; lia).
  rewrite andb_true_r, andb_false_r.
  assert (found' = (leftBound <=? kmer1 + d2)) as Efound'.
  { subst found'. destruct (Z.leb_spec0 leftBound (kmer1 + d2)) as [HL | HL].
    - apply orb_true_r.
    - rewrite orb_false_r. apply orb_false_iff. split.
      + destruct found; [specialize (Hfound1 eq_refl); lia | reflexivity].
      + apply Z.leb_gt. lia. }
  destruct (values_block found' true (Z.to_nat (snd lens))
              (fun values => mkSearchResult (kmer1 + d2)
                                            (len_prefix k kmer (kmer1 + d2)) values)
              R1 data pe vs2 p1 of_ Hvs2 ltac:(reflexivity)) as [o2 Hb2].
  rewrite (bind_out _ _ _ _ _ _ _ Hb2). clear Hb2.
  rewrite Efound'.
  set (R2 := if leftBound <=? kmer1 + d2
             then R1 ++ [mkSearchResult (kmer1 + d2)
                                        (len_prefix k kmer (kmer1 + d2)) vs2]
             else R1).
  assert (R1 ++ (if leftBound <=? kmer1 + d2
                 then [mkSearchResult (kmer1 + d2) (len_prefix k kmer (kmer1 + d2)) vs2]
                 else []) = R2) as ER2.
  { subst R2. destruct (leftBound <=? kmer1 + d2); [reflexivity | apply app_nil_r]. }
  rewrite app_assoc, ER2. clear ER2.
  destruct lastPair.
  { cbn [ret fst]. unfold scoped_results. cbn. rewrite app_nil_r. reflexivity. }
  apply IH; [lia | exact Hnext |].
  cbn. repeat split; try lia.
Qed.

(** *** One mask, and all the masks of the chunk *)

Lemma run_outcome {A} (r : outcome io_error A * Z * list FileOp) a :
  fst (fst r) = Ok a -> exists p o, r = (Ok a, p, o).
Proof. destruct r as [[r p] o]. cbn. intros ->. eauto. Qed.

Lemma search_index_exact n fuel k kmer leftBound rightBound index results data pos :
  mask_ok n data index = true -> (n <= fuel)%nat -> (length index <= fuel)%nat ->
  fst (fst (search_index fuel k kmer leftBound rightBound index results data pos))
  = Ok (results ++ scoped_results k kmer leftBound rightBound
                                  (index_entries n data index)).
Proof.
  intros Hok Hn Hfuel. unfold mask_ok in Hok.
  rewrite !andb_true_iff in Hok. destruct Hok as [[Hlen%Z.leb_le Heven%Z.eqb_eq] Hall].
  destruct (find_anchor_bracket index leftBound fuel 0 (Z.of_nat (length index) - 2))
    as (i & Hi & H0 & H2 & Hev & Hlo & _); auto; try lia.
  { Z.div_mod_to_equations. lia. }
  unfold search_index. rewrite Hi.
  destruct (index_at_lookup index (i + 1) ltac:(lia)) as [offset Eoff].
  destruct (index_at_lookup index i ltac:(lia)) as [index_i Ei].
  rewrite Eoff, Ei.
  assert ((index_i, offset) ∈ anchors index) as Hin.
  { unfold index_at in Eoff, Ei.
    destruct (Z.ltb_spec0 (i + 1) 0); [lia |].
    destruct (Z.ltb_spec0 i 0); [lia |].
    assert (exists j : nat, Z.to_nat i = (2 * j)%nat /\ Z.to_nat (i + 1) = (2 * j + 1)%nat)
      as (j & Ej & Ej1).
    { exists (Z.to_nat (i / 2)). Z.div_mod_to_equations. lia. }
    rewrite Ej in Ei. rewrite Ej1 in Eoff.
    exact (anchors_elem j index _ _ Ei Eoff). }
  rewrite forallb_forall in Hall.
  pose proof (Hall _ (proj1 (list_elem_of_In _ _) Hin)) as Hanchor.
  cbn [fst snd] in Hanchor.
  apply andb_true_iff in Hanchor. destruct Hanchor as [Hanchor Hentries].
  apply bool_decide_eq_true in Hentries.
  unfold anchor_ok in Hanchor. cbn [fst snd] in Hanchor.
  rewrite !andb_true_iff in Hanchor.
  destruct Hanchor as [[Ho0%Z.leb_le Ho1%Z.ltb_lt] Hstream].
  assert (Seek offset data pos = (Ok tt, offset, [OpSeek offset])) as Hseek.
  { unfold Seek. assert (i64 offset = offset) as ->.
    { unfold i64. rewrite Z.mod_small by lia. lia. }
    destruct (Z.ltb_spec0 offset 0); [lia | reflexivity]. }
  rewrite (bind_out _ _ _ _ _ _ _ Hseek).
  rewrite (scan_exact k kmer leftBound rightBound index_i fuel n true false index_i 0
             results data offset Hn Hstream (conj eq_refl eq_refl)).
  f_equal. f_equal. rewrite Hentries. unfold scoped_results. f_equal.
  apply filter_all.
  destruct Hlo as [-> | (x & Ex & Hx)].
  - (* the first anchor: the entries of the mask are those read from it *)
    destruct index as [| a0 [| o0 index']]; try (simpl in Hlen; lia).
    unfold index_at in Ei. simpl in Ei. injection Ei as <-.
    unfold index_entries. cbn [anchors fst snd].
    specialize (Hall (a0, o0) ltac:(left; reflexivity)).
    apply andb_true_iff in Hall. destruct Hall as [Ha0 _].
    unfold anchor_ok in Ha0. rewrite !andb_true_iff in Ha0.
    destruct Ha0 as [_ Hs0]. cbn [fst snd] in Hs0.
    eapply Forall_impl; [exact (mask_entries_lower _ _ _ _ _ Hs0) |].
    intros e He _. cbn in He. apply Z.leb_le. exact He.
  - rewrite Ei in Ex. injection Ex as <-.
    apply Forall_forall. intros e _ Hscope. unfold in_scope in Hscope.
    apply andb_true_iff in Hscope. destruct Hscope as [HL%Z.leb_le _].
    apply Z.leb_le. lia.
Qed.

Lemma search_indexes_exact n fuel k kmer leftBound rightBound indexes :
  forall results data pos,
    forallb (mask_ok n data) indexes = true -> (n <= fuel)%nat ->
    Forall (fun index => (length index <= fuel)%nat) indexes ->
    fst (fst (search_indexes fuel k kmer leftBound rightBound indexes results
                             data pos))
    = Ok (results
          ++ concat ((fun index =>
                        scoped_results k kmer leftBound rightBound
                                       (index_entries n data index)) <$> indexes)).
Proof.
  induction indexes as [| index indexes IH]; intros results data pos Hok Hn Hfuel.
  - cbn. rewrite app_nil_r. reflexivity.
  - cbn [forallb] in Hok. apply andb_true_iff in Hok. destruct Hok as [Hindex Hrest].
    apply Forall_cons in Hfuel. destruct Hfuel as [Hfuel1 Hfuel].
    cbn [search_indexes].
    destruct (run_outcome _ _ (search_index_exact n fuel k kmer leftBound rightBound
                                 index results data pos Hindex Hn Hfuel1))
      as (p & o & Hrun).
    rewrite (bind_out _ _ _ _ _ _ _ Hrun).
    rewrite IH by assumption.
    rewrite fmap_cons. cbn [concat]. rewrite app_assoc. reflexivity.
Qed.

(** X5. On a well-formed seed file whose masks
    have three anchors or more, [Search] returns, and what it returns for a
    valid query is exactly this: for each mask of the chunk in turn, every
    k-mer that the mask holds within the bounds of the scope, in the order
    of the file, with all the values stored for it and the prefix length
    computed from the query. *)
Theorem Search_returns_scoped_entries fuel n scr kmer m data pos :
  kmer <= maxKmer scr ->
  forallb (mask_ok n data) (Indexes scr) = true ->
  (n <= fuel)%nat ->
  Forall (fun index => (length index <= fuel)%nat) (Indexes scr) ->
  let k := K scr in
  let scope := search_scope k kmer (if (m <? 1) || (k <? m) then k else m) in
  fst (fst (Search fuel scr kmer m data pos))
  = Ok (concat ((fun index =>
                   scoped_results k kmer (fst scope) (snd scope)
                                  (index_entries n data index)) <$> Indexes scr)).
Proof.
  intros Hkmer Hok Hn Hfuel k scope. unfold Search.
  destruct (Z.ltb_spec0 (maxKmer scr) kmer); [lia |].
  cbv zeta. fold k. fold scope. destruct scope as [leftBound rightBound].
  cbn [fst snd].
  pose proof (search_indexes_exact n fuel k kmer leftBound rightBound (Indexes scr)
                [] data pos Hok Hn Hfuel) as H.
  destruct (search_indexes _ _ _ _ _ _ _ _ _) as [[r p] o].
  cbn [fst] in H. subst r. reflexivity.
Qed.

Lemma Search_returns_scoped_entries_witness :
  fst (fst (Search 6 (NewSearcher 3 0 [sample_index3]) 13 2 sample_stream3 0))
  = Ok (concat ((fun index =>
                   scoped_results 3 13 (fst (search_scope 3 13 2))
                                  (snd (search_scope 3 13 2))
                                  (index_entries 3 sample_stream3 index))
                  <$> [sample_index3])).
Proof.
  apply (Search_returns_scoped_entries 6 3 (NewSearcher 3 0 [sample_index3]) 13 2
           sample_stream3 0).
  - change (13 <= 63). lia.
  - vm_compute. reflexivity.
  - lia.
  - apply Forall_cons_2; [simpl; lia | apply Forall_nil_2].
Defined.
End SearchComplete.

(** ** The seed file searcher: the results, mask by mask *)

Section SearchResults.
Import Int Varint KV.

Lemma mask_ok_anchors n data index :
  mask_ok n data index = true ->
  forallb (anchor_ok n data) (anchors index) = true.
Proof.
  unfold mask_ok. rewrite !andb_true_iff. intros [_ Hall].
  induction (anchors index) as [| a l IH]; [reflexivity |].
  cbn [forallb] in *. rewrite !andb_true_iff in *.
  destruct Hall as [[Ha _] Hl]. split; [exact Ha | apply IH; exact Hl].
Qed.

(** The k-mers of one mask within the bounds come out in strictly
    increasing order. *)
Lemma scoped_results_sorted n k kmer leftBound rightBound data index :
  mask_ok n data index = true ->
  StronglySorted (fun a b => Kmer a < Kmer b)
    (scoped_results k kmer leftBound rightBound (index_entries n data index)).
Proof.
  intros Hok.
  set (fuel := (n + length index)%nat).
  pose proof (search_index_exact n fuel k kmer leftBound rightBound index [] data 0
                Hok ltac:(subst fuel; lia) ltac:(subst fuel; lia)) as Hexact.
  destruct (run_outcome _ _ Hexact) as (p & o & Hrun).
  destruct (search_index_sound n fuel k kmer leftBound rightBound index [] data 0
              _ p o (mask_ok_anchors n data index Hok) Hrun)
    as (new & Enew & _ & Hsorted).
  cbn [app] in Enew. rewrite Enew. exact Hsorted.
Qed.

Lemma scoped_results_elem k kmer leftBound rightBound entries r :
  r ∈ scoped_results k kmer leftBound rightBound entries <->
  exists x vs, (x, vs) ∈ entries /\ leftBound <= x <= rightBound /\
               r = mkSearchResult x (len_prefix k kmer x) vs.
Proof.
  unfold scoped_results. rewrite list_elem_of_fmap. split.
  - intros ([x vs] & -> & Hin). apply list_elem_of_In, filter_In in Hin.
    destruct Hin as [Hin Hscope]. unfold in_scope in Hscope. cbn [fst] in Hscope.
    apply andb_true_iff in Hscope. destruct Hscope as [H1%Z.leb_le H2%Z.leb_le].
    exists x, vs. split; [apply list_elem_of_In; exact Hin |]. split; [lia | reflexivity].
  - intros (x & vs & Hin & Hscope & ->). exists (x, vs). split; [reflexivity |].
    apply list_elem_of_In, filter_In. split; [apply list_elem_of_In; exact Hin |].
    unfold in_scope. cbn [fst]. apply andb_true_iff. split; apply Z.leb_le; lia.
Qed.

(** C1, amended.  On a well-formed seed file (the index of each mask has
    three anchors or more, and from every anchor on the records hold the
    strictly increasing k-mers of the mask), for a query and a minimum
    prefix [m] with [1 <= m <= k <= 32], [Search] returns, and what it
    returns is one segment for each mask of the chunk, in the order of
    the masks.  The segment of a mask holds, once each, the k-mers stored
    under that mask within the scope [[query & ~mask, query | mask]],
    [mask = 2^(2(k-m)) - 1], each with its values; so a k-mer stored
    under several masks is returned once for each of them.  Every result
    shares its [m] leading bases with the query and has [LenPrefix] equal
    to [LeadingZeros64(query xor matched) / 2 + (k - 32)], which is at
    least [m]. *)
Theorem Search_results_in_scope fuel n k chunkIndex indexes kmer m data pos :
  1 <= m <= k -> k <= 32 -> 0 <= kmer < 2 ^ (2 * k) ->
  forallb (mask_ok n data) indexes = true ->
  (n <= fuel)%nat -> Forall (fun index => (length index <= fuel)%nat) indexes ->
  let s := 2 * (k - m) in
  let mask := 2 ^ s - 1 in
  let leftBound := Z.land kmer (Z.lnot mask) in
  let rightBound := Z.lor kmer mask in
  let segment index :=
    scoped_results k kmer leftBound rightBound (index_entries n data index) in
  exists results,
    fst (fst (Search fuel (NewSearcher k chunkIndex indexes) kmer m data pos))
    = Ok results /\
    results = concat (segment <$> indexes) /\
    Forall (fun r =>
              leftBound <= Kmer r <= rightBound /\
              Z.shiftr (Kmer r) s = Z.shiftr kmer s /\
              LenPrefix r = LeadingZeros64 (Z.lxor kmer (Kmer r)) / 2 + (k - 32) /\
              m <= LenPrefix r <= k) results /\
    Forall (fun index =>
              NoDup (Kmer <$> segment index) /\
              forall x vs,
                (x, vs) ∈ index_entries n data index ->
                (leftBound <= x <= rightBound <->
                 mkSearchResult x (len_prefix k kmer x) vs ∈ segment index))
           indexes.
Proof.
  intros Hm Hk Hkmer Hok Hn Hfuel s mask leftBound rightBound segment.
  assert (2 ^ (2 * k) <= 2 ^ 64) as Hpow by (apply Z.pow_le_mono_r; lia).
  exists (concat (segment <$> indexes)).
  split; [| split; [reflexivity | split]].
  - unfold Search.
    destruct (maxKmer (NewSearcher k chunkIndex indexes) <? kmer) eqn:Emax.
    { apply maxKmer_NewSearcher in Emax; lia. }
    cbn [K Indexes NewSearcher]. cbv zeta.
    replace ((m <? 1) || (k <? m)) with false
      by (symmetry; apply orb_false_iff; split; apply Z.ltb_ge; lia).
    rewrite search_scope_spec by lia. fold s mask leftBound rightBound.
    pose proof (search_indexes_exact n fuel k kmer leftBound rightBound indexes
                  [] data pos Hok Hn Hfuel) as H.
    destruct (search_indexes _ _ _ _ _ _ _ _ _) as [[r p] o].
    cbn [fst app] in H. subst r. reflexivity.
  - apply Forall_concat, Forall_fmap, Forall_forall. intros index _.
    apply Forall_forall. intros r Hr. subst segment. cbn beta in Hr.
    apply scoped_results_elem in Hr. destruct Hr as (x & vs & _ & Hscope & ->).
    cbn [Kmer LenPrefix].
    pose proof (in_scope_shiftr kmer s x ltac:(subst s; lia) Hscope) as Hshift.
    assert (0 <= x) as Hx0.
    { subst leftBound mask.
      replace (2 ^ s - 1) with (Z.ones s) in Hscope by (rewrite Z.ones_equiv; lia).
      rewrite land_lnot_ones in Hscope by (subst s; lia).
      assert (0 <= Z.shiftl (Z.shiftr kmer s) s)
        by (apply Z.shiftl_nonneg, Z.shiftr_nonneg; lia).
      lia. }
    destruct (len_prefix_in_scope k m kmer x Hm Hk ltac:(lia) Hx0 Hshift)
      as [Hlen_eq Hlen_range].
    split; [exact Hscope |]. split; [exact Hshift |]. split; [exact Hlen_eq |].
    exact Hlen_range.
  - clear Hfuel. induction indexes as [| index indexes IH]; [constructor |].
    cbn [forallb] in Hok. apply andb_true_iff in Hok. destruct Hok as [Hindex Hrest].
    constructor; [| apply IH; exact Hrest].
    split.
    + apply sorted_Kmer_NoDup. apply (scoped_results_sorted n); exact Hindex.
    + intros x vs Hin. subst segment. cbn beta. rewrite scoped_results_elem. split.
      * intros Hscope. exists x, vs. auto.
      * intros (x' & vs' & _ & Hscope & E). injection E as -> _ _. exact Hscope.
Qed.

(** Two masks that hold the same k-mers: the k-mer 12 is returned for
    each of them. *)
Lemma Search_results_in_scope_witness :
  let indexes := [sample_index3; sample_index3] in
  let segment index :=
    scoped_results 3 13 (Z.land 13 (Z.lnot (2 ^ (2 * (3 - 2)) - 1)))
                   (Z.lor 13 (2 ^ (2 * (3 - 2)) - 1))
                   (index_entries 3 sample_stream3 index) in
  exists results,
    fst (fst (Search 6 (NewSearcher 3 0 indexes) 13 2 sample_stream3 0)) = Ok results /\
    results = concat (segment <$> indexes) /\
    Forall (fun r =>
              Z.land 13 (Z.lnot (2 ^ (2 * (3 - 2)) - 1)) <= Kmer r
              <= Z.lor 13 (2 ^ (2 * (3 - 2)) - 1) /\
              Z.shiftr (Kmer r) (2 * (3 - 2)) = Z.shiftr 13 (2 * (3 - 2)) /\
              LenPrefix r = LeadingZeros64 (Z.lxor 13 (Kmer r)) / 2 + (3 - 32) /\
              2 <= LenPrefix r <= 3) results /\
    Forall (fun index =>
              NoDup (Kmer <$> segment index) /\
              forall x vs,
                (x, vs) ∈ index_entries 3 sample_stream3 index ->
                (Z.land 13 (Z.lnot (2 ^ (2 * (3 - 2)) - 1)) <= x
                 <= Z.lor 13 (2 ^ (2 * (3 - 2)) - 1) <->
                 mkSearchResult x (len_prefix 3 13 x) vs ∈ segment index))
           indexes.
Proof.
  apply (Search_results_in_scope 6 3 3 0 [sample_index3; sample_index3] 13 2
           sample_stream3 0).
  - lia.
  - lia.
  - change (0 <= 13 < 64). lia.
  - vm_compute. reflexivity.
  - lia.
  - repeat (apply Forall_cons_2; [simpl; lia |]). apply Forall_nil_2.
Defined.

End SearchResults.
(** ** [Chainer2]: the scores *)

Section Chainer2Scores.
Import Int Chain2.

Lemma index_at_length {A} (l : list A) x :
  index_at (l ++ [x]) (Z.of_nat (length l)) = Some x.
Proof.
  unfold index_at. destruct (Z.ltb_spec0 (Z.of_nat (length l)) 0); [lia |].
  rewrite Nat2Z.id. apply list_lookup_middle. reflexivity.
Qed.

Lemma index_at_range {A} (l : list A) i x :
  index_at l i = Some x -> 0 <= i < Z.of_nat (length l).
Proof.
  unfold index_at. destruct (Z.ltb_spec0 i 0); [discriminate |].
  intros H%lookup_lt_Some. lia.
Qed.

Lemma index_at_app_lt {A} (l l' : list A) i :
  i < Z.of_nat (length l) -> index_at (l ++ l') i = index_at l i.
Proof.
  intros Hi. unfold index_at. destruct (Z.ltb_spec0 i 0); [reflexivity |].
  apply lookup_app_l. lia.
Qed.

Lemma index_at_app_l {A} (l l' : list A) i x :
  index_at l i = Some x -> index_at (l ++ l') i = Some x.
Proof.
  intros H. rewrite index_at_app_lt; [exact H |].
  apply index_at_range in H. lia.
Qed.

(** The loop over the band: [lo] is the first index that the rounds left
    will not reach. *)
Lemma band_loop_spec opts subs scores a i nb :
  forall _b m mj,
    1 <= _b -> i <= Z.of_nat (length subs) -> i <= Z.of_nat (length scores) ->
    Index.Len a <= m ->
    (forall j b sj, 0 <= j -> i - _b < j < i ->
       index_at subs j = Some b -> index_at scores j = Some sj ->
       admissible opts a b -> link_score sj a b <= m) ->
    ((mj = i /\ m = Index.Len a) \/
     (exists b sj, 0 <= mj /\ i - _b < mj < i /\
        index_at subs mj = Some b /\ index_at scores mj = Some sj /\
        admissible opts a b /\ m = link_score sj a b)) ->
    exists m' mj',
      band_loop nb _b opts subs scores a i m mj = Some (m', mj') /\
      Index.Len a <= m' /\
      (forall j b sj, 0 <= j -> i - (_b + Z.of_nat nb) < j < i ->
         index_at subs j = Some b -> index_at scores j = Some sj ->
         admissible opts a b -> link_score sj a b <= m') /\
      ((mj' = i /\ m' = Index.Len a) \/
       (exists b sj, 0 <= mj' /\ i - (_b + Z.of_nat nb) < mj' < i /\
          index_at subs mj' = Some b /\ index_at scores mj' = Some sj /\
          admissible opts a b /\ m' = link_score sj a b)).
Proof.
  induction nb as [| nb IH]; intros _b m mj Hb Hsubs Hscores Hm Hmax Hfrom.
  - exists m, mj. cbn [band_loop]. rewrite Z.add_0_r. auto.
  - cbn [band_loop].
    destruct (Z.ltb_spec0 (i - _b) 0) as [Hneg | Hpos].
    { exists m, mj. split; [reflexivity |]. split; [exact Hm |]. split.
      - intros j b sj Hj0 Hj. apply Hmax; [exact Hj0 | lia].
      - destruct Hfrom as [? | (b & sj & Hp0 & Hpr & Hrest)]; [left; assumption |].
        right. exists b, sj. split; [exact Hp0 |]. split; [lia | exact Hrest]. }
    destruct (index_at_Some subs (i - _b) ltac:(lia)) as [b Eb].
    destruct (index_at_Some scores (i - _b) ltac:(lia)) as [sj Esj].
    rewrite Eb, Esj.
    replace (_b + Z.of_nat (S nb)) with ((_b + 1) + Z.of_nat nb) by lia.
    assert (forall m0 mj0,
              Index.Len a <= m0 ->
              (forall j b sj, 0 <= j -> i - (_b + 1) < j < i ->
                 index_at subs j = Some b -> index_at scores j = Some sj ->
                 admissible opts a b -> link_score sj a b <= m0) ->
              ((mj0 = i /\ m0 = Index.Len a) \/
               (exists b sj, 0 <= mj0 /\ i - (_b + 1) < mj0 < i /\
                  index_at subs mj0 = Some b /\ index_at scores mj0 = Some sj /\
                  admissible opts a b /\ m0 = link_score sj a b)) ->
              exists m' mj',
                band_loop nb (_b + 1) opts subs scores a i m0 mj0 = Some (m', mj') /\
                Index.Len a <= m' /\
                (forall j b sj, 0 <= j -> i - (_b + 1 + Z.of_nat nb) < j < i ->
                   index_at subs j = Some b -> index_at scores j = Some sj ->
                   admissible opts a b -> link_score sj a b <= m') /\
                ((mj' = i /\ m' = Index.Len a) \/
                 (exists b sj, 0 <= mj' /\ i - (_b + 1 + Z.of_nat nb) < mj' < i /\
                    index_at subs mj' = Some b /\ index_at scores mj' = Some sj /\
                    admissible opts a b /\ m' = link_score sj a b))) as Hnext.
    { intros m0 mj0. apply IH; lia. }
    (* the anchor at [i - _b] is passed over, or its link is not better *)
    assert ((~ admissible opts a b \/ link_score sj a b <= m) ->
            exists m' mj',
              band_loop nb (_b + 1) opts subs scores a i m mj = Some (m', mj') /\
              Index.Len a <= m' /\
              (forall j b sj, 0 <= j -> i - (_b + 1 + Z.of_nat nb) < j < i ->
                 index_at subs j = Some b -> index_at scores j = Some sj ->
                 admissible opts a b -> link_score sj a b <= m') /\
              ((mj' = i /\ m' = Index.Len a) \/
               (exists b sj, 0 <= mj' /\ i - (_b + 1 + Z.of_nat nb) < mj' < i /\
                  index_at subs mj' = Some b /\ index_at scores mj' = Some sj /\
                  admissible opts a b /\ m' = link_score sj a b))) as Hskip.
    { intros Hno. apply Hnext; [exact Hm | |].
      - intros j b' sj' Hj0 Hj Eb' Esj' Hadm.
        destruct (Z.eq_dec j (i - _b)) as [-> | Hne].
        + rewrite Eb in Eb'. rewrite Esj in Esj'.
          injection Eb' as <-. injection Esj' as <-.
          destruct Hno as [Hno | Hle]; [contradiction | exact Hle].
        + apply (Hmax j b' sj'); auto. lia.
      - destruct Hfrom as [? | (b' & sj' & Hp0 & Hpr & Hrest)]; [left; assumption |].
        right. exists b', sj'. split; [exact Hp0 |]. split; [lia | exact Hrest]. }
    destruct (Z.ltb_spec0 (Index.TBegin a) (Index.TBegin b)) as [Ht | Ht].
    { apply Hskip. left. unfold admissible. lia. }
    destruct (Z.ltb_spec0 (MaxDistance opts) (distance2 a b)) as [Hd | Hd].
    { apply Hskip. left. unfold admissible. lia. }
    destruct (Z.ltb_spec0 (MaxGap opts) (gap2 a b)) as [Hg | Hg].
    { apply Hskip. left. unfold admissible. lia. }
    fold (link_score sj a b).
    destruct (Z.leb_spec0 m (link_score sj a b)) as [Hs | Hs].
    2:{ apply Hskip. right. lia. }
    apply Hnext; [lia | |].
    + intros j b' sj' Hj0 Hj Eb' Esj' Hadm.
      destruct (Z.eq_dec j (i - _b)) as [-> | Hne].
      * rewrite Eb in Eb'. rewrite Esj in Esj'.
        injection Eb' as <-. injection Esj' as <-. lia.
      * pose proof (Hmax j b' sj' Hj0 ltac:(lia) Eb' Esj' Hadm). lia.
    + right. exists b, sj. split; [lia |]. split; [lia |].
      split; [exact Eb |]. split; [exact Esj |]. split; [| reflexivity].
      unfold admissible. lia.
Qed.

Lemma score_ok_app opts subs scores idxs m mj i :
  length scores = length idxs ->
  score_ok opts subs scores idxs i ->
  score_ok opts subs (scores ++ [m]) (idxs ++ [mj]) i.
Proof.
  intros Hlen (a & s & p & Ea & Es & Ep & Hs & Hmax & Hfrom).
  pose proof (index_at_range _ _ _ Es) as Hi.
  exists a, s, p. split; [exact Ea |].
  split; [apply index_at_app_l; exact Es |].
  split; [apply index_at_app_l; exact Ep |].
  split; [exact Hs |]. split.
  - intros j b sj Hj0 Hj Eb Esj Hadm. rewrite index_at_app_lt in Esj by lia.
    apply (Hmax j b sj); assumption.
  - destruct Hfrom as [? | (b & sj & Hp0 & Hpr & Eb & Esj & Hrest)]; [left; assumption |].
    right. exists b, sj. split; [exact Hp0 |]. split; [exact Hpr |].
    split; [exact Eb |]. split; [apply index_at_app_l; exact Esj | exact Hrest].
Qed.

Lemma score_loop_spec opts subs rest :
  forall i sc,
    1 <= i -> rest = drop (Z.to_nat i) subs ->
    i + Z.of_nat (length rest) = Z.of_nat (length subs) ->
    Z.of_nat (length (maxscores sc)) = i ->
    Z.of_nat (length (maxscoresIdxs sc)) = i ->
    (forall i', 0 <= i' < i ->
       score_ok opts subs (maxscores sc) (maxscoresIdxs sc) i') ->
    best_ok sc ->
    exists sc',
      score_loop rest i opts subs sc = Some sc' /\
      length (maxscores sc') = length subs /\
      length (maxscoresIdxs sc') = length subs /\
      (forall i', 0 <= i' < Z.of_nat (length subs) ->
         score_ok opts subs (maxscores sc') (maxscoresIdxs sc') i') /\
      best_ok sc'.
Proof.
  induction rest as [| a rest IH]; intros i sc Hi Hrest Hlen Hlen1 Hlen2 Hall Hbest.
  - simpl in Hlen. exists sc. cbn [score_loop].
    split; [reflexivity |]. split; [lia |]. split; [lia |].
    split; [| exact Hbest]. intros i' Hi'. apply Hall. lia.
  - cbn [score_loop]. simpl in Hlen.
    assert (index_at subs i = Some a) as Ea.
    { unfold index_at. destruct (Z.ltb_spec0 i 0); [lia |].
      pose proof (lookup_drop subs (Z.to_nat i) 0) as Hd.
      rewrite <- Hrest, Nat.add_0_r in Hd. symmetry. exact Hd. }
    destruct (band_loop_spec opts subs (maxscores sc) a i (Z.to_nat (Band opts))
                1 (Index.Len a) i ltac:(lia) ltac:(lia) ltac:(lia) ltac:(lia))
      as (m & mj & -> & Hm & Hmax & Hfrom).
    { intros j b sj Hj0 Hj. lia. }
    { left. auto. }
    set (sc' := mkScores (maxscores sc ++ [m]) (maxscoresIdxs sc ++ [mj])
                         (fst (if M sc <? m then (m, i) else (M sc, Mi sc)))
                         (snd (if M sc <? m then (m, i) else (M sc, Mi sc)))).
    apply (IH (i + 1) sc').
    + lia.
    + rewrite Z2Nat.inj_add by lia. rewrite <- drop_drop, <- Hrest.
      reflexivity.
    + lia.
    + subst sc'. cbn [maxscores]. rewrite length_app. simpl. lia.
    + subst sc'. cbn [maxscoresIdxs]. rewrite length_app. simpl. lia.
    + intros i' Hi'. subst sc'. cbn [maxscores maxscoresIdxs].
      destruct (Z.eq_dec i' i) as [-> | Hne].
      * exists a, m, mj. split; [exact Ea |].
        rewrite <- Hlen1 at 1. split; [apply index_at_length |].
        rewrite <- Hlen2 at 1. split; [apply index_at_length |].
        split; [exact Hm |]. split.
        -- intros j b sj Hj0 Hj Eb Esj Hadm.
           rewrite index_at_app_lt in Esj by lia.
           apply (Hmax j b sj); auto. lia.
        -- destruct Hfrom as [? | (b & sj & Hp0 & Hpr & Eb & Esj & Hrest')];
             [left; assumption |].
           right. exists b, sj. split; [exact Hp0 |]. split; [lia |].
           split; [exact Eb |]. split; [apply index_at_app_l; exact Esj | exact Hrest'].
      * apply score_ok_app; [lia |]. apply Hall. lia.
    + destruct Hbest as [Hbound Hbest]. subst sc'. unfold best_ok.
      cbn [maxscores M Mi].
      destruct (Z.ltb_spec0 (M sc) m) as [Hlt | Hge]; cbn [fst snd].
      * split.
        -- intros i' s Hi' Es.
           destruct (Z.eq_dec i' i) as [-> | Hne].
           ++ rewrite <- Hlen1 in Es at 1. rewrite index_at_length in Es.
              injection Es as <-. lia.
           ++ pose proof (index_at_range _ _ _ Es) as Hr.
              rewrite length_app in Hr. simpl in Hr.
              rewrite index_at_app_lt in Es by lia.
              specialize (Hbound _ _ Hi' Es). lia.
        -- right. split; [lia |]. rewrite <- Hlen1 at 1.
           split; [apply index_at_length |].
           destruct Hbest as [[? _] | (_ & _ & ?)]; lia.
      * split.
        -- intros i' s Hi' Es.
           destruct (Z.eq_dec i' i) as [-> | Hne].
           ++ rewrite <- Hlen1 in Es at 1. rewrite index_at_length in Es.
              injection Es as <-. lia.
           ++ pose proof (index_at_range _ _ _ Es) as Hr.
              rewrite length_app in Hr. simpl in Hr.
              rewrite index_at_app_lt in Es by lia.
              exact (Hbound _ _ Hi' Es).
        -- destruct Hbest as [? | (H1 & H2 & H3)]; [left; assumption |].
           right. split; [exact H1 |]. split; [apply index_at_app_l; exact H2 | exact H3].
Qed.

Lemma compute_scores_spec opts subs :
  subs <> [] ->
  exists sc,
    compute_scores opts subs = Some sc /\
    length (maxscores sc) = length subs /\
    length (maxscoresIdxs sc) = length subs /\
    (forall i, 0 <= i < Z.of_nat (length subs) ->
       score_ok opts subs (maxscores sc) (maxscoresIdxs sc) i) /\
    best_ok sc.
Proof.
  destruct subs as [| s0 rest]; [congruence |]. intros _.
  unfold compute_scores. apply score_loop_spec.
  - lia.
  - reflexivity.
  - simpl. lia.
  - reflexivity.
  - reflexivity.
  - intros i' Hi'. assert (i' = 0) as -> by lia. cbn [maxscores maxscoresIdxs].
    exists s0, (Index.Len s0), 0. repeat split; auto; try lia.
  - split.
    + intros i s Hi Es. apply index_at_range in Es. simpl in Es. lia.
    + left. auto.
Qed.

(** X6. For every non-empty anchor list the dynamic
    program of [Chain] runs without a panic and fills one score and one
    back pointer for each anchor.  The score of an anchor is the largest
    of its own length and of [maxscores[j] + subs[j].Len - gap] over the
    admissible anchors [j] among the [Band] before it; the back pointer is
    the anchor itself when the score is its own length, and otherwise an
    admissible anchor of the band whose link has that score. *)
Theorem compute_scores_recurrence opts subs :
  subs <> [] ->
  exists sc,
    compute_scores opts subs = Some sc /\
    length (maxscores sc) = length subs /\
    length (maxscoresIdxs sc) = length subs /\
    forall i, 0 <= i < Z.of_nat (length subs) ->
      score_ok opts subs (maxscores sc) (maxscoresIdxs sc) i.
Proof.
  intros Hne. destruct (compute_scores_spec opts subs Hne) as (sc & H1 & H2 & H3 & H4 & _).
  exists sc. auto.
Qed.

Lemma compute_scores_recurrence_witness :
  exists sc,
    compute_scores DefaultChaining2Options
      [Index.mkSubstrPair 0 0 60 0 false false;
       Index.mkSubstrPair 40 40 60 0 false false] = Some sc /\
    length (maxscores sc) = 2%nat /\
    length (maxscoresIdxs sc) = 2%nat /\
    forall i, 0 <= i < 2 ->
      score_ok DefaultChaining2Options
        [Index.mkSubstrPair 0 0 60 0 false false;
         Index.mkSubstrPair 40 40 60 0 false false]
        (maxscores sc) (maxscoresIdxs sc) i.
Proof.
  apply (compute_scores_recurrence DefaultChaining2Options
           [Index.mkSubstrPair 0 0 60 0 false false;
            Index.mkSubstrPair 40 40 60 0 false false]).
  discriminate.
Defined.

(** X7. The score [M] that [Chain] compares with 100
    is the largest score among the anchors after the first one, or [0]
    when none of them is positive: the loop that keeps it starts at the
    second anchor, so the score of the first anchor is never counted. *)
Theorem compute_scores_best opts subs :
  subs <> [] ->
  exists sc,
    compute_scores opts subs = Some sc /\
    (forall i s, 1 <= i -> index_at (maxscores sc) i = Some s -> s <= M sc) /\
    ((M sc = 0 /\ Mi sc = 0) \/
     (1 <= Mi sc /\ index_at (maxscores sc) (Mi sc) = Some (M sc) /\ 0 < M sc)).
Proof.
  intros Hne. destruct (compute_scores_spec opts subs Hne) as (sc & H1 & _ & _ & _ & H5).
  exists sc. split; [exact H1 | exact H5].
Qed.

Lemma compute_scores_best_witness :
  exists sc,
    compute_scores DefaultChaining2Options
      [Index.mkSubstrPair 0 0 200 0 false false;
       Index.mkSubstrPair 500 900 50 0 false false] = Some sc /\
    (forall i s, 1 <= i -> index_at (maxscores sc) i = Some s -> s <= M sc) /\
    ((M sc = 0 /\ Mi sc = 0) \/
     (1 <= Mi sc /\ index_at (maxscores sc) (Mi sc) = Some (M sc) /\ 0 < M sc)).
Proof.
  apply (compute_scores_best DefaultChaining2Options
           [Index.mkSubstrPair 0 0 200 0 false false;
            Index.mkSubstrPair 500 900 50 0 false false]).
  discriminate.
Defined.
End Chainer2Scores.
(** ** [Chainer2]: the chains *)

Section Chainer2Chains.
Import Int Chain2.

Lemma i64_small x : - 2 ^ 63 <= x < 2 ^ 63 -> i64 x = x.
Proof. intros H. unfold i64. rewrite Z.mod_small by lia. lia. Qed.

Lemma sorted_snoc_down (l : list Z) x :
  StronglySorted (fun a b => b < a) l -> Forall (fun a => x < a) l ->
  StronglySorted (fun a b => b < a) (l ++ [x]).
Proof.
  intros Hs Hl. apply StronglySorted_app_2; [| exact Hs | repeat constructor].
  intros a b Ha Hb. apply list_elem_of_singleton in Hb. subst b.
  rewrite Forall_forall in Hl. auto.
Qed.

Lemma sorted_reverse_up (l : list Z) :
  StronglySorted (fun a b => b < a) l -> StronglySorted Z.lt (reverse l).
Proof.
  induction 1 as [| x l Hs IH Hx]; [constructor |].
  rewrite reverse_cons. apply StronglySorted_app_2; [| exact IH | repeat constructor].
  intros a b Ha Hb. apply list_elem_of_singleton in Hb. subst b.
  rewrite elem_of_reverse in Ha. rewrite Forall_forall in Hx. auto.
Qed.

Lemma record_path_paths w aligned fd :
  paths (record_path w aligned fd)
  = paths fd ++ [mkChain2Result (reverse (w_chain w)) (w_matched w) aligned
                                (w_qb w) (w_qe w) (w_tb w) (w_te w)].
Proof. reflexivity. Qed.

Lemma recorded_chain offset lo top chain m a qb qe tb te :
  chain <> [] -> StronglySorted (fun x y => y < x) chain ->
  Forall (fun x => offset + lo <= x <= offset + top) chain ->
  recorded offset lo top [mkChain2Result (reverse chain) m a qb qe tb te].
Proof.
  intros Hne Hs Hr. split; [simpl; lia |]. repeat constructor; cbn [Chain].
  - intros E. apply Hne. rewrite <- (reverse_involutive chain), E. reflexivity.
  - apply sorted_reverse_up. exact Hs.
  - apply Forall_reverse. exact Hr.
Qed.

Lemma backtrack_spec subs scores idxs offset top fuel :
  forall w fd,
    region_ok offset subs scores idxs ->
    0 <= w_i w <= top -> top < Z.of_nat (length subs) ->
    (Z.to_nat (w_i w) < fuel)%nat ->
    walk_ok offset top w ->
    exists w' fd',
      backtrack fuel subs idxs offset w fd = Some (w', fd') /\
      0 <= w_i w' <= w_i w /\
      bounds (close_walk w' fd') = bounds fd /\
      exists new,
        paths (close_walk w' fd') = paths fd ++ new /\
        recorded offset (w_i w') top new.
Proof.
  induction fuel as [| fuel IH]; intros w fd Hreg Hi Htop Hfuel Hw; [lia |].
  pose proof Hreg as (Hl1 & Hl2 & Hoff & Hbig & Hptr).
  destruct Hw as (Hsorted & Hrange & Hfirst).
  cbn [backtrack].
  destruct (index_at_Some idxs (w_i w) ltac:(lia)) as [prev Eprev]. rewrite Eprev.
  specialize (Hptr _ _ Eprev).
  assert (sub prev offset = prev - offset) as -> by (apply i64_small; lia).
  destruct (Z.ltb_spec0 (prev - offset) 0) as [Hneg | Hpos].
  { (* the walk leaves the region *)
    eexists _, fd. split; [reflexivity |]. cbn [w_i]. split; [lia |].
    unfold close_walk. cbn [w_j w_chain w_aligned w_qe w_qb].
    destruct (Z.ltb_spec0 (prev - offset) 0); [| lia].
    destruct (w_chain w) as [| x chain] eqn:Echain.
    - split; [reflexivity |]. exists []. rewrite app_nil_r.
      split; [reflexivity |]. split; [simpl; lia | constructor].
    - split; [reflexivity |]. eexists. split; [apply record_path_paths |].
      cbn [w_chain w_matched w_qb w_qe w_tb w_te].
      apply recorded_chain; [discriminate | exact Hsorted |].
      eapply Forall_impl; [exact Hrange |]. intros y Hy. cbn beta in Hy. lia. }
  destruct (index_at_Some subs (w_i w) ltac:(lia)) as [s Es]. rewrite Es.
  cbv zeta.
  assert (add (w_i w) offset = w_i w + offset) as Eadd by (apply i64_small; lia).
  rewrite !Eadd.
  (* the walk after the anchor at [w_i w] *)
  match goal with
  | |- context [if w_i w =? prev - offset then _ else backtrack fuel subs idxs offset ?w2 fd] =>
      match w2 with
      | mkWalk _ _ (w_chain ?w1) _ _ _ _ _ _ _ _ => set (w1' := w1)
      end
  end.
  assert (StronglySorted (fun x y => y < x) (w_chain w1') /\
          Forall (fun x => offset + w_i w <= x <= offset + top) (w_chain w1') /\
          (w_first w1' = true <-> w_chain w1' = []) /\
          w_i w1' = w_i w /\ w_j w1' = prev - offset) as (Hs1 & Hr1 & Hf1 & Hi1 & Hj1).
  { subst w1'.
    assert (Forall (fun x => offset + w_i w <= x <= offset + top) (w_chain w)) as Hr
      by (eapply Forall_impl; [exact Hrange |]; intros y Hy; cbn beta in Hy; lia).
    assert (StronglySorted (fun x y => y < x) (w_chain w ++ [w_i w + offset]) /\
            Forall (fun x => offset + w_i w <= x <= offset + top)
                   (w_chain w ++ [w_i w + offset])) as [Hs' Hr'].
    { split.
      - apply sorted_snoc_down; [exact Hsorted |].
        eapply Forall_impl; [exact Hrange |]. intros y Hy. cbn beta in Hy. lia.
      - apply Forall_app. split; [exact Hr |]. repeat constructor; lia. }
    destruct (overlaps (bounds fd) s).
    - cbn [w_chain w_first w_i w_j]. auto.
    - destruct (w_first w); cbn [w_chain w_first w_i w_j];
        (repeat split; auto; try discriminate;
         intros E; apply app_eq_nil in E; destruct E; discriminate). }
  clearbody w1'.
  destruct (Z.eqb_spec (w_i w) (prev - offset)) as [Eij | Nij].
  { (* the chain begins here *)
    destruct (w_first w1') eqn:Efirst.
    - exists w1', fd. split; [reflexivity |]. split; [lia |].
      unfold close_walk. rewrite Hj1.
      destruct (Z.ltb_spec0 (prev - offset) 0); [lia |].
      split; [reflexivity |]. exists []. rewrite app_nil_r.
      split; [reflexivity |]. split; [simpl; lia | constructor].
    - eexists _, _. split; [reflexivity |]. cbn [w_i]. split; [lia |].
      unfold close_walk. cbn [w_j].
      destruct (Z.ltb_spec0 (prev - offset) 0); [lia |].
      split; [reflexivity |]. eexists. split; [apply record_path_paths |].
      apply recorded_chain; [| exact Hs1 |].
      + intros E. apply Hf1 in E. congruence.
      + exact Hr1. }
  (* the walk goes on from the anchor before *)
  match goal with
  | |- context [backtrack fuel subs idxs offset ?w2 fd] =>
      destruct (IH w2 fd) as (w' & fd' & Hrun & Hi' & Hb' & new & Hnew & Hrec)
  end.
  - exact Hreg.
  - cbn [w_i]. lia.
  - exact Htop.
  - cbn [w_i]. lia.
  - cbn [w_chain w_first w_i]. split; [exact Hs1 |]. split; [| exact Hf1].
    eapply Forall_impl; [exact Hr1 |]. intros y Hy. cbn [w_i] in Hy |- *. lia.
  - cbn [w_i] in Hi'. exists w', fd'. split; [exact Hrun |]. split; [lia |].
    split; [exact Hb' |]. exists new. split; [exact Hnew | exact Hrec].
Qed.

Lemma highest_range scores : forall i best besti,
  0 <= i -> 0 <= besti ->
  0 <= snd (highest scores i best besti) /\
  (snd (highest scores i best besti) = besti \/
   i <= snd (highest scores i best besti) < i + Z.of_nat (length scores)).
Proof.
  induction scores as [| m scores IH]; intros i best besti Hi Hb; cbn [highest].
  - cbn. auto.
  - destruct (best <? m).
    + destruct (IH (i + 1) m i ltac:(lia) Hi) as [H0 [H | H]];
        (split; [exact H0 |]); right; cbn [length]; lia.
    + destruct (IH (i + 1) best besti ltac:(lia) Hb) as [H0 [H | H]];
        (split; [exact H0 |]); [left; exact H | right; cbn [length]; lia].
Qed.

Lemma chain_ok_mono lo hi lo' hi' c :
  lo' <= lo -> hi <= hi' -> chain_ok lo hi c -> chain_ok lo' hi' c.
Proof.
  intros Hlo Hhi (Hne & Hs & Hr). repeat split; auto.
  eapply Forall_impl; [exact Hr |]. intros x Hx. cbn beta in Hx. lia.
Qed.

Lemma recorded_chain_ok offset lo top new :
  recorded offset lo top new ->
  Forall (chain_ok (offset + lo) (offset + top + 1)) new /\
  StronglySorted chains_apart new.
Proof.
  intros [Hlen Hall]. split.
  - eapply Forall_impl; [exact Hall |]. intros c (Hne & Hs & Hr).
    repeat split; auto. eapply Forall_impl; [exact Hr |].
    intros x Hx. cbn beta in Hx. lia.
  - destruct new as [| c [| c' new]]; [constructor | repeat constructor |].
    simpl in Hlen. lia.
Qed.

Lemma chains_apart_ranges lo hi lo' hi' c1 c2 :
  hi <= lo' \/ hi' <= lo ->
  chain_ok lo hi c1 -> chain_ok lo' hi' c2 -> chains_apart c1 c2.
Proof.
  intros Hsep (_ & _ & Hr1) (_ & _ & Hr2) x Hx1 Hx2.
  rewrite Forall_forall in Hr1, Hr2.
  specialize (Hr1 _ Hx1). specialize (Hr2 _ Hx2). cbn beta in *. lia.
Qed.

Lemma chains_apart_app lo hi lo' hi' l1 l2 :
  hi <= lo' \/ hi' <= lo ->
  Forall (chain_ok lo hi) l1 -> Forall (chain_ok lo' hi') l2 ->
  StronglySorted chains_apart l1 -> StronglySorted chains_apart l2 ->
  StronglySorted chains_apart (l1 ++ l2).
Proof.
  intros Hsep H1 H2 Hs1 Hs2. apply StronglySorted_app_2; auto.
  intros c1 c2 Hc1 Hc2. rewrite Forall_forall in H1, H2.
  eapply chains_apart_ranges; eauto.
Qed.

Lemma index_at_drop {A} (l : list A) n i :
  0 <= n -> 0 <= i -> index_at (drop (Z.to_nat n) l) i = index_at l (n + i).
Proof.
  intros Hn Hi. unfold index_at.
  destruct (Z.ltb_spec0 i 0); [lia |]. destruct (Z.ltb_spec0 (n + i) 0); [lia |].
  rewrite lookup_drop. f_equal. lia.
Qed.

Lemma index_at_take {A} (l : list A) n i x :
  index_at (take n l) i = Some x -> index_at l i = Some x.
Proof.
  unfold index_at. destruct (i <? 0); [discriminate |].
  intros H. apply lookup_take_Some in H. apply H.
Qed.

Lemma region_ok_drop offset subs scores idxs n :
  region_ok offset subs scores idxs -> 0 <= n <= Z.of_nat (length subs) ->
  region_ok (offset + n) (drop (Z.to_nat n) subs) (drop (Z.to_nat n) scores)
            (drop (Z.to_nat n) idxs).
Proof.
  intros (Hl1 & Hl2 & Hoff & Hbig & Hptr) Hn.
  unfold region_ok. rewrite !length_drop.
  split; [lia |]. split; [lia |]. split; [lia |]. split; [lia |].
  intros i p Ep. pose proof (index_at_range _ _ _ Ep) as Hi.
  rewrite index_at_drop in Ep by lia.
  specialize (Hptr _ _ Ep). lia.
Qed.

Lemma region_ok_take offset subs scores idxs n :
  region_ok offset subs scores idxs ->
  region_ok offset (take n subs) (take n scores) (take n idxs).
Proof.
  intros (Hl1 & Hl2 & Hoff & Hbig & Hptr).
  unfold region_ok. rewrite !length_take.
  split; [lia |]. split; [lia |]. split; [lia |]. split; [lia |].
  intros i p Ep. apply index_at_take in Ep. exact (Hptr _ _ Ep).
Qed.

Lemma chainARegion_spec minScore fuel :
  forall subs scores idxs offset Mi0 fd,
    region_ok offset subs scores idxs ->
    (1 <= length subs)%nat -> (length subs < fuel)%nat ->
    (Mi0 < 0 \/ 0 <= Mi0 < Z.of_nat (length subs)) ->
    exists r fd',
      chainARegion fuel subs scores idxs offset minScore Mi0 fd = Some (r, fd') /\
      exists new,
        paths fd' = paths fd ++ new /\
        Forall (chain_ok offset (offset + Z.of_nat (length subs))) new /\
        StronglySorted chains_apart new.
Proof.
  induction fuel as [| fuel IH]; intros subs scores idxs offset Mi0 fd Hreg Hne Hfuel HMi0;
    [lia |].
  pose proof Hreg as (Hl1 & Hl2 & Hoff & Hbig & Hptr).
  cbn [chainARegion].
  destruct (if Mi0 <? 0 then highest scores 0 0 0 else (0, Mi0)) as [M Mi] eqn:EM.
  assert (0 <= Mi < Z.of_nat (length subs)) as HMi.
  { destruct (Z.ltb_spec0 Mi0 0).
    - pose proof (highest_range scores 0 0 0 ltac:(lia) ltac:(lia)) as Hh.
      rewrite EM in Hh. cbn [snd] in Hh. lia.
    - injection EM as <- <-. lia. }
  destruct ((Mi0 <? 0) && (M <? minScore)).
  { eexists _, fd. split; [reflexivity |]. exists []. rewrite app_nil_r.
    repeat split; constructor. }
  destruct (backtrack_spec subs scores idxs offset Mi (S (Z.to_nat Mi))
              (mkWalk Mi 0 [] true 0 0 0 0 0 0 0) fd Hreg)
    as (w & fd1 & -> & Hwi & _ & new0 & Hnew0 & Hrec0); cbn [w_i] in *.
  { cbn [w_i]. lia. }
  { lia. }
  { cbn [w_i]. lia. }
  { unfold walk_ok. cbn [w_chain w_first w_i]. repeat split; auto; constructor. }
  fold (close_walk w fd1).
  set (fd2 := mkFound (paths (close_walk w fd1)) (nMatchedBases (close_walk w fd1))
                      (nAlignedBases (close_walk w fd1))
                      (bounds (close_walk w fd1) ++ [w_qb w; w_qe w; w_tb w; w_te w])).
  assert (paths fd2 = paths fd ++ new0) as Hp2 by exact Hnew0.
  clearbody fd2. clear Hnew0.
  destruct (recorded_chain_ok _ _ _ _ Hrec0) as [Hok0 Hapart0]. clear Hrec0.
  set (box := (w_qb w, w_qe w, w_tb w, w_te w)). clearbody box.
  (* the region on the right *)
  assert (exists box3 fd3 new1,
            (if negb (Mi =? Z.of_nat (length scores) - 1)
             then match chainARegion fuel (drop (Z.to_nat (Mi + 1)) subs)
                                     (drop (Z.to_nat (Mi + 1)) scores)
                                     (drop (Z.to_nat (Mi + 1)) idxs)
                                     (add (add offset Mi) 1) minScore (-1) fd2 with
                  | None => None
                  | Some (r, fd) => Some (widen box r, fd)
                  end
             else Some (box, fd2)) = Some (box3, fd3) /\
            paths fd3 = paths fd2 ++ new1 /\
            Forall (chain_ok (offset + Mi + 1) (offset + Z.of_nat (length subs))) new1 /\
            StronglySorted chains_apart new1)
    as (box3 & fd3 & new1 & -> & Hp3 & Hok1 & Hapart1).
  { destruct (Z.eqb_spec Mi (Z.of_nat (length scores) - 1)) as [Elast | Nlast]; cbn [negb].
    - exists box, fd2, []. rewrite app_nil_r. repeat split; constructor.
    - assert (add (add offset Mi) 1 = offset + (Mi + 1)) as ->.
      { unfold add. rewrite (i64_small (offset + Mi)) by lia.
        rewrite i64_small by lia. lia. }
      destruct (IH (drop (Z.to_nat (Mi + 1)) subs) (drop (Z.to_nat (Mi + 1)) scores)
                   (drop (Z.to_nat (Mi + 1)) idxs) (offset + (Mi + 1)) (-1) fd2)
        as ([r1 b1] & fd3 & -> & new1 & Hp3 & Hok1 & Hapart1).
      + apply region_ok_drop; [exact Hreg | lia].
      + rewrite length_drop. lia.
      + rewrite length_drop. lia.
      + left. lia.
      + eexists _, fd3, new1. split; [reflexivity |]. split; [exact Hp3 |].
        split; [| exact Hapart1].
        rewrite length_drop in Hok1.
        eapply Forall_impl; [exact Hok1 |]. intros c. apply chain_ok_mono; lia. }
  (* the region on the left *)
  destruct (Z.ltb_spec0 0 (w_i w)) as [Hleft | Hleft].
  - destruct (IH (take (Z.to_nat (w_i w)) subs) (take (Z.to_nat (w_i w)) scores)
                 (take (Z.to_nat (w_i w)) idxs) offset (-1) fd3)
      as ([r2 b2] & fd4 & -> & new2 & Hp4 & Hok2 & Hapart2).
    + apply region_ok_take. exact Hreg.
    + rewrite length_take. cbn [w_i] in Hwi. lia.
    + rewrite length_take. lia.
    + left. lia.
    + eexists _, fd4. split; [reflexivity |].
      exists (new0 ++ new1 ++ new2).
      split; [rewrite Hp4, Hp3, Hp2, <- !app_assoc; reflexivity |].
      rewrite length_take in Hok2. cbn [w_i] in Hwi.
      replace (Z.of_nat (Z.to_nat (w_i w) `min` length subs)) with (w_i w) in Hok2 by lia.
      split.
      * rewrite !Forall_app. repeat split.
        -- eapply Forall_impl; [exact Hok0 |]. intros c. apply chain_ok_mono; lia.
        -- eapply Forall_impl; [exact Hok1 |]. intros c. apply chain_ok_mono; lia.
        -- eapply Forall_impl; [exact Hok2 |]. intros c. apply chain_ok_mono; lia.
      * apply StronglySorted_app_2; [| exact Hapart0 |].
        -- intros c1 c2 Hc1 Hc2. rewrite Forall_forall in Hok0, Hok1, Hok2.
           apply elem_of_app in Hc2. destruct Hc2 as [Hc2 | Hc2].
           ++ eapply chains_apart_ranges; [| exact (Hok0 _ Hc1) | exact (Hok1 _ Hc2)]. lia.
           ++ eapply chains_apart_ranges; [| exact (Hok0 _ Hc1) | exact (Hok2 _ Hc2)]. lia.
        -- eapply chains_apart_app; [| exact Hok1 | exact Hok2 | exact Hapart1 | exact Hapart2].
           lia.
  - eexists _, fd3. split; [reflexivity |].
    exists (new0 ++ new1).
    split; [rewrite Hp3, Hp2, <- !app_assoc; reflexivity |].
    split.
    + rewrite !Forall_app. split.
      * eapply Forall_impl; [exact Hok0 |]. intros c. apply chain_ok_mono; lia.
      * eapply Forall_impl; [exact Hok1 |]. intros c. apply chain_ok_mono; lia.
    + eapply chains_apart_app; [| exact Hok0 | exact Hok1 | exact Hapart0 | exact Hapart1].
      lia.
Qed.

Lemma Chainer2_Chain_spec opts subs :
  subs <> [] -> Z.of_nat (length subs) < 2 ^ 63 ->
  exists chains matched aligned box,
    Chainer2_Chain opts subs = Some (chains, matched, aligned, box) /\
    Forall (chain_ok 0 (Z.of_nat (length subs))) chains /\
    StronglySorted chains_apart chains.
Proof.
  intros Hne Hlen. unfold Chainer2_Chain.
  destruct subs as [| s [| s' rest]]; [congruence | |].
  - (* one anchor *)
    destruct (MinScore opts <=? Index.Len s).
    + eexists _, _, _, _. split; [reflexivity |]. split; [| repeat constructor].
      repeat constructor; cbn; try discriminate; lia.
    + eexists _, _, _, _. split; [reflexivity |]. split; constructor.
  - set (subs := s :: s' :: rest) in *.
    destruct (compute_scores_spec opts subs Hne) as (sc & -> & Hl1 & Hl2 & Hscores & Hbest).
    destruct (M sc <? early_exit_score).
    { eexists _, _, _, _. split; [reflexivity |]. split; constructor. }
    assert (region_ok 0 subs (maxscores sc) (maxscoresIdxs sc)) as Hreg.
    { unfold region_ok. split; [exact Hl1 |]. split; [exact Hl2 |].
      split; [lia |]. split; [lia |].
      intros i p Ep. pose proof (index_at_range _ _ _ Ep) as Hi.
      destruct (Hscores i ltac:(lia)) as (a & s0 & p' & _ & _ & Ep' & _ & _ & Hfrom).
      rewrite Ep in Ep'. injection Ep' as <-.
      destruct Hfrom as [[-> _] | (b & sj & ? & ? & _)]; lia. }
    assert (0 <= Mi sc < Z.of_nat (length subs)) as HMi.
    { destruct Hbest as [_ [[_ ->] | (H1 & HM & _)]].
      - subst subs. simpl. lia.
      - apply index_at_range in HM. lia. }
    destruct (chainARegion_spec (MinScore opts) (S (length subs)) subs (maxscores sc)
                (maxscoresIdxs sc) 0 (Mi sc) (mkFound [] 0 0 []) Hreg)
      as ([r box] & fd' & -> & new & Hp & Hok & Hapart).
    + subst subs. simpl. lia.
    + lia.
    + right. exact HMi.
    + cbn [paths app] in Hp. rewrite Hp.
      eexists _, _, _, _. split; [reflexivity |]. split; [exact Hok | exact Hapart].
Qed.

(** X8. [Chain] panics on an empty anchor list, at
    [subs[0]], and on no other list.  On a list that is not empty it
    returns chains that are not empty, whose anchor indexes go strictly
    upwards and are indexes of the list, and no anchor is used by two
    chains. *)
Theorem Chain_chains_disjoint opts subs :
  Z.of_nat (length subs) < 2 ^ 63 ->
  match Chainer2_Chain opts subs with
  | None => subs = []
  | Some (chains, _, _, _) =>
      subs <> [] /\
      Forall (chain_ok 0 (Z.of_nat (length subs))) chains /\
      StronglySorted chains_apart chains
  end.
Proof.
  intros Hlen. destruct subs as [| s rest]; [reflexivity |].
  destruct (Chainer2_Chain_spec opts (s :: rest) ltac:(discriminate) Hlen)
    as (chains & matched & aligned & box & -> & Hok & Hapart).
  split; [discriminate |]. split; assumption.
Qed.

Lemma Chain_chains_disjoint_witness :
  match Chainer2_Chain DefaultChaining2Options
          [Index.mkSubstrPair 0 0 60 0 false false;
           Index.mkSubstrPair 40 40 60 0 false false;
           Index.mkSubstrPair 5000 9000 120 0 false false] with
  | None => False
  | Some (chains, _, _, _) =>
      Forall (chain_ok 0 3) chains /\ StronglySorted chains_apart chains
  end.
Proof.
  pose proof (Chain_chains_disjoint DefaultChaining2Options
           [Index.mkSubstrPair 0 0 60 0 false false;
            Index.mkSubstrPair 40 40 60 0 false false;
            Index.mkSubstrPair 5000 9000 120 0 false false]
           ltac:(simpl; lia)) as H.
  destruct (Chainer2_Chain _ _) as [[[[chains ?] ?] ?] |]; [| discriminate H].
  destruct H as (_ & H1 & H2). split; assumption.
Defined.
End Chainer2Chains.
(** ** [ClearSubstrPairs]: what is removed *)

Section ClearSubstrPairsMore.
Import Int Index.

Lemma keep_unmarked_sublist markers : forall s,
  keep_unmarked markers s `sublist_of` s.
Proof.
  induction markers as [| m markers IH]; intros [| v s]; cbn [keep_unmarked];
    try apply sublist_nil_l.
  destruct m; [apply sublist_cons | apply sublist_skip]; apply IH.
Qed.

Lemma keep_unmarked_elem markers : forall s i v,
  s !! i = Some v -> markers !! i = Some false -> v ∈ keep_unmarked markers s.
Proof.
  induction markers as [| m markers IH]; intros [| x s] [| i] v Hv Hm;
    try discriminate; cbn [keep_unmarked].
  - simpl in *. injection Hv as ->. injection Hm as ->. left.
  - simpl in *. destruct m; [| right]; eapply IH; eauto.
Qed.

(** What [ClearSubstrPairs] returns for two anchors or more: the anchors
    of the sorted list that the marking loop leaves unmarked. *)
Lemma ClearSubstrPairs_by_kept sort subs k :
  sort less subs ≡ₚ subs -> (2 <= length subs)%nat ->
  ClearSubstrPairs_by sort subs k
  = keep_unmarked (mark_embedded (sort less subs) k) (sort less subs).
Proof.
  intros Hperm Hlong. unfold ClearSubstrPairs_by.
  destruct (Nat.ltb_spec (length subs) 2); [lia |].
  set (sorted := sort less subs) in *.
  destruct (compact (mark_embedded sorted k) 0 0 sorted) as [subs' j] eqn:Ecompact.
  apply compact_spec in Ecompact;
    [| lia | unfold mark_embedded; rewrite length_imap; lia].
  rewrite drop_0 in Ecompact. simpl in Ecompact. destruct Ecompact as [Htake ->].
  set (kept := keep_unmarked (mark_embedded sorted k) sorted) in *.
  assert (0 < length kept)%nat as Hne.
  { subst kept. unfold mark_embedded.
    destruct sorted as [| v sorted'] eqn:Es.
    - apply Permutation_length in Hperm. simpl in Hperm. lia.
    - rewrite imap_cons. simpl. lia. }
  destruct (Nat.ltb_spec 0 (length kept)); [exact Htake | lia].
Qed.

Lemma ClearSubstrPairs_submseteq pdqsort_func subs k :
  ((12 < length subs)%nat -> pdqsort_func less subs ≡ₚ subs) ->
  ClearSubstrPairs pdqsort_func subs k ⊆+ subs /\
  (subs <> [] -> ClearSubstrPairs pdqsort_func subs k <> []).
Proof.
  intros Hpdq. pose proof (sort_Slice_perm pdqsort_func less subs Hpdq) as Hperm.
  destruct (Nat.le_gt_cases 2 (length subs)) as [Hlong | Hshort].
  - unfold ClearSubstrPairs.
    rewrite ClearSubstrPairs_by_kept by assumption.
    split.
    + transitivity (sort_Slice pdqsort_func less subs).
      * apply sublist_submseteq, keep_unmarked_sublist.
      * apply Permutation_submseteq, Hperm.
    + intros _.
      destruct (sort_Slice pdqsort_func less subs) as [| v sorted'].
      * apply Permutation_length in Hperm. simpl in Hperm. lia.
      * unfold mark_embedded. rewrite imap_cons. simpl. discriminate.
  - unfold ClearSubstrPairs, ClearSubstrPairs_by.
    destruct (Nat.ltb_spec (length subs) 2); [| lia]. auto.
Qed.

(** X9. [ClearSubstrPairs] only removes anchors:
    what it returns is, up to the order, a part of what it was given, each
    anchor as often as it was there at most; and it never empties a list
    that holds an anchor.  For up to 12 anchors this is so as it stands;
    for more, it is so whenever [pdqsort_func] returns the anchors
    rearranged. *)
Theorem ClearSubstrPairs_only_removes pdqsort_func subs k :
  ((12 < length subs)%nat -> pdqsort_func less subs ≡ₚ subs) ->
  ClearSubstrPairs pdqsort_func subs k ⊆+ subs /\
  (length (ClearSubstrPairs pdqsort_func subs k) <= length subs)%nat /\
  (ClearSubstrPairs pdqsort_func subs k = [] <-> subs = []).
Proof.
  intros Hpdq.
  destruct (ClearSubstrPairs_submseteq pdqsort_func subs k Hpdq) as [Hsub Hne].
  split; [exact Hsub |]. split; [apply submseteq_length; exact Hsub |].
  split.
  - intros E. destruct subs as [| a subs]; [reflexivity |].
    exfalso. apply Hne; [discriminate | exact E].
  - intros ->. reflexivity.
Qed.

Lemma ClearSubstrPairs_only_removes_witness :
  ClearSubstrPairs insertionSort sample_anchors 31 ⊆+ sample_anchors /\
  (length (ClearSubstrPairs insertionSort sample_anchors 31)
   <= length sample_anchors)%nat /\
  (ClearSubstrPairs insertionSort sample_anchors 31 = [] <-> sample_anchors = []).
Proof.
  apply (ClearSubstrPairs_only_removes insertionSort sample_anchors 31).
  intros _. exact (proj1 sample_anchors_sorts).
Defined.

Lemma nested_refl a : nested a a.
Proof. unfold nested. lia. Qed.

Lemma nested_trans a b c : nested a b -> nested b c -> nested a c.
Proof. unfold nested. lia. Qed.

(** The marking loop marks an anchor only when one before it holds it. *)
Lemma check_previous_sound s k v : forall n,
  check_previous s k v n = true ->
  exists j p, (j < n)%nat /\ s !! j = Some p /\
    qend32 v <= qend32 p /\ TBegin p <= TBegin v /\ tend32 v <= tend32 p.
Proof.
  induction n as [| n IH]; cbn [check_previous]; [discriminate |].
  destruct (s !! n) as [p |] eqn:Ep; [| discriminate]. cbv zeta.
  destruct (QBegin p <? _); [discriminate |].
  destruct ((qend32 v <=? qend32 p) && (TBegin p <=? TBegin v)
            && (tend32 v <=? tend32 p)) eqn:Econd.
  - intros _. rewrite !andb_true_iff, !Z.leb_le in Econd.
    exists n, p. repeat split; auto; lia.
  - intros H. destruct (IH H) as (j & p' & Hj & ?). exists j, p'. split; [lia | auto].
Qed.

Lemma sorted_lookup_lt {A} (R : A -> A -> Prop) l i j x y :
  StronglySorted R l -> (i < j)%nat -> l !! i = Some x -> l !! j = Some y -> R x y.
Proof.
  intros Hs. revert i j. induction Hs as [| z l Hs IH Hz]; intros i j Hij Hx Hy.
  - discriminate.
  - destruct j as [| j]; [lia |]. simpl in Hy. destruct i as [| i].
    + simpl in Hx. injection Hx as ->. rewrite Forall_forall in Hz.
      apply Hz. eapply list_elem_of_lookup_2. exact Hy.
    + simpl in Hx. apply (IH i j); auto. lia.
Qed.

Lemma marked_nested s k i v :
  Forall (no_overflow k) s -> StronglySorted less_exact s ->
  s !! i = Some v -> check_previous s k v i = true ->
  exists j p, (j < i)%nat /\ s !! j = Some p /\ nested v p.
Proof.
  intros Hok Hsorted Hv Hcheck.
  destruct (check_previous_sound _ _ _ _ Hcheck) as (j & p & Hj & Hp & Hq & Ht & Hte).
  exists j, p. split; [exact Hj |]. split; [exact Hp |].
  rewrite Forall_forall in Hok.
  pose proof (Hok _ (list_elem_of_lookup_2 _ _ _ Hv)) as Hvok.
  pose proof (Hok _ (list_elem_of_lookup_2 _ _ _ Hp)) as Hpok.
  rewrite (qend32_exact k v Hvok), (qend32_exact k p Hpok) in Hq.
  rewrite (tend32_exact k v Hvok), (tend32_exact k p Hpok) in Hte.
  pose proof (sorted_lookup_lt _ _ _ _ _ _ Hsorted Hj Hp Hv) as Hless.
  unfold nested, less_exact in *. lia.
Qed.

Lemma kept_covers s k :
  Forall (no_overflow k) s -> StronglySorted less_exact s ->
  forall i v, s !! i = Some v ->
    exists q, q ∈ keep_unmarked (mark_embedded s k) s /\ nested v q.
Proof.
  intros Hok Hsorted i. induction i as [i IH] using lt_wf_ind. intros v Hv.
  destruct (check_previous s k v i) eqn:Echeck.
  - destruct (marked_nested s k i v Hok Hsorted Hv Echeck) as (j & p & Hj & Hp & Hnest).
    destruct (IH j Hj p Hp) as (q & Hq & Hpq).
    exists q. split; [exact Hq |]. eapply nested_trans; eauto.
  - exists v. split; [| apply nested_refl].
    apply (keep_unmarked_elem _ _ i); [exact Hv |].
    unfold mark_embedded. rewrite list_lookup_imap, Hv. simpl. rewrite Echeck. reflexivity.
Qed.

(** X10. Nothing is lost by the removal: when no
    [int32] computation wraps around, every anchor given to
    [ClearSubstrPairs] lies, in the query and in the target, within an
    anchor that is kept (itself, when it is kept).  For up to 12 anchors
    this is so as it stands; for more, it is so whenever [pdqsort_func]
    returns the anchors rearranged and sorted by [less]. *)
Theorem ClearSubstrPairs_covers pdqsort_func subs k a :
  Forall (no_overflow k) subs ->
  ((12 < length subs)%nat -> sorts less subs (pdqsort_func less subs)) ->
  a ∈ subs ->
  exists b, b ∈ ClearSubstrPairs pdqsort_func subs k /\ nested a b.
Proof.
  intros Hok Hpdq Ha.
  destruct (sort_Slice_sorts pdqsort_func subs k Hok Hpdq) as [Hperm Hsorted0].
  destruct (Nat.le_gt_cases 2 (length subs)) as [Hlong | Hshort].
  - unfold ClearSubstrPairs.
    rewrite ClearSubstrPairs_by_kept by assumption.
    assert (StronglySorted less_exact (sort_Slice pdqsort_func less subs)) as Hsorted.
    { eapply StronglySorted_impl_on; [| rewrite Hperm; exact Hok | exact Hsorted0].
      intros x y Hx Hy. apply (less_exact_iff k); assumption. }
    rewrite <- Hperm in Ha, Hok.
    apply list_elem_of_lookup in Ha. destruct Ha as [i Hi].
    exact (kept_covers _ k Hok Hsorted i a Hi).
  - exists a. split; [| apply nested_refl].
    unfold ClearSubstrPairs, ClearSubstrPairs_by.
    destruct (Nat.ltb_spec (length subs) 2); [exact Ha | lia].
Qed.

Lemma ClearSubstrPairs_covers_witness :
  exists b,
    b ∈ ClearSubstrPairs insertionSort sample_anchors 31 /\
    nested (mkSubstrPair 12 112 25 1 false false) b.
Proof.
  apply (ClearSubstrPairs_covers insertionSort sample_anchors 31).
  - exact sample_anchors_ok.
  - intros _. exact sample_anchors_sorts.
  - unfold sample_anchors. right. right. left.
Defined.

(** A list in which [lt] holds from each element to every later one,
    and never back, has one sorted rearrangement only: itself. *)
Lemma sorted_rearrangement_eq {A} (lt : A -> A -> bool) (l : list A) : forall l',
  StronglySorted (fun a b => lt a b = true /\ lt b a = false) l ->
  l' ≡ₚ l -> StronglySorted (fun a b => lt a b = true) l' -> l' = l.
Proof.
  induction l as [| x l IH]; intros l' Hstrict Hperm Hsorted.
  - apply Permutation_nil_r in Hperm. exact Hperm.
  - destruct l' as [| y l'];
      [symmetry in Hperm; apply Permutation_nil_r in Hperm; discriminate Hperm |].
    apply StronglySorted_inv in Hstrict. destruct Hstrict as [Hstrict Hx].
    apply StronglySorted_inv in Hsorted. destruct Hsorted as [Hsorted Hy].
    rewrite Forall_forall in Hx, Hy.
    assert (y = x) as ->.
    { assert (y ∈ x :: l) as Hin by (rewrite <- Hperm; left).
      apply elem_of_cons in Hin. destruct Hin as [-> | Hin]; [reflexivity |].
      assert (x ∈ y :: l') as Hin' by (rewrite Hperm; left).
      apply elem_of_cons in Hin'. destruct Hin' as [-> | Hin']; [reflexivity |].
      destruct (Hx y Hin) as [_ Hback]. rewrite (Hy x Hin') in Hback.
      discriminate Hback. }
    f_equal. apply IH; [exact Hstrict | | exact Hsorted].
    apply (Permutation_cons_inv Hperm).
Qed.

Lemma keep_unmarked_all_false s markers :
  length markers = length s -> Forall (fun m => m = false) markers ->
  keep_unmarked markers s = s.
Proof.
  revert markers. induction s as [| v s IH]; intros [| m markers] Hlen Hall;
    try discriminate; [reflexivity |].
  apply Forall_cons in Hall. destruct Hall as [-> Hall].
  cbn [keep_unmarked]. f_equal. apply IH; [simpl in Hlen; lia | exact Hall].
Qed.

(** X11. Cleaning a cleaned list changes nothing:
    when the anchors have [Len <= k] and no [int32] computation wraps
    around, [ClearSubstrPairs] applied to its own result returns it as it
    is.  For up to 12 anchors this is so as it stands; for more, it is so
    whenever [pdqsort_func] returns the anchors of each of the two calls
    rearranged and sorted by [less]. *)
Theorem ClearSubstrPairs_idempotent pdqsort_func subs k :
  - 2 ^ 31 <= k < 2 ^ 31 ->
  Forall (no_overflow k) subs -> Forall (fun a => Len a <= k) subs ->
  ((12 < length subs)%nat -> sorts less subs (pdqsort_func less subs)) ->
  ((12 < length (ClearSubstrPairs pdqsort_func subs k))%nat ->
   sorts less (ClearSubstrPairs pdqsort_func subs k)
         (pdqsort_func less (ClearSubstrPairs pdqsort_func subs k))) ->
  ClearSubstrPairs pdqsort_func (ClearSubstrPairs pdqsort_func subs k) k
  = ClearSubstrPairs pdqsort_func subs k.
Proof.
  intros Hk Hok Hlen Hpdq Hpdq2.
  set (res := ClearSubstrPairs pdqsort_func subs k) in *.
  destruct (Nat.le_gt_cases 2 (length res)) as [Hlong | Hshort].
  2:{ unfold ClearSubstrPairs at 1, ClearSubstrPairs_by.
      destruct (Nat.ltb_spec (length res) 2); [reflexivity | lia]. }
  destruct (sort_Slice_sorts pdqsort_func subs k Hok Hpdq) as [Hperm Hsorted0].
  assert (2 <= length subs)%nat as Hlong'.
  { pose proof (submseteq_length _ _
                  (proj1 (ClearSubstrPairs_submseteq pdqsort_func subs k
                            (fun H => proj1 (Hpdq H)))))
      as H.
    fold res in H. lia. }
  (* the result, as the sorted anchors that are not marked *)
  set (sorted := sort_Slice pdqsort_func less subs) in *.
  assert (Forall (no_overflow k) sorted) as Hok' by (rewrite Hperm; exact Hok).
  assert (Forall (fun a => Len a <= k) sorted) as Hlen' by (rewrite Hperm; exact Hlen).
  assert (StronglySorted less_exact sorted) as Hsorted.
  { eapply StronglySorted_impl_on; [| exact Hok' | exact Hsorted0].
    intros x y Hx Hy. apply (less_exact_iff k); assumption. }
  destruct (keep_unmarked_spec _ k Hk Hok' Hlen' Hsorted [] _ eq_refl)
    as (Hkept & Hres_sorted & Hres_nest).
  cbn [length Nat.add] in *. fold (mark_embedded sorted k) in *.
  assert (res = keep_unmarked (mark_embedded sorted k) sorted) as Eres.
  { subst res. unfold ClearSubstrPairs.
    apply ClearSubstrPairs_by_kept; [exact Hperm | exact Hlong']. }
  rewrite <- Eres in *.
  assert (Forall (no_overflow k) res) as Hres_ok.
  { rewrite Forall_forall in Hkept, Hok' |- *. intros e He.
    apply Hok'. apply Hkept. exact He. }
  (* the second sort changes nothing *)
  assert (sort_Slice pdqsort_func less res = res) as Esort.
  { destruct (sort_Slice_sorts pdqsort_func res k Hres_ok Hpdq2) as [Hperm2 Hsorted2].
    apply (sorted_rearrangement_eq less); [| exact Hperm2 | exact Hsorted2].
    assert (forall i j x y, (i < j)%nat -> res !! i = Some x -> res !! j = Some y ->
                            less x y = true /\ less y x = false) as Hpair.
    { intros i j x y Hij Hx Hy.
      pose proof (sorted_lookup_lt _ _ _ _ _ _ Hres_sorted Hij Hx Hy) as Hxy.
      pose proof (sorted_lookup_lt _ _ _ _ _ _ Hres_nest Hij Hx Hy) as [Hn1 Hn2].
      rewrite Forall_forall in Hres_ok.
      pose proof (Hres_ok _ (list_elem_of_lookup_2 _ _ _ Hx)) as Hxok.
      pose proof (Hres_ok _ (list_elem_of_lookup_2 _ _ _ Hy)) as Hyok.
      split; [apply (less_exact_iff k x y Hxok Hyok); exact Hxy |].
      destruct (less y x) eqn:E; [| reflexivity].
      apply (less_exact_iff k y x Hyok Hxok) in E.
      exfalso. apply Hn1. unfold nested, less_exact, qend, tend in *. lia. }
    clear -Hpair. induction res as [| x res IH]; [constructor |].
    constructor.
    - apply IH. intros i j a b Hij Ha Hb. apply (Hpair (S i) (S j)); auto. lia.
    - apply Forall_forall. intros y Hy. apply list_elem_of_lookup in Hy.
      destruct Hy as [j Hj]. apply (Hpair 0%nat (S j)); auto. lia. }
  unfold ClearSubstrPairs at 1.
  rewrite ClearSubstrPairs_by_kept by (rewrite ?Esort; auto).
  rewrite Esort.
  apply keep_unmarked_all_false.
  - unfold mark_embedded. apply length_imap.
  - apply Forall_forall. intros m Hm. apply list_elem_of_lookup in Hm.
    destruct Hm as [i Hi]. unfold mark_embedded in Hi.
    rewrite list_lookup_imap in Hi.
    destruct (res !! i) as [v |] eqn:Ev; [| discriminate]. simpl in Hi.
    injection Hi as <-.
    destruct (check_previous res k v i) eqn:Echeck; [| reflexivity].
    destruct (marked_nested res k i v Hres_ok Hres_sorted Ev Echeck)
      as (j & p & Hj & Hp & Hnest).
    pose proof (sorted_lookup_lt _ _ _ _ _ _ Hres_nest Hj Hp Ev) as [_ Hn].
    contradiction.
Qed.

Lemma ClearSubstrPairs_idempotent_witness :
  ClearSubstrPairs insertionSort (ClearSubstrPairs insertionSort sample_anchors 31) 31
  = ClearSubstrPairs insertionSort sample_anchors 31.
Proof.
  apply (ClearSubstrPairs_idempotent insertionSort sample_anchors 31).
  - lia.
  - exact sample_anchors_ok.
  - exact sample_anchors_Len.
  - intros _. exact sample_anchors_sorts.
  - intros H. vm_compute in H. lia.
Defined.
End ClearSubstrPairsMore.
(** ** Building an index *)

Section BuildProofs.
Import Int Build.

Lemma i64_exact x : - 2 ^ 63 <= x < 2 ^ 63 -> i64 x = x.
Proof. intros H. unfold i64. rewrite Z.mod_small by lia. lia. Qed.

(** The number of chunks of [size] that cover [n] items. *)
Lemma ceil_div n size :
  0 <= n -> 1 <= size -> n + size < 2 ^ 63 ->
  div (sub (add n size) 1) size = Some ((n + size - 1) / size) /\
  ((n + size - 1) / size - 1) * size < n + (if n =? 0 then 1 else 0) /\
  n <= (n + size - 1) / size * size /\
  0 <= (n + size - 1) / size.
Proof.
  intros Hn Hs Hbig. unfold div, sub, add.
  destruct (Z.eqb_spec size 0); [lia |].
  rewrite (i64_exact (n + size)) by lia.
  rewrite (i64_exact (n + size - 1)) by lia.
  rewrite Z.quot_div_nonneg by lia.
  assert (0 <= (n + size - 1) / size <= n + size - 1) as Hq.
  { split; [apply Z.div_pos; lia |]. apply Z.div_le_upper_bound; nia. }
  rewrite i64_exact by lia.
  split; [reflexivity |].
  destruct (Z.eqb_spec n 0); Z.div_mod_to_equations; nia.
Qed.

Lemma slice_Some {A} (s : list A) low high :
  0 <= low <= high -> high <= Z.of_nat (length s) ->
  slice s low high = Some (take (Z.to_nat (high - low)) (drop (Z.to_nat low) s)).
Proof.
  intros H1 H2. unfold slice.
  destruct (Z.leb_spec0 0 low); [| lia].
  destruct (Z.leb_spec0 low high); [| lia].
  destruct (Z.leb_spec0 high (Z.of_nat (length s))); [| lia]. reflexivity.
Qed.

(** *** The batches *)

Lemma batch_loop_spec {A} (infiles : list A) size total cnt :
  forall batch,
    1 <= size -> Z.of_nat (length infiles) + size < 2 ^ 63 ->
    0 <= batch -> batch + Z.of_nat cnt = total ->
    (total - 1) * size < Z.of_nat (length infiles) ->
    Z.of_nat (length infiles) <= total * size ->
    exists bs,
      batch_loop cnt infiles size batch = Some bs /\
      concat bs = drop (Z.to_nat (batch * size)) infiles /\
      Forall (fun b => (1 <= length b)%nat /\ Z.of_nat (length b) <= size) bs /\
      length bs = cnt.
Proof.
  induction cnt as [| cnt IH]; intros batch Hs Hbig Hb Htotal Hlast Hcover.
  - exists []. cbn. repeat split; auto.
    symmetry. apply drop_ge. nia.
  - cbn [batch_loop]. unfold batch_files.
    set (n := Z.of_nat (length infiles)) in *.
    assert (batch * size < n) as Hbegin by nia.
    assert (mul batch size = batch * size) as -> by (apply i64_exact; nia).
    assert (add (batch * size) size = batch * size + size) as ->
      by (apply i64_exact; nia).
    set (end_ := if n <? batch * size + size then n else batch * size + size).
    assert (batch * size < end_ <= n /\ end_ <= batch * size + size) as Hend.
    { subst end_. destruct (Z.ltb_spec0 n (batch * size + size)); lia. }
    rewrite slice_Some by lia.
    destruct (IH (batch + 1)) as (bs & -> & Hconcat & Hall & Hlen); try lia.
    eexists. split; [reflexivity |].
    cbn [concat]. rewrite Hconcat.
    split; [| split].
    + rewrite <- (take_drop (Z.to_nat (end_ - batch * size))
                            (drop (Z.to_nat (batch * size)) infiles)) at 2.
      f_equal. rewrite drop_drop.
      destruct (Z.eq_dec end_ (batch * size + size)) as [E | NE].
      * f_equal. nia.
      * assert (end_ = n) as En.
        { subst end_. destruct (Z.ltb_spec0 n (batch * size + size)); lia. }
        rewrite !drop_ge; [reflexivity | subst n; lia | subst n; nia].
    + constructor; [| exact Hall].
      rewrite length_take, length_drop. fold n. subst n. lia.
    + simpl. f_equal. exact Hlen.
Qed.

(** X12. [BuildIndex] hands every input file to
    exactly one batch: for a batch size of at least 1, the batches given to
    [buildAnIndex], one after the other, are the input files in their
    order; each batch holds at least one file and at most
    [GenomeBatchSize]; and there are [ceil(nFiles / GenomeBatchSize)] of
    them. *)
Theorem BuildIndex_batches_partition {A} (infiles : list A) size :
  1 <= size -> Z.of_nat (length infiles) + size < 2 ^ 63 ->
  exists bs,
    BuildIndex_batches infiles size = Some bs /\
    concat bs = infiles /\
    Forall (fun b => (1 <= length b)%nat /\ Z.of_nat (length b) <= size) bs /\
    Z.of_nat (length bs) = (Z.of_nat (length infiles) + size - 1) / size.
Proof.
  intros Hs Hbig. unfold BuildIndex_batches, nBatches.
  destruct (ceil_div (Z.of_nat (length infiles)) size ltac:(lia) Hs Hbig)
    as (-> & Hlast & Hcover & Hpos).
  set (total := (Z.of_nat (length infiles) + size - 1) / size) in *.
  destruct (batch_loop_spec infiles size total (Z.to_nat total) 0 Hs Hbig)
    as (bs & -> & Hconcat & Hall & Hlen); try lia.
  { destruct (Z.eqb_spec (Z.of_nat (length infiles)) 0) as [E | NE]; [| lia].
    assert (total = 0); [| lia].
    subst total. rewrite E. apply Z.div_small. lia. }
  exists bs. split; [reflexivity |]. split; [exact Hconcat |].
  split; [exact Hall | lia].
Qed.

Lemma BuildIndex_batches_partition_witness :
  exists bs,
    BuildIndex_batches [1; 2; 3; 4; 5; 6; 7] 3 = Some bs /\
    concat bs = [1; 2; 3; 4; 5; 6; 7] /\
    Forall (fun b => (1 <= length b)%nat /\ Z.of_nat (length b) <= 3) bs /\
    Z.of_nat (length bs) = (Z.of_nat (length [1; 2; 3; 4; 5; 6; 7]) + 3 - 1) / 3.
Proof.
  apply (BuildIndex_batches_partition [1; 2; 3; 4; 5; 6; 7] 3); simpl; lia.
Defined.

(** *** The chunks of masks *)

Lemma chunk_bounds_exact nMasks size j :
  0 <= j -> 0 <= size -> 0 <= nMasks -> j * size + size < 2 ^ 63 ->
  chunk_bounds nMasks size j
  = (j * size, Z.min nMasks (j * size + size)).
Proof.
  intros Hj Hs Hn Hbig. unfold chunk_bounds.
  assert (mul j size = j * size) as -> by (apply i64_exact; nia).
  assert (add (j * size) size = j * size + size) as -> by (apply i64_exact; nia).
  f_equal. destruct (Z.ltb_spec0 nMasks (j * size + size)); lia.
Qed.

Lemma chunks_concat nMasks size (t : nat) :
  0 <= size -> 0 <= nMasks -> Z.of_nat t * size + size < 2 ^ 63 ->
  concat ((fun j => chunk_masks (chunk_bounds nMasks size j)) <$> seqZ 0 (Z.of_nat t))
  = seqZ 0 (Z.min nMasks (Z.of_nat t * size)).
Proof.
  intros Hs Hn. induction t as [| t IH]; intros Hbig.
  - simpl. symmetry. apply seqZ_nil. lia.
  - rewrite seqZ_S, fmap_app, concat_app, IH by nia. cbn [fmap list_fmap concat].
    rewrite app_nil_r, Z.add_0_l.
    rewrite chunk_bounds_exact by nia. unfold chunk_masks. cbn [fst snd].
    destruct (Z.le_gt_cases nMasks (Z.of_nat t * size)) as [Hfull | Hpart].
    + rewrite (seqZ_nil (Z.of_nat t * size)) by lia. rewrite app_nil_r.
      f_equal. nia.
    + rewrite (Z.min_r nMasks (Z.of_nat t * size)) by lia.
      replace (Z.min nMasks (Z.of_nat (S t) * size))
        with (Z.of_nat t * size
              + (Z.min nMasks (Z.of_nat t * size + size) - Z.of_nat t * size)) by nia.
      rewrite seqZ_app by nia. reflexivity.
Qed.

(** X13. While the k-mers of a genome are collected,
    every mask is visited by the goroutine of exactly one chunk: the
    masks that the chunks [0] to [threads - 1] visit, chunk after chunk,
    are [0], [1], ... up to [nMasks - 1], each once. *)
Theorem collect_chunks_cover nMasks threads :
  1 <= threads -> 0 <= nMasks -> nMasks + 2 * threads < 2 ^ 62 ->
  exists chunks,
    collect_chunks nMasks threads = Some chunks /\
    Z.of_nat (length chunks) = threads /\
    concat chunks = seqZ 0 nMasks.
Proof.
  intros Ht Hn Hbig. unfold collect_chunks, chunkSize.
  destruct (ceil_div nMasks threads Hn Ht ltac:(lia)) as (-> & Hlast & Hcover & Hpos).
  set (size := (nMasks + threads - 1) / threads) in *.
  assert (size <= nMasks + threads) as Hsize.
  { subst size. apply Z.div_le_upper_bound; nia. }
  assert (threads * size <= nMasks + threads) as Hprod.
  { destruct (nMasks =? 0); nia. }
  eexists. split; [reflexivity |].
  split; [rewrite length_fmap, length_seqZ; lia |].
  rewrite <- (Z2Nat.id threads) by lia.
  rewrite chunks_concat; try lia.
  f_equal. rewrite Z2Nat.id by lia. lia.
Qed.

Lemma collect_chunks_cover_witness :
  exists chunks,
    collect_chunks 5 4 = Some chunks /\
    Z.of_nat (length chunks) = 4 /\
    concat chunks = seqZ 0 5.
Proof. apply (collect_chunks_cover 5 4); lia. Defined.

Lemma write_loop_spec {A} (datas : list A) size total cnt :
  forall j,
    0 <= size -> 0 <= j -> j + Z.of_nat cnt = total ->
    total * size + size < 2 ^ 63 ->
    Z.of_nat (length datas) <= total * size ->
    (if Z.of_nat (length datas) <? (total - 1) * size
     then cnt <> O -> write_loop cnt datas size j = None
     else exists ws,
            write_loop cnt datas size j = Some ws /\
            concat (snd <$> ws) = drop (Z.to_nat (j * size)) datas /\
            fst <$> ws = (fun i => i * size) <$> seqZ j (Z.of_nat cnt)).
Proof.
  set (n := Z.of_nat (length datas)).
  induction cnt as [| cnt IH]; intros j Hs Hj Htotal Hbig Hcover.
  - destruct (n <? (total - 1) * size); [congruence |].
    exists []. cbn. split; [reflexivity |]. split; [| reflexivity].
    symmetry. apply drop_ge. subst n. nia.
  - cbn [write_loop]. fold n.
    rewrite chunk_bounds_exact by (subst n; nia).
    specialize (IH (j + 1) Hs ltac:(lia) ltac:(lia) Hbig Hcover).
    destruct (Z.ltb_spec0 n ((total - 1) * size)) as [Hpanic | Hfine].
    + intros _. destruct cnt as [| cnt'].
      * (* the last chunk begins beyond the masks *)
        assert (j = total - 1) as -> by lia.
        unfold slice.
        destruct (Z.leb_spec0 ((total - 1) * size)
                    (Z.min n ((total - 1) * size + size))); [lia |].
        rewrite andb_false_r. reflexivity.
      * destruct (slice datas _ _); [| reflexivity].
        rewrite IH by discriminate. reflexivity.
    + assert (j * size <= n) as Hbegin by nia.
      rewrite slice_Some by (subst n; nia).
      destruct IH as (ws & -> & Hconcat & Hfst).
      eexists. split; [reflexivity |].
      rewrite !fmap_cons. cbn [fst snd concat]. rewrite Hconcat, Hfst.
      split.
      * rewrite <- (take_drop (Z.to_nat (Z.min n (j * size + size) - j * size))
                              (drop (Z.to_nat (j * size)) datas)) at 2.
        f_equal. rewrite drop_drop.
        destruct (Z.le_gt_cases (j * size + size) n) as [Hin | Hout].
        -- f_equal. nia.
        -- rewrite !drop_ge; [reflexivity | subst n; lia | subst n; nia].
      * rewrite (seqZ_cons j) by lia. rewrite fmap_cons. f_equal.
        f_equal. f_equal; lia.
Qed.

(** X14. When the seeds are written, the masks are cut
    into [chunks] slices of [chunkSize = ceil(nMasks / chunks)] masks.  If
    the last chunk would begin beyond the masks, that is if
    [(chunks - 1) * chunkSize > nMasks], the slice expression panics and
    nothing is returned; otherwise the slices, one after the other, are
    all the masks in their order, and the slice of chunk [j] is written
    with the mask index [j * chunkSize]. *)
Theorem write_chunks_spec {A} (datas : list A) chunks :
  1 <= chunks -> Z.of_nat (length datas) + 2 * chunks < 2 ^ 62 ->
  let nMasks := Z.of_nat (length datas) in
  let size := (nMasks + chunks - 1) / chunks in
  if nMasks <? (chunks - 1) * size
  then write_chunks datas chunks = None
  else exists ws,
         write_chunks datas chunks = Some ws /\
         concat (snd <$> ws) = datas /\
         fst <$> ws = (fun j => j * size) <$> seqZ 0 chunks.
Proof.
  intros Hc Hbig nMasks size. unfold write_chunks, chunkSize. fold nMasks.
  destruct (ceil_div nMasks chunks ltac:(lia) Hc ltac:(lia)) as (-> & Hlast & Hcover & Hpos).
  fold size in Hlast, Hcover, Hpos |- *.
  assert (chunks * size <= nMasks + chunks) as Hprod.
  { destruct (nMasks =? 0); nia. }
  pose proof (write_loop_spec datas size chunks (Z.to_nat chunks) 0 Hpos ltac:(lia)
                ltac:(lia) ltac:(nia) ltac:(fold nMasks; nia)) as H.
  fold nMasks in H.
  destruct (nMasks <? (chunks - 1) * size).
  - apply H. lia.
  - destruct H as (ws & -> & Hconcat & Hfst). exists ws.
    split; [reflexivity |]. split; [exact Hconcat |].
    rewrite Hfst, Z2Nat.id by lia. reflexivity.
Qed.

Lemma write_chunks_spec_witness :
  write_chunks [10; 11; 12; 13; 14] 4 = None.
Proof. apply (write_chunks_spec [10; 11; 12; 13; 14] 4); simpl; lia. Defined.

(** *** The sequences of a genome and the junctions between them *)

Lemma i64_add_l a b : i64 (i64 a + b) = i64 (a + b).
Proof.
  unfold i64. f_equal.
  replace ((a + 2 ^ 63) mod 2 ^ 64 - 2 ^ 63 + b + 2 ^ 63)
    with ((a + 2 ^ 63) mod 2 ^ 64 + b) by lia.
  rewrite Z.add_mod_idemp_l by lia. f_equal. lia.
Qed.

Lemma foldr_add_snoc l x : foldr Z.add 0 (l ++ [x]) = foldr Z.add 0 l + x.
Proof. induction l as [| y l IH]; cbn; lia. Qed.

(** The genome after some records: its sequence is the kept sequences
    [pieces] with runs of [k - 1] letters [N] between them. *)
Lemma kept_seqs_cons k excluded name seq records :
  kept_seqs k excluded ((name, seq) :: records)
  = if Z.of_nat (length seq) <? k then kept_seqs k excluded records
    else if excluded name then kept_seqs k excluded records
    else seq :: kept_seqs k excluded records.
Proof.
  unfold kept_seqs. cbn [List.filter]. unfold kept at 1. cbn [fst snd].
  destruct (Z.of_nat (length seq) <? k); [reflexivity |].
  destruct (excluded name); reflexivity.
Qed.

Lemma read_genome_pieces k excluded records :
  Z.of_nat (length records) < 2 ^ 63 ->
  let nnn := replicate (Z.to_nat (k - 1)) base_N in
  let g := read_genome k excluded records in
  let pieces := kept_seqs k excluded records in
  Seq g = joined nnn pieces /\
  SeqSizes g = (fun p => Z.of_nat (length p)) <$> pieces /\
  Len g = i64 (Z.of_nat (length (Seq g))) /\
  GenomeSize g = i64 (foldr Z.add 0 (SeqSizes g)).
Proof.
  unfold read_genome. cbv zeta.
  set (nnn := replicate (Z.to_nat (k - 1)) base_N).
  assert (forall st pieces,
            Seq (fst st) = joined nnn pieces ->
            SeqSizes (fst st) = (fun p => Z.of_nat (length p)) <$> pieces ->
            Len (fst st) = i64 (Z.of_nat (length (Seq (fst st)))) ->
            GenomeSize (fst st) = i64 (foldr Z.add 0 (SeqSizes (fst st))) ->
            snd st = Z.of_nat (length pieces) ->
            Z.of_nat (length pieces) + Z.of_nat (length records) < 2 ^ 63 ->
            let g := fst (fold_left (add_record k excluded) records st) in
            let pieces' := pieces ++ kept_seqs k excluded records in
            Seq g = joined nnn pieces' /\
            SeqSizes g = (fun p => Z.of_nat (length p)) <$> pieces' /\
            Len g = i64 (Z.of_nat (length (Seq g))) /\
            GenomeSize g = i64 (foldr Z.add 0 (SeqSizes g))) as H.
  { induction records as [| [name seq] records IH];
      intros [g i] pieces Hseq Hsizes Hlen Hsize Hi Hsmall.
    - cbn. rewrite app_nil_r. auto.
    - cbn [fold_left]. cbn [fst snd length] in *.
      remember (add_record k excluded (g, i) (name, seq)) as st' eqn:Est.
      unfold add_record in Est.
      rewrite kept_seqs_cons.
      destruct (Z.of_nat (length seq) <? k);
        [subst st'; apply (IH (g, i) pieces); try assumption; lia |].
      destruct (excluded name);
        [subst st'; apply (IH (g, i) pieces); try assumption; lia |].
      fold nnn in Est. subst st'.
      replace (pieces ++ seq :: kept_seqs k excluded records)
        with ((pieces ++ [seq]) ++ kept_seqs k excluded records)
        by (rewrite <- app_assoc; reflexivity).
      apply (IH _ (pieces ++ [seq])); cbn [fst snd Seq SeqSizes Len GenomeSize].
      + destruct pieces as [| p ps].
        * subst i. change (0 <? Z.of_nat (length [])) with false. cbv iota.
          rewrite Hseq. cbn. rewrite app_nil_r. reflexivity.
        * subst i. cbn [length]. destruct (Z.ltb_spec0 0 (Z.of_nat (S (length ps)))); [| lia].
          cbn [Seq]. rewrite Hseq. cbn [app joined]. rewrite fmap_app, concat_app. cbn.
          rewrite app_nil_r, <- !app_assoc. reflexivity.
      + rewrite fmap_app. cbn.
        destruct (0 <? i); cbn [SeqSizes]; rewrite Hsizes; reflexivity.
      + unfold add. destruct (0 <? i); cbn [Seq Len].
        * rewrite Hlen, !i64_add_l, <- Z.add_assoc, i64_add_l, !length_app.
          f_equal. lia.
        * rewrite Hlen, !i64_add_l, !length_app. f_equal. lia.
      + unfold add. destruct (0 <? i); cbn [SeqSizes GenomeSize];
          rewrite Hsize, i64_add_l, foldr_add_snoc; reflexivity.
      + rewrite length_app. cbn. unfold add. rewrite i64_exact by lia. lia.
      + rewrite length_app. cbn. lia. }
  intros Hsmall. apply (H (mkGenome [] 0 [] 0, 0) []); try reflexivity. cbn. lia.
Qed.

Lemma kept_seqs_long k excluded records :
  Forall (fun p => k <= Z.of_nat (length p)) (kept_seqs k excluded records).
Proof.
  induction records as [| [name seq] records IH]; [constructor |].
  rewrite kept_seqs_cons.
  destruct (Z.ltb_spec (Z.of_nat (length seq)) k); [exact IH |].
  destruct (excluded name); [exact IH |].
  constructor; [lia | exact IH].
Qed.

Lemma skip_loop_runs k (ps : list (list byte)) :
  1 <= k -> Forall (fun q => 1 <= Z.of_nat (length q)) ps ->
  forall pre i n,
    let nnn := replicate (Z.to_nat (k - 1)) base_N in
    let seq := pre ++ concat ((fun q => nnn ++ q) <$> ps) in
    let rs := skip_loop k ((fun p => Z.of_nat (length p)) <$> ps) i n in
    1 <= i -> n = Z.of_nat (length pre) ->
    Z.of_nat (length seq) + k < 2 ^ 63 ->
    length rs = length ps /\
    (forall (j : nat) r, rs !! j = Some r ->
       fst r = Z.of_nat (length (pre ++ concat ((fun q => nnn ++ q) <$> take j ps))) /\
       snd r = fst r + k - 1 /\
       take (Z.to_nat (k - 1)) (drop (Z.to_nat (fst r)) seq) = nnn) /\
    Forall (fun r => n <= fst r) rs /\
    StronglySorted (fun r r' => snd r < fst r') rs.
Proof.
  intros Hk Hps. induction Hps as [| q ps Hq Hps IH]; intros pre i n nnn seq rs Hi Hn Hbig.
  - subst rs. cbn. split; [reflexivity |]. split; [| split; constructor].
    intros j r Hr. rewrite lookup_nil in Hr. discriminate Hr.
  - subst rs. rewrite fmap_cons. cbn [skip_loop].
    destruct (Z.ltb_spec0 0 i); [| lia].
    assert (length nnn = Z.to_nat (k - 1)) as Hnnn by apply length_replicate.
    assert (Z.of_nat (length seq)
            = n + (k - 1) + Z.of_nat (length q)
              + Z.of_nat (length (concat ((fun q => nnn ++ q) <$> ps)))) as Hlen.
    { subst seq. rewrite fmap_cons. cbn [concat]. rewrite !length_app. lia. }
    assert (sub (add n k) 1 = n + k - 1) as ->.
    { unfold sub, add. rewrite (i64_exact (n + k)) by lia. apply i64_exact. lia. }
    assert (add (add n (sub k 1)) (Z.of_nat (length q))
            = Z.of_nat (length (pre ++ nnn ++ q))) as ->.
    { unfold sub, add. rewrite (i64_exact (k - 1)) by lia.
      rewrite (i64_exact (n + (k - 1))) by lia.
      rewrite i64_exact by lia. rewrite !length_app. lia. }
    destruct (IH (pre ++ nnn ++ q) (i + 1) _ ltac:(lia) eq_refl)
      as (IHlen & IHat & IHlow & IHsorted).
    { rewrite <- !app_assoc. subst seq. rewrite fmap_cons in Hbig. cbn [concat] in Hbig.
      rewrite <- !app_assoc in Hbig. exact Hbig. }
    assert (seq = (pre ++ nnn ++ q) ++ concat ((fun q => nnn ++ q) <$> ps)) as Eseq.
    { subst seq. rewrite fmap_cons. cbn [concat]. rewrite <- !app_assoc. reflexivity. }
    assert (Z.of_nat (length (pre ++ nnn ++ q)) = n + (k - 1) + Z.of_nat (length q))
      as Hpre by (rewrite !length_app; lia).
    split; [cbn [length]; rewrite IHlen; reflexivity |].
    split; [| split].
    + intros [| j] r Hr.
      * injection Hr as <-. cbn [fst snd take fmap list_fmap concat].
        rewrite app_nil_r. split; [exact Hn |]. split; [lia |].
        subst seq. rewrite fmap_cons. cbn [concat]. rewrite Hn, Nat2Z.id.
        rewrite drop_app_length, <- app_assoc, <- Hnnn. apply take_app_length.
      * change (skip_loop k ((fun p => Z.of_nat (length p)) <$> ps) (i + 1)
                          (Z.of_nat (length (pre ++ nnn ++ q))) !! j = Some r) in Hr.
        destruct (IHat j r Hr) as (H1 & H2 & H3).
        split; [| split; [exact H2 | rewrite Eseq; exact H3]].
        rewrite H1. cbn [take]. rewrite fmap_cons. cbn [concat].
        rewrite <- !app_assoc. reflexivity.
    + constructor; [cbn [fst]; lia |].
      eapply Forall_impl; [exact IHlow |]. intros r Hr. cbn beta in Hr. lia.
    + constructor; [exact IHsorted |].
      eapply Forall_impl; [exact IHlow |]. intros r Hr. cbn beta in Hr.
      cbn [fst snd]. lia.
Qed.

Lemma length_joined (nnn p : list byte) ps :
  Z.of_nat (length (p ++ concat ((fun q => nnn ++ q) <$> ps)))
  = foldr Z.add 0 ((fun p => Z.of_nat (length p)) <$> (p :: ps))
    + Z.of_nat (length ps) * Z.of_nat (length nnn).
Proof.
  rewrite fmap_cons. cbn [foldr]. rewrite length_app.
  induction ps as [| q ps IH]; [cbn; lia |].
  rewrite !fmap_cons. cbn [concat foldr length]. rewrite !length_app. lia.
Qed.

(** X15. In the genome that [buildAnIndex] makes of the
    sequences of a file, the kept sequences are laid end to end with
    [k - 1] letters [N] between two of them.  [Len] is the length of the
    genome, [GenomeSize] the sum of [SeqSizes], and the two differ by the
    letters of the junctions.  The regions to skip are these junctions,
    one for each, in their order: the region [j] begins where the first
    [j + 1] kept sequences, joined, end; its end is [k - 1] further; the
    [k - 1] letters of the genome from its begin on are all [N]; and
    each region ends before the next one begins. *)
Theorem read_genome_junctions k excluded records :
  1 <= k -> Z.of_nat (length records) < 2 ^ 63 ->
  let g := read_genome k excluded records in
  let nnn := replicate (Z.to_nat (k - 1)) base_N in
  let pieces := kept_seqs k excluded records in
  Z.of_nat (length (Seq g)) + k < 2 ^ 63 ->
  Seq g = joined nnn pieces /\
  SeqSizes g = (fun p => Z.of_nat (length p)) <$> pieces /\
  Len g = Z.of_nat (length (Seq g)) /\
  GenomeSize g = foldr Z.add 0 (SeqSizes g) /\
  Z.of_nat (length (Seq g))
  = GenomeSize g + Z.of_nat (length (skipRegions k g)) * (k - 1) /\
  length (skipRegions k g) = Nat.pred (length (SeqSizes g)) /\
  (forall (j : nat) r, skipRegions k g !! j = Some r ->
     fst r = Z.of_nat (length (joined nnn (take (S j) pieces))) /\
     snd r = fst r + k - 1 /\
     take (Z.to_nat (fst r)) (Seq g) = joined nnn (take (S j) pieces) /\
     take (Z.to_nat (k - 1)) (drop (Z.to_nat (fst r)) (Seq g)) = nnn) /\
  StronglySorted (fun r r' => snd r < fst r') (skipRegions k g).
Proof.
  intros Hk Hrec g nnn pieces Hbig.
  pose proof (read_genome_pieces k excluded records Hrec) as H.
  cbv zeta in H. fold g nnn pieces in H.
  destruct H as (Hseq & Hsizes & Hlen & Hsize).
  pose proof (kept_seqs_long k excluded records) as Hlong. fold pieces in Hlong.
  split; [exact Hseq |]. split; [exact Hsizes |].
  assert (length nnn = Z.to_nat (k - 1)) as Hnnn by apply length_replicate.
  rewrite Hlen, i64_exact by lia. split; [reflexivity |].
  unfold skipRegions. rewrite Hsizes, length_fmap.
  clearbody pieces. unfold joined in Hseq.
  destruct pieces as [| p ps].
  - rewrite Hsize, Hsizes, Hseq. cbn.
    split; [reflexivity |]. split; [reflexivity |]. split; [reflexivity |].
    split; [| constructor]. intros j r Hr. destruct j; discriminate Hr.
  - pose proof (length_joined nnn p ps) as Hjoin. rewrite <- Hseq, <- Hsizes in Hjoin.
    assert (0 <= foldr Z.add 0 (SeqSizes g)) as Hnn.
    { rewrite Hsizes. generalize (p :: ps). intros l.
      induction l as [| x l IHl]; cbn; lia. }
    rewrite Hsize, i64_exact by nia. split; [rewrite Hsizes; reflexivity |].
    destruct ps as [| q ps'].
    + change (1 <? Z.of_nat (length [p])) with false. cbv iota.
      cbn [length Nat.pred]. cbn [length] in Hjoin.
      split; [lia |]. split; [reflexivity |].
      split; [| constructor]. intros j r Hr. destruct j; discriminate Hr.
    + set (ps := q :: ps') in *.
      destruct (Z.ltb_spec0 1 (Z.of_nat (length (p :: ps)))); [| cbn in *; lia].
      rewrite fmap_cons. cbn [skip_loop].
      change (0 <? 0) with false. cbv iota. change (0 + 1) with 1.
      assert (add 0 (Z.of_nat (length p)) = Z.of_nat (length p)) as ->.
      { unfold add. apply i64_exact. rewrite Hseq, !length_app in Hbig. lia. }
      apply Forall_cons in Hlong. destruct Hlong as [_ Hlong].
      assert (Forall (fun q0 : list byte => 1 <= Z.of_nat (length q0)) ps) as Hps.
      { eapply Forall_impl; [exact Hlong |]. intros q0 Hq0. cbn beta in Hq0. lia. }
      destruct (skip_loop_runs k ps Hk Hps p 1 (Z.of_nat (length p)) ltac:(lia) eq_refl)
        as (Hcount & Hat & _ & Hsorted).
      { fold nnn. rewrite <- Hseq. exact Hbig. }
      fold nnn in Hat.
      split; [rewrite Hcount, Hjoin, Hsizes, Hnnn, Z2Nat.id by lia; reflexivity |].
      split; [rewrite Hcount; reflexivity |].
      split; [| exact Hsorted].
      intros j r Hr. destruct (Hat j r Hr) as (H1 & H2 & H3).
      rewrite <- Hseq in H3.
      change (joined nnn (take (S j) (p :: ps)))
        with (p ++ concat ((fun q0 => nnn ++ q0) <$> take j ps)).
      split; [exact H1 |]. split; [exact H2 |]. split; [| exact H3].
      rewrite H1, Nat2Z.id, Hseq.
      replace (concat ((fun q0 => nnn ++ q0) <$> ps))
        with (concat ((fun q0 => nnn ++ q0) <$> take j ps)
              ++ concat ((fun q0 => nnn ++ q0) <$> drop j ps))
        by (rewrite <- concat_app, <- fmap_app, take_drop; reflexivity).
      rewrite app_assoc. apply take_app_length.
Qed.

Lemma read_genome_junctions_witness :
  let records := [([], ["A"; "C"; "G"; "T"]%byte); ([], ["A"; "C"]%byte);
                  ([], ["G"; "G"; "G"]%byte); ([], ["A"; "A"; "A"]%byte)] in
  let g := read_genome 3 (fun _ => false) records in
  let nnn := replicate (Z.to_nat (3 - 1)) base_N in
  let pieces := kept_seqs 3 (fun _ => false) records in
  Seq g = joined nnn pieces /\
  SeqSizes g = (fun p => Z.of_nat (length p)) <$> pieces /\
  Len g = Z.of_nat (length (Seq g)) /\
  GenomeSize g = foldr Z.add 0 (SeqSizes g) /\
  Z.of_nat (length (Seq g))
  = GenomeSize g + Z.of_nat (length (skipRegions 3 g)) * (3 - 1) /\
  length (skipRegions 3 g) = Nat.pred (length (SeqSizes g)) /\
  (forall (j : nat) r, skipRegions 3 g !! j = Some r ->
     fst r = Z.of_nat (length (joined nnn (take (S j) pieces))) /\
     snd r = fst r + 3 - 1 /\
     take (Z.to_nat (fst r)) (Seq g) = joined nnn (take (S j) pieces) /\
     take (Z.to_nat (3 - 1)) (drop (Z.to_nat (fst r)) (Seq g)) = nnn) /\
  StronglySorted (fun r r' => snd r < fst r') (skipRegions 3 g).
Proof.
  apply (read_genome_junctions 3 (fun _ => false)
           [([], ["A"; "C"; "G"; "T"]%byte); ([], ["A"; "C"]%byte);
            ([], ["G"; "G"; "G"]%byte); ([], ["A"; "A"; "A"]%byte)]); simpl; lia.
Defined.

End BuildProofs.

(** ** Opening an index and the steps of a search *)

Section SearchingProofs.
Import Int Searching.

Lemma pow4 l : 0 <= l -> 2 ^ (2 * l) = 4 ^ l.
Proof. intros Hl. rewrite Z.pow_mul_r by lia. reflexivity. Qed.

Lemma shl_pow l : 0 <= l <= 31 -> shl 1 (shl l 1) = 4 ^ l.
Proof.
  intros Hl. unfold shl. rewrite (Z.shiftl_mul_pow2 l 1) by lia.
  change (2 ^ 1) with 2. replace (l * 2) with (2 * l) by lia.
  rewrite (i64_exact (2 * l)) by lia.
  rewrite Z.shiftl_mul_pow2, Z.mul_1_l by lia.
  assert (2 ^ (2 * l) <= 2 ^ 62) by (apply Z.pow_le_mono_r; lia).
  assert (0 < 2 ^ (2 * l)) by (apply Z.pow_pos_nonneg; lia).
  rewrite i64_exact by lia.
  apply pow4. lia.
Qed.

Lemma lenPrefix_loop_spec nMasks :
  0 <= nMasks < 2 ^ 62 ->
  forall (fuel : nat) l,
    1 <= l <= 31 -> 32 - l <= Z.of_nat fuel ->
    (l = 1 \/ 4 ^ (l - 1) <= nMasks) ->
    exists p, lenPrefix_loop fuel l nMasks = Some p /\
              1 <= p <= 31 /\ nMasks < 4 ^ p /\
              (p = 1 \/ 4 ^ (p - 1) <= nMasks).
Proof.
  intros Hn. induction fuel as [| fuel IH]; intros l Hl Hfuel Hprev; [lia |].
  cbn [lenPrefix_loop]. rewrite shl_pow by lia.
  destruct (Z.leb_spec (4 ^ l) nMasks) as [Hle | Hgt].
  - assert (l <= 30) as Hl30.
    { destruct (Z.eq_dec l 31) as [-> |]; [| lia].
      change (4 ^ 31) with (2 ^ 62) in Hle. lia. }
    unfold add. rewrite i64_exact by lia.
    apply IH; [lia | lia |]. right. replace (l + 1 - 1) with l by lia. exact Hle.
  - exists l. auto.
Qed.

(** X16. The length of the prefixes of the lookup table
    that [NewIndexSearcher] makes for the masks is the largest [p] with
    [4^p] at most the number of masks, and [0] when there is no mask; the
    loop that computes it ends for every number of masks below [2^62]. *)
Theorem lenPrefix_floor_log4 fuel nMasks :
  0 <= nMasks < 2 ^ 62 -> (31 <= fuel)%nat ->
  exists p, lenPrefix fuel nMasks = Some p /\
            0 <= p <= 30 /\ nMasks < 4 ^ (p + 1) /\
            (4 ^ p <= nMasks \/ (nMasks = 0 /\ p = 0)).
Proof.
  intros Hn Hfuel. unfold lenPrefix.
  destruct (lenPrefix_loop_spec nMasks Hn fuel 1) as (p & -> & Hp & Hlt & Hge);
    [lia | lia | left; reflexivity |].
  exists (p - 1). unfold sub. rewrite i64_exact by lia.
  split; [reflexivity |]. split; [lia |].
  replace (p - 1 + 1) with p by lia. split; [exact Hlt |].
  destruct Hge as [-> | Hge]; [| left; exact Hge].
  change (4 ^ (1 - 1)) with 1. lia.
Qed.

Lemma lenPrefix_floor_log4_witness :
  exists p, lenPrefix 31 40000 = Some p /\
            0 <= p <= 30 /\ 40000 < 4 ^ (p + 1) /\
            (4 ^ p <= 40000 \/ (40000 = 0 /\ p = 0)).
Proof. apply (lenPrefix_floor_log4 31 40000); lia. Defined.

(** X17. The genome readers that [NewIndexSearcher]
    opens fit in the budget of open files: with [n] readers for each of
    the batches, the seed files and twice the readers are at most
    [MaxOpenFiles], and no batch has more readers than [NumCPUs].  No
    reader is opened exactly when the files left after the seed files
    are fewer than two for each batch. *)
Theorem genome_readers_bound maxOpenFiles nSeeds batches numCPUs :
  0 <= nSeeds <= maxOpenFiles -> maxOpenFiles < 2 ^ 63 ->
  1 <= batches -> 1 <= numCPUs ->
  exists n, genome_readers maxOpenFiles nSeeds batches numCPUs = Some n /\
            0 <= n <= numCPUs /\
            nSeeds + 2 * (batches * n) <= maxOpenFiles /\
            (n = 0 <-> maxOpenFiles - nSeeds < 2 * batches).
Proof.
  intros Hs Hmax Hb Hc. unfold genome_readers, div, sub.
  destruct (Z.eqb_spec batches 0); [lia |].
  rewrite (i64_exact (maxOpenFiles - nSeeds)) by lia.
  rewrite Z.quot_div_nonneg by lia.
  set (q := (maxOpenFiles - nSeeds) / batches).
  assert (0 <= q /\ batches * q <= maxOpenFiles - nSeeds < batches * (q + 1)) as Hq.
  { subst q. Z.div_mod_to_equations. nia. }
  rewrite i64_exact by nia.
  destruct (Z.ltb_spec q 2) as [Hq2 | Hq2].
  - exists 0. split; [reflexivity |]. split; [lia |]. split; [lia |].
    split; [intros _; nia | reflexivity].
  - rewrite Z.shiftr_div_pow2 by lia. change (2 ^ 1) with 2.
    set (h := q / 2). assert (1 <= h /\ 2 * h <= q) as Hh.
    { subst h. Z.div_mod_to_equations. lia. }
    destruct (Z.ltb_spec numCPUs h).
    + exists numCPUs. split; [reflexivity |]. split; [lia |]. split; [nia |].
      split; [lia | intros; nia].
    + exists h. split; [reflexivity |]. split; [lia |]. split; [nia |].
      split; [lia | intros; nia].
Qed.

Lemma genome_readers_bound_witness :
  exists n, genome_readers 512 16 3 8 = Some n /\
            0 <= n <= 8 /\ 16 + 2 * (3 * n) <= 512 /\
            (n = 0 <-> 512 - 16 < 2 * 3).
Proof. apply (genome_readers_bound 512 16 3 8); lia. Defined.

(** X18. The search reads back what the build has
    stored: from the value that [buildAnIndex] packs of a batch, a genome
    index and a location, step 2.2 of [Index.Search] gets the batch, the
    genome index, the position and the strand; the key of the target in
    the map is [batch * 2^17 + index], so two genomes never share one. *)
Theorem decode_refpos_kmerValue batch refIdx loc :
  0 <= batch < 2 ^ 17 -> 0 <= refIdx < 2 ^ 17 -> 0 <= loc < 2 ^ 30 ->
  decode_refpos (Index.kmerValue batch refIdx loc)
  = (batch, refIdx, Z.shiftr loc 1, Z.odd loc) /\
  refBatchAndIdx (Index.kmerValue batch refIdx loc) = batch * 2 ^ 17 + refIdx.
Proof.
  intros Hb Hr Hl. rewrite kmerValue_sum by assumption.
  assert (refBatchAndIdx (batch * 2 ^ 47 + refIdx * 2 ^ 30 + loc)
          = batch * 2 ^ 17 + refIdx) as Hkey.
  { unfold refBatchAndIdx, shr64. rewrite Z.shiftr_div_pow2 by lia.
    rewrite i64_exact by (Z.div_mod_to_equations; lia).
    Z.div_mod_to_equations; lia. }
  split; [| exact Hkey]. unfold decode_refpos. rewrite Hkey.
  unfold shr64, shl64, u64.
  change 131071 with (Z.ones 17).
  rewrite land_1, Z.land_ones, !Z.shiftr_div_pow2, Z.shiftl_mul_pow2 by lia.
  rewrite (Zmod_odd (batch * 2 ^ 47 + refIdx * 2 ^ 30 + loc)).
  replace (Z.odd (batch * 2 ^ 47 + refIdx * 2 ^ 30 + loc)) with (Z.odd loc).
  2:{ replace (batch * 2 ^ 47 + refIdx * 2 ^ 30 + loc)
        with (loc + 2 * (batch * 2 ^ 46 + refIdx * 2 ^ 29)) by lia.
      rewrite Z.odd_add_mul_2. reflexivity. }
  rewrite i64_exact by (Z.div_mod_to_equations; lia).
  f_equal; [f_equal; [f_equal |] |].
  - Z.div_mod_to_equations; lia.
  - Z.div_mod_to_equations; lia.
  - Z.div_mod_to_equations; lia.
  - destruct (Z.odd loc); reflexivity.
Qed.

Lemma decode_refpos_kmerValue_witness :
  decode_refpos (Index.kmerValue 3 5 2001) = (3, 5, Z.shiftr 2001 1, Z.odd 2001) /\
  refBatchAndIdx (Index.kmerValue 3 5 2001) = 3 * 2 ^ 17 + 5.
Proof. apply (decode_refpos_kmerValue 3 5 2001); lia. Defined.

(** X19. Step 3.2 of [Index.Search] keeps the best targets.
    The targets kept are the first ones of the sorted list and the
    targets dropped the rest of it.  With [TopN] positive, [TopN] targets
    are kept, or all of them when there are no more than [TopN]; with
    [TopN] zero or negative all are kept; so a target is dropped exactly
    when [TopN] is positive and below the number of targets.  No dropped
    target has a higher score than a kept one.  The sort is any function
    that returns its input in an order where no target comes before one
    with a higher score. *)
Theorem keep_top_best sort topN rs :
  sort by_score rs ≡ₚ rs ->
  StronglySorted (fun a b => Index.Score b <= Index.Score a) (sort by_score rs) ->
  exists dropped,
    sort by_score rs = keep_top sort topN rs ++ dropped /\
    keep_top sort topN rs ++ dropped ≡ₚ rs /\
    Z.of_nat (length (keep_top sort topN rs))
    = (if 0 <? topN then Z.min topN (Z.of_nat (length rs))
       else Z.of_nat (length rs)) /\
    (dropped <> [] <-> 0 < topN < Z.of_nat (length rs)) /\
    forall a b, a ∈ keep_top sort topN rs -> b ∈ dropped ->
                Index.Score b <= Index.Score a.
Proof.
  intros Hperm Hsorted. unfold keep_top. cbv zeta.
  pose proof (Permutation_length Hperm) as Hlen. rewrite <- Hlen.
  destruct (Z.ltb_spec 0 topN) as [Hpos | Hneg]; cbn [andb].
  2:{ exists []. rewrite app_nil_r. split; [reflexivity |]. split; [exact Hperm |].
      split; [reflexivity |]. split; [split; [congruence | lia] |].
      intros a b _ Hb. inversion Hb. }
  destruct (Z.ltb_spec topN (Z.of_nat (length (sort by_score rs)))) as [Hlt | Hge].
  2:{ exists []. rewrite app_nil_r. split; [reflexivity |]. split; [exact Hperm |].
      split; [lia |]. split; [split; [congruence | lia] |].
      intros a b _ Hb. inversion Hb. }
  exists (drop (Z.to_nat topN) (sort by_score rs)).
  split; [rewrite take_drop; reflexivity |].
  split; [rewrite take_drop; exact Hperm |].
  split; [rewrite length_take; lia |].
  split.
  { split; [intros _; lia |]. intros _ E.
    apply (f_equal length) in E. rewrite length_drop in E. simpl in E. lia. }
  intros a b Ha Hb.
  rewrite <- (take_drop (Z.to_nat topN) (sort by_score rs)) in Hsorted.
  exact (StronglySorted_app_1_elem_of _ _ _ _ _ Hsorted Ha Hb).
Qed.

Lemma keep_top_best_witness :
  exists dropped,
    Index.insertionSort by_score
      [Index.mkTarget 1 [] 25; Index.mkTarget 2 [] 81; Index.mkTarget 3 [] 49]
    = keep_top Index.insertionSort 2
        [Index.mkTarget 1 [] 25; Index.mkTarget 2 [] 81; Index.mkTarget 3 [] 49]
      ++ dropped /\
    keep_top Index.insertionSort 2
      [Index.mkTarget 1 [] 25; Index.mkTarget 2 [] 81; Index.mkTarget 3 [] 49]
    ++ dropped
    ≡ₚ [Index.mkTarget 1 [] 25; Index.mkTarget 2 [] 81; Index.mkTarget 3 [] 49] /\
    Z.of_nat (length (keep_top Index.insertionSort 2
                        [Index.mkTarget 1 [] 25; Index.mkTarget 2 [] 81;
                         Index.mkTarget 3 [] 49]))
    = (if 0 <? 2
       then Z.min 2 (Z.of_nat (length [Index.mkTarget 1 [] 25; Index.mkTarget 2 [] 81;
                                       Index.mkTarget 3 [] 49]))
       else Z.of_nat (length [Index.mkTarget 1 [] 25; Index.mkTarget 2 [] 81;
                              Index.mkTarget 3 [] 49])) /\
    (dropped <> [] <->
     0 < 2 < Z.of_nat (length [Index.mkTarget 1 [] 25; Index.mkTarget 2 [] 81;
                               Index.mkTarget 3 [] 49])) /\
    forall a b,
      a ∈ keep_top Index.insertionSort 2
            [Index.mkTarget 1 [] 25; Index.mkTarget 2 [] 81; Index.mkTarget 3 [] 49] ->
      b ∈ dropped -> Index.Score b <= Index.Score a.
Proof.
  apply (keep_top_best Index.insertionSort 2
           [Index.mkTarget 1 [] 25; Index.mkTarget 2 [] 81; Index.mkTarget 3 [] 49]).
  - apply (insertionSort_Permutation by_score).
  - change (StronglySorted (fun a b => Index.Score b <= Index.Score a)
              [Index.mkTarget 2 [] 81; Index.mkTarget 3 [] 49; Index.mkTarget 1 [] 25]).
    repeat (apply SSorted_cons || apply SSorted_nil
            || apply Forall_cons_2 || apply Forall_nil_2); simpl; lia.
Defined.

Lemma contig_begin_0 sizes interval : contig_begin sizes interval 0 = 0.
Proof. unfold contig_begin. rewrite take_0. reflexivity. Qed.

Lemma contig_begin_S l sizes interval j :
  contig_begin (l :: sizes) interval (S j)
  = l + interval + contig_begin sizes interval j.
Proof. reflexivity. Qed.

Lemma contig_begin_nonneg sizes interval j :
  0 <= interval -> Forall (fun l => 0 <= l) sizes ->
  0 <= contig_begin sizes interval j.
Proof.
  intros Hi Hs. revert j.
  induction Hs as [| l sizes Hl Hs IH]; intros [| j];
    rewrite ?contig_begin_0, ?contig_begin_S; try lia.
  - unfold contig_begin. cbn. lia.
  - specialize (IH j). lia.
Qed.

Lemma locate_loop_spec interval _begin _end :
  0 <= interval ->
  forall sizes j off,
    Forall (fun l => 0 <= l) sizes -> 0 <= j -> 0 <= off ->
    off + contig_begin sizes interval (length sizes) < 2 ^ 63 ->
    let '(iSeq, ob, oe) := locate_loop sizes j interval _begin _end off off in
    (iSeq = -1 /\
     forall i l, sizes !! i = Some l ->
       ~ (off + contig_begin sizes interval i <= _begin /\
          _end <= off + contig_begin sizes interval i + l - 1))
    \/ exists i l,
         iSeq = j + Z.of_nat i /\ sizes !! i = Some l /\
         ob = off + contig_begin sizes interval i /\ oe = ob + l - 1 /\
         ob <= _begin /\ _end <= oe /\
         forall i' l', (i' < i)%nat -> sizes !! i' = Some l' ->
           ~ (off + contig_begin sizes interval i' <= _begin /\
              _end <= off + contig_begin sizes interval i' + l' - 1).
Proof.
  intros Hint. induction sizes as [| l sizes IH]; intros j off Hs Hj Hoff Hbig.
  - cbn. left. split; [reflexivity |]. intros i l Hl. rewrite lookup_nil in Hl. discriminate.
  - apply Forall_cons in Hs as [Hl Hs]. cbn beta in Hl.
    cbn [length] in Hbig. rewrite contig_begin_S in Hbig.
    pose proof (contig_begin_nonneg sizes interval (length sizes) Hint Hs) as Hnn.
    cbn [locate_loop]. unfold add, sub.
    rewrite (i64_exact (l - 1)) by lia.
    rewrite (i64_exact (off + (l - 1))) by lia.
    rewrite (Z.add_comm (off + (l - 1)) (i64 (interval + 1))), i64_add_l.
    rewrite (Z.add_comm (interval + 1)).
    rewrite (i64_exact (off + (l - 1) + (interval + 1))) by lia.
    destruct (Z.leb_spec off _begin) as [Hb | Hb]; cbn [andb].
    + destruct (Z.leb_spec _end (off + (l - 1))) as [He | He].
      * right. exists 0%nat, l. rewrite contig_begin_0.
        repeat split; try lia; intros i' l' Hlt; lia.
      * specialize (IH (j + 1) (off + (l - 1) + (interval + 1)) Hs ltac:(lia) ltac:(lia)
                       ltac:(lia)).
        destruct (locate_loop sizes (j + 1) interval _begin _end _ _) as [[iSeq ob] oe].
        destruct IH as [[-> Hnone] | (i & l0 & -> & Hl0 & -> & -> & H1 & H2 & Hfirst)].
        -- left. split; [reflexivity |]. intros [| i] l0 Hl0.
           ++ injection Hl0 as <-. rewrite contig_begin_0. lia.
           ++ rewrite contig_begin_S. cbn in Hl0. specialize (Hnone i l0 Hl0). lia.
        -- right. exists (S i), l0. rewrite contig_begin_S.
           repeat split; try lia; [exact Hl0 |].
           intros [| i'] l' Hlt Hl'.
           ++ injection Hl' as <-. rewrite contig_begin_0. lia.
           ++ rewrite contig_begin_S. cbn in Hl'.
              specialize (Hfirst i' l' ltac:(lia) Hl'). lia.
    + specialize (IH (j + 1) (off + (l - 1) + (interval + 1)) Hs ltac:(lia) ltac:(lia)
                     ltac:(lia)).
      destruct (locate_loop sizes (j + 1) interval _begin _end _ _) as [[iSeq ob] oe].
      destruct IH as [[-> Hnone] | (i & l0 & -> & Hl0 & -> & -> & H1 & H2 & Hfirst)].
      * left. split; [reflexivity |]. intros [| i] l0 Hl0.
        -- injection Hl0 as <-. rewrite contig_begin_0. lia.
        -- rewrite contig_begin_S. cbn in Hl0. specialize (Hnone i l0 Hl0). lia.
      * right. exists (S i), l0. rewrite contig_begin_S.
        repeat split; try lia; [exact Hl0 |].
        intros [| i'] l' Hlt Hl'.
        -- injection Hl' as <-. rewrite contig_begin_0. lia.
        -- rewrite contig_begin_S. cbn in Hl'.
           specialize (Hfirst i' l' ltac:(lia) Hl'). lia.
Qed.

(** X20. For a genome of several sequences, the loop
    of [Index.Search] that looks for the sequence of a fragment returns
    the first sequence that holds the fragment from [_begin] to [_end],
    with the positions of its first and its last letter in the genome;
    it returns [-1] exactly when no sequence holds the fragment. *)
Theorem locate_contig_first_fit numSeqs sizes interval _begin _end :
  1 < numSeqs -> 0 <= interval -> Forall (fun l => 0 <= l) sizes ->
  contig_begin sizes interval (length sizes) < 2 ^ 63 ->
  let '(iSeq, ob, oe) := locate_contig numSeqs sizes interval _begin _end in
  (iSeq = -1 /\
   forall j l, sizes !! j = Some l -> ~ within_contig sizes interval _begin _end j l)
  \/ exists j l,
       iSeq = Z.of_nat j /\ sizes !! j = Some l /\
       ob = contig_begin sizes interval j /\ oe = ob + l - 1 /\
       within_contig sizes interval _begin _end j l /\
       forall j' l', (j' < j)%nat -> sizes !! j' = Some l' ->
         ~ within_contig sizes interval _begin _end j' l'.
Proof.
  intros Hn Hint Hs Hbig. unfold locate_contig, within_contig.
  destruct (Z.ltb_spec 1 numSeqs) as [_ | ?]; [| lia].
  pose proof (locate_loop_spec interval _begin _end Hint sizes 0 0 Hs
                ltac:(lia) ltac:(lia) ltac:(lia)) as H.
  destruct (locate_loop sizes 0 interval _begin _end 0 0) as [[iSeq ob] oe].
  destruct H as [[-> Hnone] | (i & l & -> & Hl & -> & -> & H1 & H2 & Hfirst)].
  - left. split; [reflexivity |]. intros j l Hl Hw. apply (Hnone j l Hl). lia.
  - right. exists i, l. repeat split; try lia; [exact Hl |].
    intros j' l' Hlt Hl' Hw. apply (Hfirst j' l' Hlt Hl'). lia.
Qed.

Lemma locate_contig_first_fit_witness :
  let '(iSeq, ob, oe) := locate_contig 3 [4; 2; 3] 2 10 12 in
  (iSeq = -1 /\
   forall j l, [4; 2; 3] !! j = Some l -> ~ within_contig [4; 2; 3] 2 10 12 j l)
  \/ exists j l,
       iSeq = Z.of_nat j /\ [4; 2; 3] !! j = Some l /\
       ob = contig_begin [4; 2; 3] 2 j /\ oe = ob + l - 1 /\
       within_contig [4; 2; 3] 2 10 12 j l /\
       forall j' l', (j' < j)%nat -> [4; 2; 3] !! j' = Some l' ->
         ~ within_contig [4; 2; 3] 2 10 12 j' l'.
Proof.
  apply (locate_contig_first_fit 3 [4; 2; 3] 2 10 12); [lia | lia | | vm_compute; reflexivity].
  repeat (apply Forall_cons_2 || apply Forall_nil_2); lia.
Defined.

Lemma joined_cons nnn p q ps :
  Build.joined nnn (p :: q :: ps) = p ++ nnn ++ Build.joined nnn (q :: ps).
Proof. unfold Build.joined. rewrite fmap_cons. cbn [concat]. rewrite <- app_assoc. reflexivity. Qed.

Lemma joined_drop nnn : forall pieces (j : nat) p,
  pieces !! j = Some p ->
  exists rest,
    drop (Z.to_nat (contig_begin ((fun q => Z.of_nat (length q)) <$> pieces)
                                 (Z.of_nat (length nnn)) j))
         (Build.joined nnn pieces) = p ++ rest.
Proof.
  induction pieces as [| p0 ps IH]; intros j p Hj; [rewrite lookup_nil in Hj; discriminate |].
  destruct j as [| j].
  - injection Hj as <-. rewrite contig_begin_0. cbn [Z.to_nat drop]. unfold Build.joined.
    eexists. reflexivity.
  - change (ps !! j = Some p) in Hj.
    destruct ps as [| q ps']; [rewrite lookup_nil in Hj; discriminate Hj |].
    destruct (IH j p Hj) as (rest & Hrest). exists rest.
    rewrite fmap_cons, contig_begin_S, joined_cons.
    assert (0 <= contig_begin ((fun q0 => Z.of_nat (length q0)) <$> q :: ps')
                              (Z.of_nat (length nnn)) j) as Hnn.
    { apply contig_begin_nonneg; [lia |]. apply Forall_fmap, Forall_forall. intros; cbn; lia. }
    rewrite !Z2Nat.inj_add, !Nat2Z.id by lia.
    rewrite <- Nat.add_assoc, <- drop_drop, drop_app_length.
    rewrite <- drop_drop, drop_app_length. exact Hrest.
Qed.

(** X21. What [buildAnIndex] lays out, the search
    finds again: in the genome made of the sequences of a file, the
    [j]-th kept sequence has its length at [SeqSizes[j]], and it is the
    part of [Seq] that begins at the position which the loop of
    [Index.Search] computes for the sequence [j] when the interval
    between two sequences is [k - 1]. *)
Theorem read_genome_contig_layout k excluded records (j : nat) p :
  1 <= k -> Z.of_nat (length records) < 2 ^ 63 ->
  Build.kept_seqs k excluded records !! j = Some p ->
  let g := Build.read_genome k excluded records in
  Build.SeqSizes g !! j = Some (Z.of_nat (length p)) /\
  take (length p)
       (drop (Z.to_nat (contig_begin (Build.SeqSizes g) (k - 1) j)) (Build.Seq g))
  = p.
Proof.
  intros Hk Hrec Hj g.
  pose proof (read_genome_pieces k excluded records Hrec) as H.
  cbv zeta in H. fold g in H. destruct H as (Hseq & Hsizes & _ & _).
  rewrite Hsizes, Hseq. split.
  - rewrite list_lookup_fmap, Hj. reflexivity.
  - destruct (joined_drop (replicate (Z.to_nat (k - 1)) Build.base_N) _ j p Hj)
      as (rest & Hrest).
    rewrite length_replicate, Z2Nat.id in Hrest by lia.
    rewrite Hrest. apply take_app_length.
Qed.

Lemma read_genome_contig_layout_witness :
  let g := Build.read_genome 3 (fun _ => false)
             [([], ["A"; "C"; "G"; "T"]%byte); ([], ["A"; "C"]%byte);
              ([], ["G"; "G"; "G"]%byte)] in
  Build.SeqSizes g !! 1%nat = Some (Z.of_nat (length ["G"; "G"; "G"]%byte)) /\
  take (length ["G"; "G"; "G"]%byte)
       (drop (Z.to_nat (contig_begin (Build.SeqSizes g) (3 - 1) 1)) (Build.Seq g))
  = ["G"; "G"; "G"]%byte.
Proof.
  apply (read_genome_contig_layout 3 (fun _ => false)
           [([], ["A"; "C"; "G"; "T"]%byte); ([], ["A"; "C"]%byte);
            ([], ["G"; "G"; "G"]%byte)] 1 ["G"; "G"; "G"]%byte);
    [lia | simpl; lia | reflexivity].
Defined.

End SearchingProofs.

(** ** The reverse complement as a list function *)

Section ReverseComplementMore.
Import Int Index.

(** X22. [RC], which complements the bytes in place and
    then swaps them from the two ends, returns the complements of the
    bytes in reverse order; the result is as long as the input, and the
    reverse complement of two sequences joined is that of the second one
    followed by that of the first. *)
Theorem RC_reverse_complement s t :
  RC s = reverse (rcTable_at <$> s) /\
  length (RC s) = length s /\
  RC (s ++ t) = RC t ++ RC s.
Proof.
  rewrite !RC_reverse. split; [reflexivity |].
  split; [rewrite length_reverse, length_fmap; reflexivity |].
  rewrite fmap_app, reverse_app. reflexivity.
Qed.

End ReverseComplementMore.

(** ** The collector of [Index.Search] *)

Section CollectorProofs.
Import Int Searching.

Lemma anchors_of_app key l1 l2 :
  anchors_of key (l1 ++ l2) = anchors_of key l1 ++ anchors_of key l2.
Proof. unfold anchors_of. rewrite List.filter_app, fmap_app. reflexivity. Qed.

Lemma anchors_of_one key k sub :
  anchors_of key [(k, sub)] = if k =? key then [sub] else [].
Proof. unfold anchors_of. cbn. destruct (k =? key); reflexivity. Qed.

Lemma add_anchor_grouped m anchors a :
  grouped m anchors -> grouped (add_anchor m a) (anchors ++ [a]).
Proof.
  intros Hg key. unfold add_anchor. rewrite anchors_of_app.
  destruct a as [k sub]. cbn [fst snd]. rewrite anchors_of_one.
  specialize (Hg key).
  destruct (Z.eqb_spec k key) as [-> | Hne].
  - rewrite lookup_insert_eq. cbn [Index.RefBatchAndIdx Index.Score Index.Subs].
    destruct (m !! key) as [r |].
    + destruct Hg as (H1 & H2 & _ & H4). rewrite H4.
      repeat split; auto; intros E; apply app_eq_nil in E as [_ E]; discriminate E.
    + cbn. rewrite Hg. repeat split; auto; discriminate.
  - rewrite lookup_insert_ne by exact Hne. rewrite app_nil_r. exact Hg.
Qed.

Lemma collect_locs_grouped K sr locs : forall m anchors,
  grouped m anchors ->
  grouped (collect_locs K sr locs m)
          (anchors ++ concat ((fun posQ =>
                                 let '(beginQ, rcQ) := query_begin K (LenPrefix sr) posQ in
                                 new_anchor K (LenPrefix sr) (Mismatch sr) beginQ rcQ
                                 <$> Values sr) <$> locs)).
Proof.
  unfold collect_locs. induction locs as [| posQ locs IH]; intros m anchors Hg.
  - cbn. rewrite app_nil_r. exact Hg.
  - cbn [fold_left]. rewrite fmap_cons. cbn [concat]. rewrite app_assoc.
    apply IH. destruct (query_begin K (LenPrefix sr) posQ) as [beginQ rcQ].
    clear IH. revert m anchors Hg.
    induction (Values sr) as [| refpos vs IHv]; intros m anchors Hg.
    + cbn. rewrite app_nil_r. exact Hg.
    + cbn [fold_left]. rewrite fmap_cons.
      replace (anchors ++ new_anchor K (LenPrefix sr) (Mismatch sr) beginQ rcQ refpos
                 :: (new_anchor K (LenPrefix sr) (Mismatch sr) beginQ rcQ <$> vs))
        with ((anchors ++ [new_anchor K (LenPrefix sr) (Mismatch sr) beginQ rcQ refpos])
                ++ (new_anchor K (LenPrefix sr) (Mismatch sr) beginQ rcQ <$> vs))
        by (rewrite <- app_assoc; reflexivity).
      apply IHv. apply add_anchor_grouped. exact Hg.
Qed.

Lemma fold_None {A B} (f : option A -> B -> option A) (l : list B) :
  (forall b, f None b = None) -> fold_left f l None = None.
Proof. intros Hf. induction l as [| b l IH]; [reflexivity |]. cbn. rewrite Hf. exact IH. Qed.

Lemma collect_hits_grouped K _locses srs : forall m anchors,
  Forall (fun sr => 0 <= IQuery sr < Z.of_nat (length _locses)) srs ->
  grouped m anchors ->
  exists m', collect_hits K _locses srs m = Some m' /\
             grouped m' (anchors ++ concat (hit_anchors K _locses <$> srs)).
Proof.
  unfold collect_hits. induction srs as [| sr srs IH]; intros m anchors Hq Hg.
  - exists m. cbn. rewrite app_nil_r. auto.
  - apply Forall_cons in Hq as [Hsr Hq]. cbn beta in Hsr.
    cbn [fold_left]. rewrite fmap_cons. cbn [concat]. rewrite app_assoc.
    destruct (index_at _locses (IQuery sr)) as [locs |] eqn:El.
    + apply IH; [exact Hq |].
      replace (hit_anchors K _locses sr)
        with (concat ((fun posQ =>
                         let '(beginQ, rcQ) := query_begin K (LenPrefix sr) posQ in
                         new_anchor K (LenPrefix sr) (Mismatch sr) beginQ rcQ
                         <$> Values sr) <$> locs))
        by (unfold hit_anchors; rewrite El; reflexivity).
      apply collect_locs_grouped. exact Hg.
    + exfalso. unfold index_at in El.
      destruct (IQuery sr <? 0) eqn:E0; [lia |].
      apply lookup_ge_None in El || apply nth_error_None in El. lia.
Qed.

(** X23. The collector of [Index.Search] groups the
    anchors by genome.  When every result names a query k-mer that
    exists, it ends without a panic, and the map it leaves has, for each
    genome with an anchor, one target with the key of the genome, the
    score [0] and all the anchors of that genome in the order in which
    they were made; a genome with no anchor has no target. *)
Theorem collect_groups_by_genome K _locses ch :
  Forall (Forall (fun sr => 0 <= IQuery sr < Z.of_nat (length _locses))) ch ->
  exists m, collect K _locses ch = Some m /\
            grouped m (all_anchors K _locses ch).
Proof.
  intros Hq. unfold collect, all_anchors.
  assert (forall m anchors,
            grouped m anchors ->
            exists m',
              fold_left (fun m srs => match m with
                                      | Some m => collect_hits K _locses srs m
                                      | None => None
                                      end) ch (Some m) = Some m' /\
              grouped m' (anchors ++ concat (hit_anchors K _locses <$> concat ch))) as H.
  { induction ch as [| srs ch IH]; intros m anchors Hg.
    - exists m. cbn. rewrite app_nil_r. auto.
    - apply Forall_cons in Hq as [Hsrs Hq].
      cbn [fold_left concat]. rewrite fmap_app, concat_app, app_assoc.
      destruct (collect_hits_grouped K _locses srs m anchors Hsrs Hg) as (m1 & -> & Hg1).
      apply IH; assumption. }
  apply (H ∅ []). intros key. rewrite lookup_empty. reflexivity.
Qed.

Lemma collect_groups_by_genome_witness :
  exists m,
    collect 5 [[20]; [41]]
      [[mkHit 0 5 0 [Index.kmerValue 1 2 200; Index.kmerValue 1 3 301]];
       [mkHit 1 4 0 [Index.kmerValue 1 2 600]]] = Some m /\
    grouped m
      (all_anchors 5 [[20]; [41]]
         [[mkHit 0 5 0 [Index.kmerValue 1 2 200; Index.kmerValue 1 3 301]];
          [mkHit 1 4 0 [Index.kmerValue 1 2 600]]]).
Proof.
  apply (collect_groups_by_genome 5 [[20]; [41]]
           [[mkHit 0 5 0 [Index.kmerValue 1 2 200; Index.kmerValue 1 3 301]];
            [mkHit 1 4 0 [Index.kmerValue 1 2 600]]]).
  repeat (apply Forall_cons_2 || apply Forall_nil_2); simpl; lia.
Defined.

End CollectorProofs.
